(** * PCVisor: packet classification evaluation framework

    A shallow embedding of the evaluation driver of PCVisor
    ([code/mem_sim.c], which carries the text of [pc_eval.c]) together
    with the interface of its two engines (HyperSplit, [code/hs.h], and
    Tuple Space Search).

    Machine integers are mathematical integers with the wrap-around of
    the C type written out; a [FILE] is the list of characters not yet
    read plus its end-of-file indicator; [exit(-1)] after a diagnostic
    is the [Fatal] outcome. *)

From Stdlib Require Import ZArith Zbitwise Lia List Sorted Ascii String Bool.
From stdpp Require Import base decidable option list gmap fin_maps.

Local Open Scope Z_scope.

(** ** Machine integers *)

Module MachInt.

(** A value held in an unsigned integer of [w] bits. *)
Definition wrap (w x : Z) : Z := x mod 2 ^ w.

Definition u8 : Z -> Z := wrap 8.
Definition u16 : Z -> Z := wrap 16.
Definition u32 : Z -> Z := wrap 32.
Definition u64 : Z -> Z := wrap 64.

(** [~x] on an unsigned integer of [w] bits. *)
Definition bnot (w x : Z) : Z := wrap w (Z.lnot x).

(** Conversion of a 32-bit pattern to [int] (two's complement). *)
Definition int_of_u32 (x : Z) : Z :=
  if x <? 2 ^ 31 then x else x - 2 ^ 32.

Definition is_u32 (x : Z) : Prop := 0 <= x < 2 ^ 32.

End MachInt.
Import MachInt.

(** ** Data model (pc_eval.h) *)

(** The five dimensions, in the order of the [DIM_*] enumeration. *)
Inductive dimension : Type :=
  | DIM_SIP | DIM_DIP | DIM_SPORT | DIM_DPORT | DIM_PROTO.

Definition all_dims : list dimension :=
  [DIM_SIP; DIM_DIP; DIM_SPORT; DIM_DPORT; DIM_PROTO].

(** Index of a dimension in the [DIM_*] enumeration. *)
Definition dim_index (d : dimension) : Z :=
  match d with
  | DIM_SIP => 0 | DIM_DIP => 1 | DIM_SPORT => 2
  | DIM_DPORT => 3 | DIM_PROTO => 4
  end.

(** Width in bits of the member of [union point] used for a dimension
    ([u32] for addresses, [u16] for ports, [u8] for the protocol). *)
Definition W (d : dimension) : Z :=
  match d with
  | DIM_SIP | DIM_DIP => 32
  | DIM_SPORT | DIM_DPORT => 16
  | DIM_PROTO => 8
  end.

(** An array indexed by [DIM_*], as [dim[DIM_MAX]]. *)
Record dims (A : Type) : Type := mk_dims {
  at_sip : A; at_dip : A; at_sport : A; at_dport : A; at_proto : A
}.
Arguments mk_dims {A} _ _ _ _ _.
Arguments at_sip {A} _.
Arguments at_dip {A} _.
Arguments at_sport {A} _.
Arguments at_dport {A} _.
Arguments at_proto {A} _.

Definition dget {A} (a : dims A) (d : dimension) : A :=
  match d with
  | DIM_SIP => at_sip a | DIM_DIP => at_dip a | DIM_SPORT => at_sport a
  | DIM_DPORT => at_dport a | DIM_PROTO => at_proto a
  end.

Definition dset {A} (a : dims A) (d : dimension) (x : A) : dims A :=
  match d with
  | DIM_SIP => mk_dims x (at_dip a) (at_sport a) (at_dport a) (at_proto a)
  | DIM_DIP => mk_dims (at_sip a) x (at_sport a) (at_dport a) (at_proto a)
  | DIM_SPORT => mk_dims (at_sip a) (at_dip a) x (at_dport a) (at_proto a)
  | DIM_DPORT => mk_dims (at_sip a) (at_dip a) (at_sport a) x (at_proto a)
  | DIM_PROTO => mk_dims (at_sip a) (at_dip a) (at_sport a) (at_dport a) x
  end.

Definition dmap2 {A B C} (f : dimension -> A -> B -> C)
    (a : dims A) (b : dims B) : dims C :=
  mk_dims (f DIM_SIP (at_sip a) (at_sip b)) (f DIM_DIP (at_dip a) (at_dip b))
          (f DIM_SPORT (at_sport a) (at_sport b))
          (f DIM_DPORT (at_dport a) (at_dport b))
          (f DIM_PROTO (at_proto a) (at_proto b)).

(** [struct range_rule]: [dim[d][0]] is the low end and [dim[d][1]] the
    high end of the range in dimension [d]. *)
Record range_rule : Type := mk_range_rule {
  r_dim : dims (Z * Z);
  r_pri : Z
}.

Definition r_low (r : range_rule) (d : dimension) : Z := fst (dget (r_dim r) d).
Definition r_high (r : range_rule) (d : dimension) : Z := snd (dget (r_dim r) d).

(** [struct prefix_rule]: a value and a prefix length per dimension. *)
Record prefix_rule : Type := mk_prefix_rule {
  p_dim : dims Z;
  p_len : dims Z;
  p_pri : Z
}.

(** [struct packet]: the five header fields and the priority of the rule
    the trace expects the packet to match. *)
Record packet : Type := mk_packet {
  val : dims Z;
  pkt_match : Z
}.

(** Modelled from the spec: the capacity macros of pc_eval.h, which is
    not among the sources; section 6 of the specification gives both
    defaults as 1,048,576. *)
Definition RULE_MAX : Z := 1048576.
Definition PKT_MAX : Z := 1048576.

(** ** Outcomes of a loader *)

(** The diagnostics written to [stderr] before [exit(-1)]. *)
Inductive diagnostic : Type :=
  | Too_many_rules
  | Illegal_rule_format
  | Protocol_mask_error (proto_mask : Z)
  | Too_many_packets
  | Illegal_packet_format.

Inductive outcome (A : Type) : Type :=
  | Loaded (a : A)
  | Fatal (d : diagnostic).
Arguments Loaded {A} a.
Arguments Fatal {A} d.

(** ** The body of the loaders' loops *)

(** The seventeen variables [fscanf] fills for one line of a
    Classbench rule file, all of type [uint32_t]. *)
Record cb_line : Type := mk_cb_line {
  src_ip_0 : Z; src_ip_1 : Z; src_ip_2 : Z; src_ip_3 : Z; src_ip_mask : Z;
  dst_ip_0 : Z; dst_ip_1 : Z; dst_ip_2 : Z; dst_ip_3 : Z; dst_ip_mask : Z;
  src_port_begin : Z; src_port_end : Z;
  dst_port_begin : Z; dst_port_end : Z;
  proto : Z; proto_mask : Z;
  rule_id : Z
}.

Definition cb_line_ok (f : cb_line) : Prop :=
  Forall is_u32
    [src_ip_0 f; src_ip_1 f; src_ip_2 f; src_ip_3 f; src_ip_mask f;
     dst_ip_0 f; dst_ip_1 f; dst_ip_2 f; dst_ip_3 f; dst_ip_mask f;
     src_port_begin f; src_port_end f; dst_port_begin f; dst_port_end f;
     proto f; proto_mask f; rule_id f].

(** [((a & 0xff) << 24) | ((b & 0xff) << 16) | ((c & 0xff) << 8) | (d & 0xff)] *)
Definition ip_of_bytes (a b c d : Z) : Z :=
  Z.lor (Z.lor (Z.lor (u32 (Z.shiftl (Z.land a 255) 24))
                      (u32 (Z.shiftl (Z.land b 255) 16)))
               (u32 (Z.shiftl (Z.land c 255) 8)))
        (Z.land d 255).

(** [m > 32 ? 32 : m] *)
Definition clamp_mask (m : Z) : Z := if m >? 32 then 32 else m.

(** [(uint32_t)(~((1ULL << (32 - m)) - 1))], [m] already clamped. *)
Definition ip_netmask (m : Z) : Z :=
  u32 (bnot 64 (u64 (u64 (Z.shiftl 1 (u32 (32 - m))) - 1))).


(** The two stores into [dim[DIM_SIP]] (and [dim[DIM_DIP]]). *)
Definition ip_range (ip m : Z) : Z * Z :=
  let mask := ip_netmask (clamp_mask m) in
  (Z.land ip mask, Z.lor ip (bnot 32 mask)).

(** The two stores into a port dimension and the [swap]. *)
Definition port_range (b e : Z) : Z * Z :=
  let lo := u16 (Z.land b 65535) in
  let hi := u16 (Z.land e 65535) in
  if lo >? hi then (hi, lo) else (lo, hi).

(** [rule_id - 1] in [uint32_t], stored in the [int] field [pri].
    Modelled from the spec: the field is declared in pc_eval.h, which is
    not among the sources; the specification speaks of a priority of -1
    for id 0, which is the value a 32-bit [int] field holds. *)
Definition pri_of_id (id : Z) : Z := int_of_u32 (u32 (id - 1)).

(** One iteration of the loop of [load_cb_rules], after [fscanf]. *)
Definition cb_rule (f : cb_line) : outcome range_rule :=
  let sip :=
    ip_range (ip_of_bytes (src_ip_0 f) (src_ip_1 f) (src_ip_2 f) (src_ip_3 f))
             (src_ip_mask f) in
  let dip :=
    ip_range (ip_of_bytes (dst_ip_0 f) (dst_ip_1 f) (dst_ip_2 f) (dst_ip_3 f))
             (dst_ip_mask f) in
  let sport := port_range (src_port_begin f) (src_port_end f) in
  let dport := port_range (dst_port_begin f) (dst_port_end f) in
  if proto_mask f =? 255 then
    let p := u8 (Z.land (proto f) 255) in
    Loaded (mk_range_rule (mk_dims sip dip sport dport (p, p))
                          (pri_of_id (rule_id f)))
  else if proto_mask f =? 0 then
    Loaded (mk_range_rule (mk_dims sip dip sport dport (0, 255))
                          (pri_of_id (rule_id f)))
  else Fatal (Protocol_mask_error (proto_mask f)).

(** The seventeen variables of one line of a prefix rule file. *)
Module Prfx.

Record prfx_line : Type := mk_prfx_line {
  src_ip_0 : Z; src_ip_1 : Z; src_ip_2 : Z; src_ip_3 : Z; src_ip_mask : Z;
  dst_ip_0 : Z; dst_ip_1 : Z; dst_ip_2 : Z; dst_ip_3 : Z; dst_ip_mask : Z;
  src_port : Z; src_port_mask : Z;
  dst_port : Z; dst_port_mask : Z;
  proto : Z; proto_mask : Z;
  rule_id : Z
}.

End Prfx.

Definition prfx_line_ok (f : Prfx.prfx_line) : Prop :=
  Forall is_u32
    [Prfx.src_ip_0 f; Prfx.src_ip_1 f; Prfx.src_ip_2 f; Prfx.src_ip_3 f;
     Prfx.src_ip_mask f;
     Prfx.dst_ip_0 f; Prfx.dst_ip_1 f; Prfx.dst_ip_2 f; Prfx.dst_ip_3 f;
     Prfx.dst_ip_mask f;
     Prfx.src_port f; Prfx.src_port_mask f;
     Prfx.dst_port f; Prfx.dst_port_mask f;
     Prfx.proto f; Prfx.proto_mask f; Prfx.rule_id f].

(** One iteration of the loop of [load_prfx_rules], after [fscanf].
    Modelled from the spec: the element type of the [len] array is
    declared in pc_eval.h, which is not among the sources; every length
    the specification allows (0 to 32) fits any integer type, and a
    length is kept here as it is assigned. *)
Definition prfx_rule (f : Prfx.prfx_line) : outcome prefix_rule :=
  let sm := clamp_mask (Prfx.src_ip_mask f) in
  let sip :=
    Z.land (ip_of_bytes (Prfx.src_ip_0 f) (Prfx.src_ip_1 f)
                        (Prfx.src_ip_2 f) (Prfx.src_ip_3 f))
           (ip_netmask sm) in
  let dm := clamp_mask (Prfx.dst_ip_mask f) in
  let dip :=
    Z.land (ip_of_bytes (Prfx.dst_ip_0 f) (Prfx.dst_ip_1 f)
                        (Prfx.dst_ip_2 f) (Prfx.dst_ip_3 f))
           (ip_netmask dm) in
  let sport := u16 (Z.land (Prfx.src_port f) 65535) in
  let dport := u16 (Z.land (Prfx.dst_port f) 65535) in
  if Prfx.proto_mask f =? 255 then
    Loaded (mk_prefix_rule
              (mk_dims sip dip sport dport (u8 (Z.land (Prfx.proto f) 255)))
              (mk_dims sm dm (Prfx.src_port_mask f) (Prfx.dst_port_mask f) 8)
              (pri_of_id (Prfx.rule_id f)))
  else if Prfx.proto_mask f =? 0 then
    Loaded (mk_prefix_rule
              (mk_dims sip dip sport dport 0)
              (mk_dims sm dm (Prfx.src_port_mask f) (Prfx.dst_port_mask f) 0)
              (pri_of_id (Prfx.rule_id f)))
  else Fatal (Protocol_mask_error (Prfx.proto_mask f)).

(** The six values [fscanf] stores for one line of a trace. *)
Record pkt_line : Type := mk_pkt_line {
  t_sip : Z; t_dip : Z; t_sport : Z; t_dport : Z; t_proto : Z; t_match : Z
}.

Definition pkt_line_ok (f : pkt_line) : Prop :=
  Forall is_u32 [t_sip f; t_dip f; t_sport f; t_dport f; t_proto f; t_match f].

(** One iteration of the loop of [load_trace], after [fscanf]: the port
    and protocol members are rewritten through their narrow members and
    [match] is decremented.  Modelled from the spec: [match] is declared
    in pc_eval.h, which is not among the sources; it is taken to be an
    [int] as [pri] is. *)
Definition trace_packet (f : pkt_line) : packet :=
  mk_packet
    (mk_dims (t_sip f) (t_dip f)
             (u16 (Z.land (t_sport f) 65535))
             (u16 (Z.land (t_dport f) 65535))
             (u8 (Z.land (t_proto f) 255)))
    (int_of_u32 (u32 (int_of_u32 (t_match f) - 1))).

(** ** Streams and formatted input (stdio) *)

Module Stdio.

(** An open stream: the characters not yet read and the end-of-file
    indicator, which is set only when a read has run into the end. *)
Record FILE : Type := mk_FILE {
  unread : list ascii;
  eof_ind : bool
}.

Definition fopen (contents : list ascii) : FILE := mk_FILE contents false.
Definition feof (fp : FILE) : bool := eof_ind fp.

(** The directives of a format: white space, an ordinary character,
    and an integer conversion ([%u] and [%d] in base 10, [%x] in base
    16) into a 32-bit object. *)
Inductive directive : Type :=
  | D_space
  | D_char (c : ascii)
  | D_conv (base : Z).

Definition isspace (c : ascii) : bool :=
  match c with
  | " "%char | "009"%char | "010"%char | "011"%char | "012"%char
  | "013"%char => true
  | _ => false
  end.

Definition digit_val (base : Z) (c : ascii) : option Z :=
  let n := Z.of_N (N_of_ascii c) in
  if (48 <=? n) && (n <=? 57) then Some (n - 48)
  else if base =? 16 then
    if (97 <=? n) && (n <=? 102) then Some (n - 87)
    else if (65 <=? n) && (n <=? 70) then Some (n - 55)
    else None
  else None.

Definition is_sign (c : ascii) : bool :=
  Ascii.eqb c "+" || Ascii.eqb c "-".

Definition is_nil {A} (l : list A) : bool :=
  match l with [] => true | _ => false end.

Fixpoint skip_space (s : list ascii) : list ascii :=
  match s with
  | c :: t => if isspace c then skip_space t else s
  | [] => []
  end.

(** The digits of a number, most significant first. *)
Fixpoint scan_digits (base acc : Z) (s : list ascii) : Z * list ascii :=
  match s with
  | c :: t =>
      match digit_val base c with
      | Some v => scan_digits base (acc * base + v) t
      | None => (acc, s)
      end
  | [] => (acc, [])
  end.

Inductive conv_result : Type :=
  | Conv_ok (v : Z) (rest : list ascii)
  | Conv_mismatch (rest : list ascii)
  | Conv_eof.

(** The [0x] that may precede the digits of a [%x] item. *)
Definition hex_prefixed (base : Z) (s : list ascii) : bool :=
  match s with
  | c0 :: c1 :: _ =>
      (base =? 16) && Ascii.eqb c0 "0"
      && (Ascii.eqb c1 "x" || Ascii.eqb c1 "X")
  | _ => false
  end.

Definition skip_hex_prefix (base : Z) (s : list ascii) : list ascii :=
  match s with
  | c0 :: c1 :: t =>
      if (base =? 16) && Ascii.eqb c0 "0"
         && (Ascii.eqb c1 "x" || Ascii.eqb c1 "X")
      then t else s
  | _ => s
  end.

(** The item stored for a digit string worth [v]: the conversion of the
    library is that of a 64-bit [unsigned long], which sticks at its
    largest value when the number is 2^64 or more, and the 32-bit
    object receives its low half.  ([%d] is read as [%u] is: the two
    differ only for a number of 2^63 or more.) *)
Definition item_value (neg : bool) (v : Z) : Z :=
  u32 (if 2 ^ 64 <=? v then 2 ^ 64 - 1 else if neg then - v else v).

(** The digits of an item, of which there must be one at least. *)
Definition scan_magnitude (base : Z) (neg : bool) (s : list ascii)
    : conv_result :=
  match s with
  | [] => Conv_mismatch []
  | c :: _ =>
      match digit_val base c with
      | None => Conv_mismatch s
      | Some _ =>
          let '(v, rest) := scan_digits base 0 s in
          Conv_ok (item_value neg v) rest
      end
  end.

(** An integer item, leading white space already skipped: an optional
    sign, for [%x] an optional [0x], and digits.  A [0x] that no digit
    follows is read by the library as the item 0, the [0x] consumed. *)
Definition scan_number (base : Z) (s : list ascii) : conv_result :=
  match s with
  | [] => Conv_eof
  | c :: t =>
      let neg := is_sign c && Ascii.eqb c "-" in
      let s1 := if is_sign c then t else s in
      match scan_magnitude base neg (skip_hex_prefix base s1) with
      | Conv_mismatch rest =>
          if hex_prefixed base s1 then Conv_ok 0 rest else Conv_mismatch rest
      | r => r
      end
  end.

(** The value [fscanf] returns when input ends: [EOF] before the first
    conversion, the number of items assigned after it. *)
Definition count_or_EOF (vals : list Z) : Z :=
  match vals with [] => -1 | _ => Z.of_nat (length vals) end.

Fixpoint scan (fmt : list directive) (s : list ascii) (hit : bool)
    (vals : list Z) : Z * list Z * FILE :=
  match fmt with
  | [] => (Z.of_nat (length vals), vals, mk_FILE s hit)
  | D_space :: fmt' =>
      let s' := skip_space s in
      scan fmt' s' (hit || is_nil s') vals
  | D_char c :: fmt' =>
      match s with
      | [] => (count_or_EOF vals, vals, mk_FILE [] true)
      | c' :: t =>
          if Ascii.eqb c c' then scan fmt' t hit vals
          else (Z.of_nat (length vals), vals, mk_FILE s hit)
      end
  | D_conv base :: fmt' =>
      match scan_number base (skip_space s) with
      | Conv_eof => (count_or_EOF vals, vals, mk_FILE [] true)
      | Conv_mismatch rest =>
          (Z.of_nat (length vals), vals, mk_FILE rest (hit || is_nil rest))
      | Conv_ok v rest =>
          scan fmt' rest (hit || is_nil rest) (vals ++ [v])
      end
  end.

(** The number of conversions of a format. *)
Fixpoint convs (fmt : list directive) : nat :=
  match fmt with
  | [] => O
  | D_conv _ :: fmt' => S (convs fmt')
  | _ :: fmt' => convs fmt'
  end.

(** [fscanf(fp, fmt, ...)]: the value returned, the items assigned in
    order, and the stream afterwards. *)
Definition fscanf (fp : FILE) (fmt : list directive) : Z * list Z * FILE :=
  scan fmt (unread fp) (eof_ind fp) [].

(** A format written as in C: [%u], [%d], [%x], white space, and
    ordinary characters. *)
Fixpoint parse_format (s : list ascii) : list directive :=
  match s with
  | [] => []
  | "%"%char :: "x"%char :: t => D_conv 16 :: parse_format t
  | "%"%char :: _ :: t => D_conv 10 :: parse_format t
  | c :: t =>
      if isspace c then D_space :: parse_format t
      else D_char c :: parse_format t
  end.

Definition fmt (s : string) : list directive :=
  parse_format (list_ascii_of_string s).

End Stdio.
Import Stdio.

(** ** The loaders *)

(** What distinguishes the three loading loops: the capacity of the
    array, the number of items a line holds, the two diagnostics, and
    the body run on the items of a line. *)
Record loader (A : Type) : Type := mk_loader {
  cap : Z;
  nconv : Z;
  too_many : diagnostic;
  illegal : diagnostic;
  body : list Z -> outcome A
}.
Arguments mk_loader {A} _ _ _ _ _.
Arguments cap {A} _.
Arguments nconv {A} _.
Arguments too_many {A} _.
Arguments illegal {A} _.
Arguments body {A} _ _.

Section Loop.

Context {A : Type}.
Variable P : loader A.
(** The format macro ([CB_RULE_FMT], [PRFX_RULE_FMT], [PKT_FMT]) is
    defined in pc_eval.h, which is not among the sources. *)
Variable format : list directive.

(** [while (!feof(fp)) { ... }], with the array filled so far.  The
    fuel bounds the number of iterations; [load] below gives enough. *)
Fixpoint load_loop (fuel : nat) (fp : FILE) (i : Z) (acc : list A)
    : option (outcome (list A)) :=
  match fuel with
  | O => None
  | S fuel' =>
      if feof fp then Some (Loaded acc)
      else if cap P <=? i then Some (Fatal (too_many P))
      else
        let '(n, vals, fp') := fscanf fp format in
        if negb (n =? nconv P) then Some (Fatal (illegal P))
        else
          match body P vals with
          | Fatal d => Some (Fatal d)
          | Loaded a => load_loop fuel' fp' (i + 1) (acc ++ [a])
          end
  end.

Definition load (contents : list ascii) : option (outcome (list A)) :=
  load_loop (S (length contents)) (fopen contents) 0 [].

(** [n] iterations of the loop that each load an entry, from [fp]. *)
Fixpoint read_entries (n : nat) (fp : FILE) : option (list A * FILE) :=
  match n with
  | O => Some ([], fp)
  | S n' =>
      if feof fp then None
      else
        let '(k, vals, fp') := fscanf fp format in
        if negb (k =? nconv P) then None
        else
          match body P vals with
          | Fatal _ => None
          | Loaded a =>
              match read_entries n' fp' with
              | Some (l, fp'') => Some (a :: l, fp'')
              | None => None
              end
          end
  end.

End Loop.

Definition cb_line_of (vals : list Z) : option cb_line :=
  match vals with
  | [a0; a1; a2; a3; a4; a5; a6; a7; a8; a9; a10; a11; a12; a13; a14; a15; a16] =>
      Some (mk_cb_line a0 a1 a2 a3 a4 a5 a6 a7 a8 a9 a10 a11 a12 a13 a14 a15 a16)
  | _ => None
  end.

Definition prfx_line_of (vals : list Z) : option Prfx.prfx_line :=
  match vals with
  | [a0; a1; a2; a3; a4; a5; a6; a7; a8; a9; a10; a11; a12; a13; a14; a15; a16] =>
      Some (Prfx.mk_prfx_line a0 a1 a2 a3 a4 a5 a6 a7 a8 a9 a10 a11 a12 a13
                              a14 a15 a16)
  | _ => None
  end.

Definition pkt_line_of (vals : list Z) : option pkt_line :=
  match vals with
  | [a0; a1; a2; a3; a4; a5] => Some (mk_pkt_line a0 a1 a2 a3 a4 a5)
  | _ => None
  end.

Definition cb_loader : loader range_rule :=
  mk_loader RULE_MAX 17 Too_many_rules Illegal_rule_format
    (fun vals =>
       match cb_line_of vals with
       | Some f => cb_rule f
       | None => Fatal Illegal_rule_format
       end).

Definition prfx_loader : loader prefix_rule :=
  mk_loader RULE_MAX 17 Too_many_rules Illegal_rule_format
    (fun vals =>
       match prfx_line_of vals with
       | Some f => prfx_rule f
       | None => Fatal Illegal_rule_format
       end).

Definition trace_loader : loader packet :=
  mk_loader PKT_MAX 6 Too_many_packets Illegal_packet_format
    (fun vals =>
       match pkt_line_of vals with
       | Some f => Loaded (trace_packet f)
       | None => Fatal Illegal_packet_format
       end).

(** [load_cb_rules], [load_prfx_rules] and [load_trace] on the contents
    of the file they open; the list returned is the array and its
    length is [num]. *)
Definition load_cb_rules (CB_RULE_FMT : list directive) (rf : list ascii)
    : option (outcome (list range_rule)) :=
  load cb_loader CB_RULE_FMT rf.

Definition load_prfx_rules (PRFX_RULE_FMT : list directive) (rf : list ascii)
    : option (outcome (list prefix_rule)) :=
  load prfx_loader PRFX_RULE_FMT rf.

Definition load_trace (PKT_FMT : list directive) (tf : list ascii)
    : option (outcome (list packet)) :=
  load trace_loader PKT_FMT tf.

(** Modelled from the spec: the line syntax of section 6 of the
    specification, one entry per line, for the format macros of
    pc_eval.h, which is not among the sources. *)
Definition spec_cb_fmt : list directive :=
  fmt "@%u.%u.%u.%u/%u %u.%u.%u.%u/%u %u : %u %u : %u %x/%x %u
".
Definition spec_prfx_fmt : list directive :=
  fmt "@%u.%u.%u.%u/%u %u.%u.%u.%u/%u %u/%u %u/%u %x/%x %u
".
Definition spec_pkt_fmt : list directive :=
  fmt "%u %u %u %u %u %u
".

Definition file (s : string) : list ascii := list_ascii_of_string s.


(** The capacity check of a loader on a file: at most [cap] entries are
    ever returned; the file is turned down for capacity exactly when
    [cap] entries have been loaded and the end of the file has not been
    seen; a file of at most [cap] entries followed by the end of the
    file is loaded; and when the format ends in an item followed by
    white space, a file turned down for capacity has text other than
    white space after its first [cap] entries. *)
Definition capacity_checked {A} (P : loader A) (format : list directive)
    (contents : list ascii) : Prop :=
  (forall rs, load P format contents = Some (Loaded rs) ->
              Z.of_nat (length rs) <= cap P)
  /\ (load P format contents = Some (Fatal (too_many P)) <->
      exists rs fp',
        read_entries P format (Z.to_nat (cap P)) (fopen contents) = Some (rs, fp')
        /\ feof fp' = false)
  /\ (forall n rs fp',
        read_entries P format n (fopen contents) = Some (rs, fp') ->
        Z.of_nat n <= cap P ->
        feof fp' = true ->
        load P format contents = Some (Loaded rs))
  /\ (forall pre base,
        format = pre ++ [D_conv base; D_space] ->
        Z.of_nat (convs format) = nconv P ->
        load P format contents = Some (Fatal (too_many P)) ->
        exists rs fp' c t,
          read_entries P format (Z.to_nat (cap P)) (fopen contents)
          = Some (rs, fp')
          /\ unread fp' = c :: t /\ isspace c = false).

(** ** The driver: timing of the search phase *)

(** [struct timeval]: seconds and microseconds, both of type [long]. *)
Record timeval : Type := mk_timeval {
  tv_sec : Z;
  tv_usec : Z
}.

(** [make_timediff]: the operands are converted to [unsigned long long]
    and the arithmetic is that of 64 bits. *)
Definition make_timediff (start stop : timeval) : Z :=
  u64 (u64 (u64 (1000000 * u64 (tv_sec stop)) + u64 (tv_usec stop))
       - u64 (u64 (1000000 * u64 (tv_sec start)) + u64 (tv_usec start))).

(** The microseconds since the epoch that a [timeval] stands for. *)
Definition usec_of (t : timeval) : Z := 1000000 * tv_sec t + tv_usec t.

(** [(t.num * 1000000ULL) / timediff], the value printed as the
    searching speed; a division by zero ends the process instead. *)
Definition searching_speed (num timediff : Z) : option Z :=
  if timediff =? 0 then None
  else Some (u64 (u64 num * 1000000) / timediff).

(** ** Priority order *)

Section ByPriority.

Context {A : Type}.
Variable pri : A -> Z.

(** Insertion in a list kept in ascending order of priority, behind the
    entries of the same priority. *)
Fixpoint insert_by_pri (x : A) (l : list A) : list A :=
  match l with
  | [] => [x]
  | y :: t => if pri x <? pri y then x :: l else y :: insert_by_pri x t
  end.

Definition sort_by_pri (l : list A) : list A :=
  foldl (fun acc x => insert_by_pri x acc) [] l.

(** Ascending order of priority. *)
Definition sorted_by_pri (l : list A) : Prop :=
  StronglySorted (fun x y => pri x <= pri y) l.

(** Of two candidates the one of smaller priority value; the first on
    a tie. *)
Definition better (a b : option A) : option A :=
  match a, b with
  | Some x, Some y => if pri y <? pri x then Some y else Some x
  | Some x, None => Some x
  | None, _ => b
  end.

End ByPriority.

(** What a search has to return for the packet [p] from the rules that
    pass [test]: a rule of smallest priority value among those that hold
    the packet, or nothing when none does. *)
Definition best_match {A} (pri : A -> Z) (test : A -> bool)
    (rules : A -> Prop) (found : option A) : Prop :=
  match found with
  | Some r =>
      rules r /\ test r = true
      /\ forall r', rules r' -> test r' = true -> pri r <= pri r'
  | None => forall r, rules r -> test r = false
  end.

(** ** HyperSplit *)

Module HyperSplit.

(** A packet lies in a rule when each field lies in the range of its
    dimension. *)
Definition in_range (r : range_rule) (p : dims Z) : bool :=
  forallb (fun d => (r_low r d <=? dget p d) && (dget p d <=? r_high r d))
          all_dims.

(** [struct hs_node] of hs.h: the dimension to split, the depth (a
    [uint8_t]), the threshold and the two children.  Modelled from the
    spec: hs.c is not among the sources and hs.h does not say what a
    leaf is; as the specification has it, a leaf holds rules in
    ascending order of priority. *)
Inductive hs_node : Type :=
  | hs_leaf (rules : list range_rule)
  | hs_split (d2s : dimension) (depth : Z) (thresh : Z)
             (child0 child1 : hs_node).

(** Modelled from the spec: the small-leaf threshold, 8 by default. *)
Definition BINTH : Z := 8.

(** The whole key space. *)
Definition full_cell : dims (Z * Z) :=
  mk_dims (0, 2 ^ 32 - 1) (0, 2 ^ 32 - 1) (0, 2 ^ 16 - 1) (0, 2 ^ 16 - 1)
          (0, 2 ^ 8 - 1).

Definition clip (c : Z * Z) (x : Z) : Z := Z.max (fst c) (Z.min x (snd c)).

(** Modelled from the spec: the candidate thresholds in dimension [d],
    the distinct ends of the ranges of the rules clipped to the cell. *)
Definition endpoints (S : list range_rule) (C : dims (Z * Z)) (d : dimension)
    : list Z :=
  remove_dups
    (flat_map (fun r => [clip (dget C d) (r_low r d);
                          clip (dget C d) (r_high r d)]) S).

Definition left_rules (S : list range_rule) (d : dimension) (t : Z)
    : list range_rule :=
  List.filter (fun r => r_low r d <=? t) S.

Definition right_rules (S : list range_rule) (d : dimension) (t : Z)
    : list range_rule :=
  List.filter (fun r => t <? r_high r d) S.

(** Modelled from the spec: the cost of a split is the number of rules
    of the two children together; the division by the number of rules
    of the node, the same for every candidate, is left out. *)
Definition cost (S : list range_rule) (c : dimension * Z) : Z :=
  Z.of_nat (length (left_rules S (fst c) (snd c)))
  + Z.of_nat (length (right_rules S (fst c) (snd c))).

Definition candidates (S : list range_rule) (C : dims (Z * Z))
    : list (dimension * Z) :=
  flat_map (fun d => map (fun t => (d, t)) (endpoints S C d)) all_dims.

(** Smaller cost first, then the lower dimension, then the lower
    threshold. *)
Definition split_lt (S : list range_rule) (a b : dimension * Z) : bool :=
  (cost S a <? cost S b)
  || ((cost S a =? cost S b)
      && ((dim_index (fst a) <? dim_index (fst b))
          || ((dim_index (fst a) =? dim_index (fst b)) && (snd a <? snd b)))).

Definition best_split (S : list range_rule) (C : dims (Z * Z))
    : option (dimension * Z) :=
  foldl (fun best c =>
           match best with
           | None => Some c
           | Some b => if split_lt S c b then Some c else Some b
           end) None (candidates S C).

(** Modelled from the spec: the recursive build.  [fuel] is the number
    of levels still allowed, so that a node deeper than the greatest
    depth allowed is a leaf.  A split makes progress when it leaves
    fewer rules than the node has on both sides; the best split is
    given up for a leaf when it does not. *)
Fixpoint build_node (fuel : nat) (depth : Z) (S : list range_rule)
    (C : dims (Z * Z)) : hs_node :=
  match fuel with
  | O => hs_leaf (sort_by_pri r_pri S)
  | Datatypes.S fuel' =>
      if Z.of_nat (length S) <=? BINTH then hs_leaf (sort_by_pri r_pri S)
      else
        match best_split S C with
        | None => hs_leaf (sort_by_pri r_pri S)
        | Some (d, t) =>
            let l := left_rules S d t in
            let r := right_rules S d t in
            if (length S <=? length l)%nat || (length S <=? length r)%nat
            then hs_leaf (sort_by_pri r_pri S)
            else
              hs_split d (u8 depth) t
                (build_node fuel' (depth + 1) l
                            (dset C d (fst (dget C d), t)))
                (build_node fuel' (depth + 1) r
                            (dset C d (t + 1, snd (dget C d))))
        end
  end.

(** [hs_build] of hs.h, with the greatest depth allowed. *)
Definition hs_build (max_depth : nat) (rs : list range_rule) : hs_node :=
  build_node (Datatypes.S max_depth) 0 rs full_cell.

(** Modelled from the spec: the search for one packet, down to a leaf
    and along its rules to the first that holds the packet. *)
Fixpoint hs_lookup (n : hs_node) (p : dims Z) : option range_rule :=
  match n with
  | hs_leaf rules => List.find (fun r => in_range r p) rules
  | hs_split d _ t c0 c1 =>
      if dget p d <=? t then hs_lookup c0 p else hs_lookup c1 p
  end.

(** The trees a recursive build can produce from the rules [S],
    whatever the choice of the splits. *)
Inductive built_from : list range_rule -> hs_node -> Prop :=
  | built_leaf S : built_from S (hs_leaf (sort_by_pri r_pri S))
  | built_split S d depth t c0 c1 :
      built_from (left_rules S d t) c0 ->
      built_from (right_rules S d t) c1 ->
      built_from S (hs_split d depth t c0 c1).

(** The matched priority, or no match. *)
Definition hs_search_pkt (n : hs_node) (p : dims Z) : option Z :=
  r_pri <$> hs_lookup n p.

End HyperSplit.

(** ** Tuple space search *)

#[global] Instance dimension_eq_dec : EqDecision dimension.
Proof. solve_decision. Defined.

#[global] Instance dims_eq_dec {A} `{EqDecision A} : EqDecision (dims A).
Proof. solve_decision. Defined.

#[global] Program Instance dims_countable `{Countable A} : Countable (dims A) :=
  inj_countable'
    (fun a => (at_sip a, at_dip a, at_sport a, at_dport a, at_proto a))
    (fun t => let '(a, b, c, d, e) := t in mk_dims a b c d e) _.
Next Obligation. by intros A ? ? []. Qed.

Module TSS.

(** Modelled from the spec: the mask of a prefix of [l] bits in
    dimension [d], the [l] high bits of the width of the dimension. *)
Definition prefix_mask (d : dimension) (l : Z) : Z :=
  Z.shiftl (Z.ones l) (W d - l).

(** A five-tuple masked by a vector of prefix lengths. *)
Definition masked_key (v : dims Z) (L : dims Z) : dims Z :=
  dmap2 (fun d x l => Z.land x (prefix_mask d l)) v L.

(** A packet lies in a prefix rule when it equals the value of the rule
    under the mask of the rule, in every dimension. *)
Definition prefix_match (r : prefix_rule) (p : dims Z) : bool :=
  bool_decide (masked_key (p_dim r) (p_len r) = masked_key p (p_len r)).

Section Engine.

(** Modelled from the spec: tss.c is not among the sources, and the
    specification leaves the hash function open. *)
Variable hash : dims Z -> Z.

(** Modelled from the spec: one hash table per tuple of prefix lengths;
    a table maps the hash of a masked key to its chain, kept in
    ascending order of priority. *)
Definition tss_insert (r : prefix_rule)
    (idx : gmap (dims Z) (gmap Z (list prefix_rule)))
    : gmap (dims Z) (gmap Z (list prefix_rule)) :=
  let L := p_len r in
  let T := default ∅ (idx !! L) in
  let h := hash (masked_key (p_dim r) L) in
  let chain := default [] (T !! h) in
  <[L := <[h := insert_by_pri p_pri r chain]> T]> idx.

(** Modelled from the spec: [insert_update] adds the rules of the delta
    set to the index it is given. *)
Definition tss_insert_update (delta : list prefix_rule)
    (idx : gmap (dims Z) (gmap Z (list prefix_rule)))
    : gmap (dims Z) (gmap Z (list prefix_rule)) :=
  foldl (fun i r => tss_insert r i) idx delta.

(** Modelled from the spec: [build] groups the rules of the set by
    their tuple. *)
Definition tss_build (rs : list prefix_rule)
    : gmap (dims Z) (gmap Z (list prefix_rule)) :=
  tss_insert_update rs ∅.

(** The chain of the packet's masked key in one table, and its first
    entry that holds the packet. *)
Definition probe (L : dims Z) (T : gmap Z (list prefix_rule)) (p : dims Z)
    : option prefix_rule :=
  match T !! hash (masked_key p L) with
  | Some chain => List.find (fun e => prefix_match e p) chain
  | None => None
  end.

(** Modelled from the spec: the search for one packet probes every
    table and keeps the match of smallest priority value. *)
Definition tss_lookup (idx : gmap (dims Z) (gmap Z (list prefix_rule)))
    (p : dims Z) : option prefix_rule :=
  foldr (fun LT best => better p_pri (probe LT.1 LT.2 p) best) None
        (map_to_list idx).

(** The matched priority, or no match. *)
Definition tss_search_pkt (idx : gmap (dims Z) (gmap Z (list prefix_rule)))
    (p : dims Z) : option Z :=
  p_pri <$> tss_lookup idx p.

End Engine.

(** The rules an index holds, and the invariant of an index: every
    chain is in ascending order of priority and holds rules of the
    tuple of its table, under the hash of their masked key. *)
Definition in_index (idx : gmap (dims Z) (gmap Z (list prefix_rule)))
    (e : prefix_rule) : Prop :=
  exists L T h chain,
    idx !! L = Some T /\ T !! h = Some chain /\ e ∈ chain.

Definition tss_ok (hash : dims Z -> Z)
    (idx : gmap (dims Z) (gmap Z (list prefix_rule))) : Prop :=
  forall L T h chain,
    idx !! L = Some T -> T !! h = Some chain ->
    sorted_by_pri p_pri chain
    /\ forall e, e ∈ chain ->
         p_len e = L /\ hash (masked_key (p_dim e) L) = h.

(** A hash for the examples: the fields of the key folded with a
    multiplier, on 32 bits. *)
Definition fold_hash (k : dims Z) : Z :=
  foldl (fun h x => u32 (h * 31 + x)) 17
        [at_sip k; at_dip k; at_sport k; at_dport k; at_proto k].

End TSS.

(** ** Data of the examples *)





Definition two_rules : list ascii :=
  file "@10.1.2.3/16 0.0.0.0/0 0 : 65535 80 : 80 0x06/0xFF 1
@10.1.2.3/8 1.2.3.4/32 1024 : 5 80 : 90 0x00/0x00 2
".

Definition rule_10_1_first : range_rule :=
  mk_range_rule
    (mk_dims (167837696, 167903231) (0, 4294967295) (0, 65535) (80, 80) (6, 6)) 0.

Definition rule_10_second : range_rule :=
  mk_range_rule
    (mk_dims (167772160, 184549375) (16909060, 16909060) (5, 1024) (80, 90)
             (0, 255)) 1.


Definition rule_len_20 : prefix_rule :=
  mk_prefix_rule (mk_dims 167837696 0 0 80 6) (mk_dims 16 0 20 16 8) 0.

Definition long_port_rules : list ascii :=
  file "@10.1.2.3/16 0.0.0.0/0 0/20 80/16 0x06/0xFF 1
".

(** A line of a trace, and the packet it holds. *)
Definition pkt_text : list ascii := file "0 0 0 0 0 1
".
Definition pkt_zero : packet := mk_packet (mk_dims 0 0 0 0 0) 0.

(** [k] copies of the line, followed by [tail]. *)
Definition trace_of (k : nat) (tail : list ascii) : list ascii :=
  Nat.iter k (app pkt_text) tail.

(** A trace format with no white space after the last item. *)
Definition bare_pkt_fmt : list directive := fmt "%u %u %u %u %u %u".

Definition one_packet : list ascii := file "1 2 3 4 6 1
".

(** The rule sets and packets of the scenarios of section 8 of the
    specification. *)
Module Scenario.
Import HyperSplit TSS.

Definition any32 : Z * Z := (0, 2 ^ 32 - 1).
Definition any16 : Z * Z := (0, 2 ^ 16 - 1).
Definition any8 : Z * Z := (0, 255).

Definition R1 : list range_rule :=
  [mk_range_rule (mk_dims any32 any32 any16 any16 any8) 0].

Definition R2 : list range_rule :=
  [mk_range_rule (mk_dims any32 any32 any16 any16 (6, 6)) 0;
   mk_range_rule (mk_dims any32 any32 any16 any16 any8) 1].

(** 10.0.0.0/8 and 10.1.0.0/16 *)
Definition R3 : list range_rule :=
  [mk_range_rule (mk_dims (167772160, 184549375) any32 any16 any16 any8) 0;
   mk_range_rule (mk_dims (167837696, 167903231) any32 any16 any16 any8) 1].

Definition R4 : list range_rule :=
  [mk_range_rule (mk_dims any32 any32 (1000, 2000) any16 any8) 0;
   mk_range_rule (mk_dims any32 any32 (1500, 2500) any16 any8) 1].

(** R3 in prefix form, with the exact rule 10.1.2.3/32. *)
Definition R5 : list prefix_rule :=
  [mk_prefix_rule (mk_dims 167772160 0 0 0 0) (mk_dims 8 0 0 0 0) 0;
   mk_prefix_rule (mk_dims 167837696 0 0 0 0) (mk_dims 16 0 0 0 0) 1;
   mk_prefix_rule (mk_dims 167838211 0 0 0 0) (mk_dims 32 0 0 0 0) 2].

(** R2 in prefix form, and the rules inserted afterwards. *)
Definition r_tcp : prefix_rule :=
  mk_prefix_rule (mk_dims 0 0 0 0 6) (mk_dims 0 0 0 0 8) 0.

Definition R2p : list prefix_rule :=
  [r_tcp; mk_prefix_rule (mk_dims 0 0 0 0 0) (mk_dims 0 0 0 0 0) 1].

Definition r_udp : prefix_rule :=
  mk_prefix_rule (mk_dims 0 0 0 0 17) (mk_dims 0 0 0 0 8) (-1).

Definition r_new : prefix_rule :=
  mk_prefix_rule (mk_dims 0 0 0 0 6) (mk_dims 0 0 0 0 8) (-1).

Definition pkt (sip dip sport dport proto : Z) : dims Z :=
  mk_dims sip dip sport dport proto.

(** Twelve rules on disjoint blocks of source addresses, more than a
    leaf holds. *)
Definition R12 : list range_rule :=
  map (fun i => mk_range_rule
                  (mk_dims (1000 * i, 1000 * i + 500) any32 any16 any16 any8)
                  (12 - i))
      [1; 2; 3; 4; 5; 6; 7; 8; 9; 10; 11; 12].

End Scenario.

(** ** The driver: [parse_args] and [main] *)

Module Driver.

(** One result of [getopt_long]: the option character it returns and
    [optarg].  For an option it does not know, and for one whose
    argument is missing, the character is ['?'], and [getopt_long] has
    then written a message of its own to the error stream. *)
Record getopt_result : Type := Opt {
  option_char : ascii;
  optarg : string
}.

(** The global [cfg]; [None] is the null pointer. *)
Record config : Type := mk_config {
  rule_file : option string;
  u_rule_file : option string;
  trace_file : option string;
  algrthm_id : Z
}.

(** The initializer of [cfg]. *)
Definition cfg0 : config := mk_config None None None 0.

Definition LONG_MIN : Z := - 2 ^ 63.
Definition LONG_MAX : Z := 2 ^ 63 - 1.

(** [strtol] in base 10: white space, an optional sign and decimal
    digits, 0 when there is no digit; a number beyond the range of a
    64-bit [long] is brought back to its nearest end. *)
Definition strtol (s : string) : Z :=
  let t := skip_space (list_ascii_of_string s) in
  let '(neg, t) :=
    match t with
    | c :: t' => if is_sign c then (Ascii.eqb c "-", t') else (false, t)
    | [] => (false, [])
    end in
  let n := if neg : bool then - fst (scan_digits 10 0 t)
           else fst (scan_digits 10 0 t) in
  Z.max LONG_MIN (Z.min LONG_MAX n).

(** [atoi(s)] is [(int) strtol(s, NULL, 10)]: the [int] holds the low
    32 bits of the [long]. *)
Definition atoi (s : string) : Z := int_of_u32 (u32 (strtol s)).

(** [struct rule_set]: the two arrays, of which a loader fills one,
    and the number of rules; [None] is the null pointer. *)
Record rule_set : Type := mk_rule_set {
  r_rules : option (list range_rule);
  p_rules : option (list prefix_rule);
  num : Z
}.

(** [struct trace]: the packets and their number. *)
Record trace : Type := mk_trace {
  pkts : list packet;
  trace_num : Z
}.

(** The functions the table [algrthms] points to. *)
Inductive loader_fn : Type := Load_cb_rules | Load_prfx_rules.
Inductive build_fn : Type := Hs_build | Hs_insrt_update | Tss_build.
Inductive search_fn : Type := Hs_search | Tss_search.
Inductive cleanup_fn : Type := Hs_cleanup | Tss_cleanup.

Record algrthm : Type := mk_algrthm {
  load_rules : loader_fn;
  build : build_fn;
  insrt_update : build_fn;
  search : search_fn;
  cleanup : cleanup_fn
}.

(** The initializers of [algrthms]; an entry after them, if [ALGO_NUM]
    leaves room for one, holds null pointers. *)
Definition algrthms : list algrthm :=
  [ mk_algrthm Load_cb_rules Hs_build Hs_insrt_update Hs_search Hs_cleanup;
    mk_algrthm Load_prfx_rules Tss_build Tss_build Tss_search Tss_cleanup ].

(** What the process does that can be seen from outside, in order:
    what [main], [parse_args] and the loaders print, the message
    [getopt_long] writes to the error stream when it turns an option
    down, the diagnostic a loader ends on, and the calls of the engines
    and of the unload functions.  What an engine prints is not
    recorded. *)
Inductive arg : Type := Str (s : string) | Num (n : Z).

Inductive event : Type :=
  | Printf (format : string) (args : list arg)
  | Eprintf (format : string) (args : list arg)
  | Perror (s : string)
  | Getopt_error
  | Diag (d : diagnostic)
  | Call_build (f : build_fn) (rs : rule_set)
  | Call_search (f : search_fn) (t : trace)
  | Call_cleanup (f : cleanup_fn)
  | Unload_rules (rs : rule_set)
  | Unload_trace (t : trace).

(** How the process ends: [main] returns, [exit] is called, the
    [assert] of [parse_args] fails, the searching speed is divided by
    zero, or the behaviour is undefined (a call through a null entry
    of [algrthms]).  [Out_of_fuel] is the loop of
    a loader cut short, which does not happen. *)
Inductive ending : Type :=
  | Returned (status : Z)
  | Exited (status : Z)
  | Assert_failed
  | Division_by_zero
  | Undefined_behaviour
  | Out_of_fuel.

(** What the process runs in: [access(path, F_OK) != -1],
    [fopen(path, "r")] with the contents of the file it opens, whether
    the n-th [calloc] of a loader succeeds, and what the n-th
    [gettimeofday] stores. *)
Record env : Type := mk_env {
  access : string -> bool;
  fopen_r : string -> option (list ascii);
  calloc_ok : nat -> bool;
  clock : nat -> timeval
}.

Record world : Type := mk_world {
  log : list event;
  clock_reads : nat;
  callocs : nat
}.

Definition world0 : world := mk_world [] 0 0.

Inductive step (A : Type) : Type :=
  | Next (a : A)
  | End (e : ending).

Arguments Next {A} a.
Arguments End {A} e.

(** A piece of the program: it goes on with a value or ends the
    process. *)
Definition M (A : Type) : Type := world -> step A * world.

#[global] Instance M_ret : MRet M := fun A a w => (Next a, w).

#[global] Instance M_bind : MBind M := fun A B k m w =>
  match m w with
  | (Next a, w') => k a w'
  | (End e, w') => (End e, w')
  end.

Definition stop {A} (e : ending) : M A := fun w => (End e, w).

Definition exit {A} (status : Z) : M A := stop (Exited status).

Definition emit (e : event) : M unit := fun w =>
  (Next tt, mk_world (log w ++ [e]) (clock_reads w) (callocs w)).

Definition printf (format : string) (args : list arg) : M unit :=
  emit (Printf format args).

Definition eprintf (format : string) (args : list arg) : M unit :=
  emit (Eprintf format args).

Definition perror (s : string) : M unit := emit (Perror s).

Definition help : string :=
  "Valid options:
  -h, --help         display this help and exit
  -r, --rule FILE    specify a rule file for building
  -t, --trace FILE   specify a trace file for searching
  -u, --update FILE  specify a update rule file for searching
  -a, --algorithm ID specify an algorithm, 0:HyperSplit, 1:TSS

".

Definition print_help : M unit := printf "%s" [Str help].

(** The messages of [main] and of the loaders. *)
Definition No_rules : string := "No rules for processing
".
Definition Loading_rules : string := "Loading rules from %s
".
Definition Rules_loaded : string := "%d rules loaded
".
Definition Loading_trace : string := "Loading trace from %s
".
Definition Packets_loaded : string := "%d packets loaded
".
Definition Cannot_open : string := "Cannot open file %s".
Definition No_memory_rules : string := "Cannot allocate memory for rules".
Definition No_memory_packets : string := "Cannot allocate memory for packets".
Definition Building : string := "Building
".
Definition Building_failed : string := "Building failed
".
Definition Building_pass : string := "Building pass
".
Definition Time_building : string := "Time for building: %ld(us)
".
Definition Updating : string := "Updating
".
Definition Updating_failed : string := "Updating failed
".
Definition Updating_pass : string := "Updating pass
".
Definition Time_updating : string := "Time for updating: %ld(us)
".
Definition Searching : string := "Searching
".
Definition Searching_failed : string := "Searching failed
".
Definition Searching_pass : string := "Searching pass
".
Definition Time_searching : string := "Time for searching: %ld(us)
".
Definition Searching_speed : string := "Searching speed: %lld(pps)
".

Section Main.

(** The engines, whose code is in other files: what [rt] stands for,
    with [rt_NULL] its initial value, and the value each function
    returns together with what it leaves in [rt]. *)
Variable RT : Type.
Variable rt_NULL : RT.
Variable run_build : build_fn -> rule_set -> RT -> Z * RT.
Variable run_search : search_fn -> trace -> RT -> Z.
Variable run_cleanup : cleanup_fn -> RT -> RT.

(** The macros of the missing header. *)
Variable ALGO_NUM : Z.
Variables CB_RULE_FMT PRFX_RULE_FMT PKT_FMT : list directive.

Variable E : env.

Definition gettimeofday : M timeval := fun w =>
  (Next (clock E (clock_reads w)),
   mk_world (log w) (S (clock_reads w)) (callocs w)).

Definition calloc : M bool := fun w =>
  (Next (calloc_ok E (callocs w)),
   mk_world (log w) (clock_reads w) (S (callocs w))).

(** The part of a loader around its loop: the file is opened, the
    array allocated, and after the loop the number of entries is
    printed; a diagnostic ends the process. *)
Definition load_file {A} (loading cannot_allocate loaded : string)
    (load_contents : list ascii -> option (outcome (list A)))
    (path : string) : M (list A) :=
  printf loading [Str path];;
  match fopen_r E path with
  | None => eprintf Cannot_open [Str path];; exit (-1)
  | Some contents =>
      ok ← calloc;
      if ok : bool then
        match load_contents contents with
        | None => stop Out_of_fuel
        | Some (Fatal d) => emit (Diag d);; exit (-1)
        | Some (Loaded entries) =>
            printf loaded [Num (Z.of_nat (length entries))];;
            mret entries
        end
      else perror cannot_allocate;; exit (-1)
  end.

(** [algrthms[id].load_rules(rs, rf)] *)
Definition call_load_rules (f : loader_fn) (rs : rule_set) (rf : string)
    : M rule_set :=
  match f with
  | Load_cb_rules =>
      rules ← load_file Loading_rules No_memory_rules Rules_loaded
                (load_cb_rules CB_RULE_FMT) rf;
      mret (mk_rule_set (Some rules) (p_rules rs) (Z.of_nat (length rules)))
  | Load_prfx_rules =>
      rules ← load_file Loading_rules No_memory_rules Rules_loaded
                (load_prfx_rules PRFX_RULE_FMT) rf;
      mret (mk_rule_set (r_rules rs) (Some rules) (Z.of_nat (length rules)))
  end.

Definition call_load_trace (tf : string) : M trace :=
  packets ← load_file Loading_trace No_memory_packets Packets_loaded
              (load_trace PKT_FMT) tf;
  mret (mk_trace packets (Z.of_nat (length packets))).

Definition unload_rules (rs : rule_set) : M unit := emit (Unload_rules rs).

Definition unload_trace (t : trace) : M unit := emit (Unload_trace t).

Definition call_build (f : build_fn) (rs : rule_set) (rt : RT) : M (Z * RT) :=
  emit (Call_build f rs);; mret (run_build f rs rt).

Definition call_search (f : search_fn) (t : trace) (rt : RT) : M Z :=
  emit (Call_search f t);; mret (run_search f t rt).

Definition call_cleanup (f : cleanup_fn) (rt : RT) : M RT :=
  emit (Call_cleanup f);; mret (run_cleanup f rt).

(** One turn of the loop of [parse_args]: the [switch]. *)
Definition parse_option (c : config) (o : getopt_result) : M config :=
  let option := option_char o in
  if Ascii.eqb option "h" then print_help;; exit 0
  else if Ascii.eqb option "a" then
    let id := atoi (optarg o) in
    if (0 <=? id) && (id <? ALGO_NUM)
    then mret (mk_config (rule_file c) (u_rule_file c) (trace_file c) id)
    else stop Assert_failed
  else if Ascii.eqb option "r" || Ascii.eqb option "t" || Ascii.eqb option "u"
  then
    if access E (optarg o) then
      if Ascii.eqb option "r" then
        mret (mk_config (Some (optarg o)) (u_rule_file c) (trace_file c)
                (algrthm_id c))
      else if Ascii.eqb option "t" then
        mret (mk_config (rule_file c) (u_rule_file c) (Some (optarg o))
                (algrthm_id c))
      else
        mret (mk_config (rule_file c) (Some (optarg o)) (trace_file c)
                (algrthm_id c))
    else perror (optarg o);; exit (-1)
  else print_help;; exit (-1).

(** A call of [getopt_long] that yields [o]: when the option is turned
    down, its message has gone to the error stream. *)
Definition getopt_long (o : getopt_result) : M unit :=
  if Ascii.eqb (option_char o) "?" then emit Getopt_error else mret tt.

(** The loop of [parse_args] over the results of [getopt_long], from
    the first to the [-1] that ends them. *)
Fixpoint parse_args_from (c : config) (opts : list getopt_result)
    : M config :=
  match opts with
  | [] => mret c
  | o :: opts' =>
      getopt_long o;; c' ← parse_option c o; parse_args_from c' opts'
  end.

Definition parse_args (opts : list getopt_result) : M config :=
  parse_args_from cfg0 opts.

(** [algrthms[id]], for a call through one of its pointers. *)
Definition algrthm_at (id : Z) : M algrthm :=
  if id <? 0 then stop Undefined_behaviour
  else match algrthms !! Z.to_nat id with
       | Some a => mret a
       | None => stop Undefined_behaviour
       end.

(** The updating phase of [main]. *)
Definition updating (a : algrthm) (u_rs : rule_set) (uf : string) (rt : RT)
    : M RT :=
  printf Updating [];;
  u_rs ← call_load_rules (load_rules a) u_rs uf;
  starttime ← gettimeofday;
  r ← call_build (insrt_update a) u_rs rt;
  if negb (fst r =? 0) then
    eprintf Updating_failed [];; unload_rules u_rs;; exit (-1)
  else
    stoptime ← gettimeofday;
    printf Updating_pass [];;
    printf Time_updating [Num (make_timediff starttime stoptime)];;
    unload_rules u_rs;;
    mret (snd r).

(** The searching phase of [main], to its [return]. *)
Definition searching (a : algrthm) (tf : string) (rt : RT) : M Z :=
  t ← call_load_trace tf;
  printf Searching [];;
  starttime ← gettimeofday;
  r ← call_search (search a) t rt;
  if negb (r =? 0) then
    eprintf Searching_failed [];;
    unload_trace t;;
    call_cleanup (cleanup a) rt;;
    exit (-1)
  else
    stoptime ← gettimeofday;
    printf Searching_pass [];;
    printf Time_searching [Num (make_timediff starttime stoptime)];;
    match searching_speed (trace_num t) (make_timediff starttime stoptime) with
    | None => stop Division_by_zero
    | Some speed =>
        printf Searching_speed [Num speed];;
        unload_trace t;;
        call_cleanup (cleanup a) rt;;
        mret 0
    end.

(** [main] from the test of [cfg.rule_file] on: the phases. *)
Definition phases (cfg : config) : M Z :=
  let rs := mk_rule_set None None 0 in
  let u_rs := mk_rule_set None None 0 in
  match rule_file cfg with
  | None => eprintf No_rules [];; exit (-1)
  | Some rf =>
      a ← algrthm_at (algrthm_id cfg);
      rs ← call_load_rules (load_rules a) rs rf;
      printf Building [];;
      starttime ← gettimeofday;
      r ← call_build (build a) rs rt_NULL;
      if negb (fst r =? 0) then
        eprintf Building_failed [];; unload_rules rs;; exit (-1)
      else
        stoptime ← gettimeofday;
        printf Building_pass [];;
        printf Time_building [Num (make_timediff starttime stoptime)];;
        unload_rules rs;;
        rt ← match u_rule_file cfg with
             | None => mret (snd r)
             | Some uf => updating a u_rs uf (snd r)
             end;
        match trace_file cfg with
        | None => call_cleanup (cleanup a) rt;; mret 0
        | Some tf => searching a tf rt
        end
  end.

(** [main], given [argc] and what [getopt_long] makes of [argv]. *)
Definition main (argc : Z) (opts : list getopt_result) : M Z :=
  (if argc <? 2 then print_help;; exit (-1) else mret tt);;
  cfg ← parse_args opts;
  phases cfg.

(** How a process ends whose [main] has run to its end. *)
Definition finish (r : step Z * world) : ending * world :=
  match r with
  | (Next status, w) => (Returned status, w)
  | (End e, w) => (e, w)
  end.

(** The process from its start to its end. *)
Definition run (argc : Z) (opts : list getopt_result) : ending * world :=
  finish (main argc opts world0).

End Main.

(** *** Notions to speak of a run *)


(** An option the [switch] of [parse_args] gets past: [-a] with a
    number from 0 below [ALGO_NUM], and [-r], [-t], [-u] with a path
    that [access] finds. *)
Definition accepted (ALGO_NUM : Z) (E : env) (o : getopt_result) : bool :=
  if Ascii.eqb (option_char o) "a" then
    (0 <=? atoi (optarg o)) && (atoi (optarg o) <? ALGO_NUM)
  else
    (Ascii.eqb (option_char o) "r" || Ascii.eqb (option_char o) "t"
     || Ascii.eqb (option_char o) "u")
    && access E (optarg o).

(** The argument of the last option [c] of the command line. *)
Definition last_optarg (c : ascii) (opts : list getopt_result)
    : option string :=
  optarg <$> List.find (fun o => Ascii.eqb (option_char o) c) (rev opts).

(** The configuration a command line asks for: for each option the
    argument of its last occurrence. *)
Definition config_of (opts : list getopt_result) : config :=
  mk_config (last_optarg "r" opts) (last_optarg "u" opts)
    (last_optarg "t" opts)
    (match last_optarg "a" opts with
     | Some s => atoi s
     | None => 0
     end).

(** An event that goes to the error stream. *)
Definition to_stderr (e : event) : bool :=
  match e with
  | Eprintf _ _ | Perror _ | Getopt_error | Diag _ => true
  | _ => false
  end.

(** How a run ends at an option [o] that is not accepted, when what
    precedes it is: the ending and what has been printed. *)
Definition rejection (o : getopt_result) : ending * list event :=
  if Ascii.eqb (option_char o) "h" then
    (Exited 0, [Printf "%s" [Str help]])
  else if Ascii.eqb (option_char o) "a" then (Assert_failed, [])
  else if Ascii.eqb (option_char o) "r" || Ascii.eqb (option_char o) "t"
          || Ascii.eqb (option_char o) "u" then
    (Exited (-1), [Perror (optarg o)])
  else if Ascii.eqb (option_char o) "?" then
    (Exited (-1), [Getopt_error; Printf "%s" [Str help]])
  else (Exited (-1), [Printf "%s" [Str help]]).

(** The calls of a cleanup function in a log. *)
Definition cleanups (l : list event) : list cleanup_fn :=
  flat_map (fun e => match e with Call_cleanup f => [f] | _ => [] end) l.

(** The trace buffers released in a log. *)
Definition unloaded_traces (l : list event) : list trace :=
  flat_map (fun e => match e with Unload_trace t => [t] | _ => [] end) l.

(** *** Data of the examples *)

(** Two files, [rules] and [trace]; every allocation succeeds. *)
Definition demo_env (clock : nat -> timeval) : env :=
  mk_env
    (fun path => String.eqb path "rules" || String.eqb path "trace")
    (fun path =>
       if String.eqb path "rules" then Some two_rules
       else if String.eqb path "trace" then Some one_packet
       else None)
    (fun _ => true)
    clock.

(** A clock that advances by a microsecond at each reading, and one
    that stands still. *)
Definition ticking (n : nat) : timeval := mk_timeval 0 (Z.of_nat n).
Definition standing (n : nat) : timeval := mk_timeval 0 0.

(** Engines that succeed. *)
Definition ok_build (f : build_fn) (rs : rule_set) (rt : unit) : Z * unit :=
  (0, tt).
Definition ok_search (f : search_fn) (t : trace) (rt : unit) : Z := 0.
Definition ok_cleanup (f : cleanup_fn) (rt : unit) : unit := tt.

(** A run of the demo: two algorithms, the formats of the
    specification. *)
Definition demo_run (clock : nat -> timeval) (opts : list getopt_result)
    : ending * world :=
  run unit tt ok_build ok_search ok_cleanup 2
    spec_cb_fmt spec_prfx_fmt spec_pkt_fmt (demo_env clock)
    (1 + 2 * Z.of_nat (length opts)) opts.

End Driver.

(** ** Further notions on the loaders *)

(** The address a dotted quad stands for, each of its numbers taken
    modulo 256. *)
Definition quad (a b c d : Z) : Z :=
  (a mod 256) * 2 ^ 24 + (b mod 256) * 2 ^ 16 + (c mod 256) * 2 ^ 8
  + d mod 256.


(** The loader meets a line it cannot convert in full: some lines have
    been loaded, the array has room, the stream is not at its end, and
    [fscanf] returns another value than the number of items. *)
Definition stops_short {A} (P : loader A) (format : list directive)
    (contents : list ascii) : Prop :=
  exists n rs fp' k vals fp'',
    read_entries P format n (fopen contents) = Some (rs, fp')
    /\ Z.of_nat n < cap P
    /\ feof fp' = false
    /\ fscanf fp' format = (k, vals, fp'')
    /\ k <> nconv P.

(** What a loader does with a file that holds [n] lines it loads and
    white space at most after them.  If the end of the file has not
    been seen when the last line is loaded, [fscanf] is called once
    more and the loader ends on its format diagnostic; so it does on a
    file of white space alone.  With a format that ends in an item
    followed by white space, the call that reads the last line runs
    into the end of the file, and the file is loaded. *)
Definition after_the_last_line {A} (P : loader A) (format : list directive)
    : Prop :=
  forall contents n rs fp',
    read_entries P format n (fopen contents) = Some (rs, fp') ->
    Z.of_nat n <= cap P ->
    Forall (fun c => isspace c = true) (unread fp') ->
    (feof fp' = false -> Z.of_nat n < cap P ->
     load P format contents = Some (Fatal (illegal P)))
    /\ (n = O -> load P format contents = Some (Fatal (illegal P)))
    /\ (forall pre base,
          format = pre ++ [D_conv base; D_space] ->
          Z.of_nat (convs format) = nconv P ->
          (1 <= n)%nat ->
          feof fp' = true /\ load P format contents = Some (Loaded rs)).

(** The lines of a file as a loader reads them: the loop of the loader
    with a body that keeps the items of each line as [fscanf] assigned
    them. *)
Definition lines_loader {A L} (P : loader A) (line_of : list Z -> option L)
    : loader L :=
  mk_loader (cap P) (nconv P) (too_many P) (illegal P)
    (fun vals =>
       match line_of vals with
       | Some f => Loaded f
       | None => Fatal (illegal P)
       end).

Definition cb_lines (format : list directive) (rf : list ascii)
    : option (outcome (list cb_line)) :=
  load (lines_loader cb_loader cb_line_of) format rf.

Definition prfx_lines (format : list directive) (rf : list ascii)
    : option (outcome (list Prfx.prfx_line)) :=
  load (lines_loader prfx_loader prfx_line_of) format rf.

Definition pkt_lines (format : list directive) (tf : list ascii)
    : option (outcome (list pkt_line)) :=
  load (lines_loader trace_loader pkt_line_of) format tf.

(** ** Data of the further examples *)




Definition junk_rules : list ascii :=
  file "@10.1.2.3/16 0.0.0.0/0 0 : 65535 80 : 80 0x06/0xFF 1
@10.1.2.3/16 0.0.0.0/0 any : any 80 : 80 0x06/0xFF 2
".

Definition two_packets : list ascii :=
  file "167838211 3232235777 70000 443 262 1
1 2 3 4 6 2
".

(** Prefix rules with an address length beyond 32 and port lengths
    within 16. *)
Definition long_ip_rules : list ascii :=
  file "@10.1.2.3/40 192.168.0.1/0 0/0 80/16 0x06/0xFF 1
@10.1.2.3/8 1.2.3.4/32 1024/6 443/16 0x11/0x00 2
".

(** ** Properties of formatted input *)

Section ScanFacts.

Lemma skip_space_length s : (length (skip_space s) <= length s)%nat.
Proof.
  induction s as [|c t IH]; simpl; [lia|].
  destruct (isspace c); simpl; lia.
Qed.

Lemma skip_space_blank s : Forall (fun c => isspace c = true) s -> skip_space s = [].
Proof.
  induction 1 as [|c t Hc _ IH]; simpl; [done|]. by rewrite Hc.
Qed.

Lemma scan_digits_length base s :
  forall acc v rest,
    scan_digits base acc s = (v, rest) -> (length rest <= length s)%nat.
Proof.
  induction s as [|c t IH]; simpl; intros acc v rest H.
  - inversion H; subst; simpl; lia.
  - destruct (digit_val base c).
    + apply IH in H. lia.
    + inversion H; subst; simpl; lia.
Qed.

Lemma skip_hex_prefix_length base s :
  (length (skip_hex_prefix base s) <= length s)%nat.
Proof.
  destruct s as [|c0 [|c1 t]]; simpl; try lia.
  destruct (_ && _); simpl; lia.
Qed.

Lemma hex_prefixed_length base s :
  hex_prefixed base s = true ->
  (length (skip_hex_prefix base s) < length s)%nat.
Proof.
  destruct s as [|c0 [|c1 t]]; simpl; try done.
  intros ->. simpl. lia.
Qed.

Lemma scan_magnitude_length base neg s v rest :
  scan_magnitude base neg s = Conv_ok v rest ->
  (length rest < length s)%nat /\ is_u32 v.
Proof.
  unfold scan_magnitude. destruct s as [|c t]; [done|].
  destruct (digit_val base c) as [d|] eqn:Hd; [|done].
  simpl. rewrite Hd.
  destruct (scan_digits base (0 * base + d) t) as [v' rest'] eqn:Hs.
  intros H; inversion H; subst.
  apply scan_digits_length in Hs. split; [simpl; lia|].
  unfold item_value, is_u32, u32, wrap. apply Z.mod_pos_bound. lia.
Qed.

Lemma scan_magnitude_mismatch base neg s rest :
  scan_magnitude base neg s = Conv_mismatch rest -> rest = s.
Proof.
  unfold scan_magnitude. destruct s as [|c t]; [congruence|].
  destruct (digit_val base c); [|congruence].
  destruct (scan_digits base 0 (c :: t)); discriminate.
Qed.

Lemma scan_number_length base s v rest :
  scan_number base s = Conv_ok v rest ->
  (length rest < length s)%nat /\ is_u32 v.
Proof.
  unfold scan_number. destruct s as [|c t]; [done|]. cbv zeta.
  set (s1 := if is_sign c then t else c :: t).
  assert (length s1 <= length (c :: t))%nat as Hs1.
  { unfold s1. destruct (is_sign c); simpl; lia. }
  pose proof (skip_hex_prefix_length base s1) as Hp.
  destruct (scan_magnitude base _ (skip_hex_prefix base s1))
    as [v' rest'|rest'|] eqn:Hm; [| |done].
  - intros [= <- <-]. apply scan_magnitude_length in Hm.
    destruct Hm as [Hm Hv]. split; [lia|done].
  - destruct (hex_prefixed base s1) eqn:Hx; [|done].
    intros [= <- <-]. apply scan_magnitude_mismatch in Hm. subst rest'.
    apply hex_prefixed_length in Hx. split; [lia|]. unfold is_u32. lia.
Qed.

Lemma scan_number_mismatch base s rest :
  scan_number base s = Conv_mismatch rest ->
  (length rest <= length s)%nat.
Proof.
  unfold scan_number. destruct s as [|c t]; [done|]. cbv zeta.
  set (s1 := if is_sign c then t else c :: t).
  assert (length s1 <= length (c :: t))%nat as Hs1.
  { unfold s1. destruct (is_sign c); simpl; lia. }
  pose proof (skip_hex_prefix_length base s1) as Hp.
  destruct (scan_magnitude base _ (skip_hex_prefix base s1))
    as [v' rest'|rest'|] eqn:Hm; [done| |done].
  destruct (hex_prefixed base s1); [done|].
  intros [= <-]. apply scan_magnitude_mismatch in Hm. subst rest'. lia.
Qed.

(** What a call of [fscanf] leaves behind: the items it assigned are
    32-bit values, their number is the value returned unless that is
    [EOF], and every item assigned has consumed input. *)
Lemma scan_facts format :
  forall s hit vals r vals' fp',
    scan format s hit vals = (r, vals', fp') ->
    Forall is_u32 vals ->
    (length (unread fp') <= length s)%nat
    /\ (length vals <= length vals')%nat
    /\ ((length vals < length vals')%nat ->
        (length (unread fp') < length s)%nat)
    /\ (r = Z.of_nat (length vals') \/ r = -1)
    /\ Forall is_u32 vals'.
Proof.
  induction format as [|d format IH]; simpl; intros s hit vals r vals' fp' H Hv.
  - inversion H; subst; simpl. repeat split; auto; lia.
  - destruct d as [|c|base].
    + apply IH in H; [|done]. pose proof (skip_space_length s).
      destruct H as (H1 & H2 & H3 & H4 & H5). repeat split; auto; lia.
    + destruct s as [|c' t].
      * inversion H; subst; simpl. repeat split; auto; try lia.
        destruct vals'; simpl; auto.
      * destruct (Ascii.eqb c c').
        -- apply IH in H; [|done].
           destruct H as (H1 & H2 & H3 & H4 & H5).
           repeat split; auto; simpl; lia.
        -- inversion H; subst; simpl. repeat split; auto; lia.
    + pose proof (skip_space_length s) as Hsk.
      destruct (scan_number base (skip_space s)) as [v rest|rest|] eqn:Hn.
      * apply scan_number_length in Hn. destruct Hn as [Hn Hu].
        apply IH in H; [|apply Forall_app; split; [done|by constructor]].
        rewrite length_app in H. simpl in H.
        destruct H as (H1 & H2 & H3 & H4 & H5).
        repeat split; auto; lia.
      * inversion H; subst; simpl.
        apply scan_number_mismatch in Hn.
        repeat split; auto; lia.
      * inversion H; subst; simpl. repeat split; auto; try lia.
        destruct vals'; simpl; auto.
Qed.

(** On input that holds white space only (or nothing) no item is
    assigned, whatever the format. *)
Lemma scan_blank format :
  forall s hit r vals fp',
    Forall (fun c => isspace c = true) s ->
    scan format s hit [] = (r, vals, fp') -> r <= 0.
Proof.
  induction format as [|d format IH]; simpl; intros s hit r vals fp' Hs H.
  - inversion H; subst; simpl; lia.
  - destruct d as [|c|base].
    + rewrite (skip_space_blank s Hs) in H. eapply IH; [|exact H]. constructor.
    + destruct s as [|c' t].
      * inversion H; subst; simpl; lia.
      * destruct (Ascii.eqb c c').
        -- eapply IH; [|exact H]. by inversion Hs.
        -- inversion H; subst; simpl; lia.
    + rewrite (skip_space_blank s Hs) in H. simpl in H.
      inversion H; subst; simpl; lia.
Qed.

Lemma skip_space_head s c t : skip_space s = c :: t -> isspace c = false.
Proof.
  induction s as [|c' t' IH]; simpl; [done|].
  destruct (isspace c') eqn:Hc; [done|]. intros H. by inversion H; subst.
Qed.

Lemma scan_convs format :
  forall s hit vals r vals' fp',
    scan format s hit vals = (r, vals', fp') ->
    (length vals' <= length vals + convs format)%nat.
Proof.
  induction format as [|d format IH]; simpl; intros s hit vals r vals' fp' H.
  - inversion H; subst. lia.
  - destruct d as [|c|base].
    + by apply IH in H.
    + destruct s as [|c' t]; [inversion H; subst; lia|].
      destruct (Ascii.eqb c c'); [by apply IH in H|inversion H; subst; lia].
    + destruct (scan_number base (skip_space s)) as [v rest|rest|].
      * apply IH in H. rewrite length_app in H. simpl in H. lia.
      * inversion H; subst. lia.
      * inversion H; subst. lia.
Qed.

Lemma convs_last pre base :
  (1 <= convs (pre ++ [D_conv base; D_space]))%nat.
Proof.
  induction pre as [|d pre IH]; simpl; [lia|]. destruct d; lia.
Qed.

(** A format that ends in an item followed by white space: when every
    item has been assigned, the call has either run into the end of the
    file or stopped in front of a character that is not white space. *)
Lemma scan_to_the_end pre base :
  forall s hit vals r vals' fp',
    scan (pre ++ [D_conv base; D_space]) s hit vals = (r, vals', fp') ->
    length vals' = (length vals + convs (pre ++ [D_conv base; D_space]))%nat ->
    (unread fp' = [] /\ eof_ind fp' = true)
    \/ exists c t, unread fp' = c :: t /\ isspace c = false.
Proof.
  induction pre as [|d pre IH]; simpl; intros s hit vals r vals' fp' H Hlen.
  - destruct (scan_number base (skip_space s)) as [v rest|rest|];
      try (inversion H; subst; lia).
    inversion H; subst. simpl.
    destruct (skip_space rest) as [|c t] eqn:Hsk.
    + left. split; [done|]. by rewrite orb_true_r.
    + right. exists c, t. split; [done|]. by apply skip_space_head in Hsk.
  - pose proof (convs_last pre base) as Hpos.
    destruct d as [|c|b].
    + by apply IH in H.
    + destruct s as [|c' t]; [inversion H; subst; lia|].
      destruct (Ascii.eqb c c'); [by apply IH in H|inversion H; subst; lia].
    + destruct (scan_number b (skip_space s)) as [v rest|rest|];
        try (inversion H; subst; lia).
      apply IH in H; [done|]. rewrite length_app. simpl. lia.
Qed.

End ScanFacts.

(** ** Properties of the loading loop *)

Section LoopFacts.

Context {A : Type}.
Variable P : loader A.
Variable format : list directive.
Hypothesis nconv_pos : 0 < nconv P.

Lemma fscanf_full fp r vals fp' :
  fscanf fp format = (r, vals, fp') ->
  (r =? nconv P) = true ->
  (length (unread fp') < length (unread fp))%nat
  /\ Forall is_u32 vals
  /\ Z.of_nat (length vals) = nconv P.
Proof.
  unfold fscanf. intros H Hr. apply Z.eqb_eq in Hr.
  apply scan_facts in H; [|constructor]. simpl in H.
  destruct H as (_ & _ & H3 & H4 & H5).
  assert (r = Z.of_nat (length vals)) as Hlen by lia.
  repeat split; auto; [|lia]. apply H3. lia.
Qed.

(** The loop ends: fuel beyond the number of unread characters is
    never used up. *)
Lemma load_loop_total fuel :
  forall fp i acc,
    (length (unread fp) < fuel)%nat -> is_Some (load_loop P format fuel fp i acc).
Proof.
  induction fuel as [|fuel IH]; intros fp i acc Hlen; [lia|]. simpl.
  destruct (feof fp); [by eexists|].
  destruct (cap P <=? i); [by eexists|].
  destruct (fscanf fp format) as [[r vals] fp'] eqn:Hs.
  destruct (r =? nconv P) eqn:Hr; simpl; [|by eexists].
  destruct (body P vals) as [a|d]; [|by eexists].
  apply IH. apply (fscanf_full _ _ _ _ Hs) in Hr. lia.
Qed.

Lemma load_loop_fuel_mono fuel :
  forall fuel' fp i acc o,
    load_loop P format fuel fp i acc = Some o ->
    (fuel <= fuel')%nat ->
    load_loop P format fuel' fp i acc = Some o.
Proof.
  induction fuel as [|fuel IH]; intros fuel' fp i acc o H Hle; [done|].
  destruct fuel' as [|fuel']; [lia|]. simpl in *.
  destruct (feof fp); [done|].
  destruct (cap P <=? i); [done|].
  destruct (fscanf fp format) as [[r vals] fp'].
  destruct (negb (r =? nconv P)); [done|].
  destruct (body P vals) as [a|d]; [|done].
  apply IH; [done|lia].
Qed.

Lemma read_entries_consumes n :
  forall fp rs fp',
    read_entries P format n fp = Some (rs, fp') ->
    (n + length (unread fp') <= length (unread fp))%nat /\ length rs = n.
Proof.
  induction n as [|n IH]; simpl; intros fp rs fp' H.
  - inversion H; subst. simpl; lia.
  - destruct (feof fp); [done|].
    destruct (fscanf fp format) as [[r vals] fp1] eqn:Hs.
    destruct (r =? nconv P) eqn:Hr; simpl in H; [|done].
    destruct (body P vals) as [a|d]; [|done].
    destruct (read_entries P format n fp1) as [[l fp2]|] eqn:Hrd; [|done].
    inversion H; subst. apply IH in Hrd.
    apply (fscanf_full _ _ _ _ Hs) in Hr. simpl. lia.
Qed.

(** Every entry read is the body applied to a full line of 32-bit
    items. *)
Lemma read_entries_body n :
  forall fp rs fp',
    read_entries P format n fp = Some (rs, fp') ->
    Forall (fun a => exists vals,
                Forall is_u32 vals /\ Z.of_nat (length vals) = nconv P
                /\ body P vals = Loaded a) rs.
Proof.
  induction n as [|n IH]; simpl; intros fp rs fp' H.
  - inversion H; subst. constructor.
  - destruct (feof fp); [done|].
    destruct (fscanf fp format) as [[r vals] fp1] eqn:Hs.
    destruct (r =? nconv P) eqn:Hr; simpl in H; [|done].
    destruct (body P vals) as [a|d] eqn:Hb; [|done].
    destruct (read_entries P format n fp1) as [[l fp2]|] eqn:Hrd; [|done].
    inversion H; subst. apply IH in Hrd.
    apply (fscanf_full _ _ _ _ Hs) in Hr. constructor; [|done].
    exists vals. tauto.
Qed.

(** The loop follows [read_entries] as long as the array has room. *)
Lemma load_loop_read n :
  forall fuel fp i acc rs fp',
    read_entries P format n fp = Some (rs, fp') ->
    i + Z.of_nat n <= cap P ->
    load_loop P format (n + fuel) fp i acc
    = load_loop P format fuel fp' (i + Z.of_nat n) (acc ++ rs).
Proof.
  induction n as [|n IH]; intros fuel fp i acc rs fp' H Hcap.
  - simpl in H. inversion H; subst. simpl.
    by rewrite Z.add_0_r, app_nil_r.
  - simpl in H. change (S n + fuel)%nat with (S (n + fuel)). simpl.
    destruct (feof fp); [done|].
    destruct (Z.leb_spec (cap P) i); [lia|].
    destruct (fscanf fp format) as [[r vals] fp1].
    destruct (negb (r =? nconv P)); [done|].
    destruct (body P vals) as [a|d]; [|done].
    destruct (read_entries P format n fp1) as [[l fp2]|] eqn:Hrd; [|done].
    inversion H; subst.
    rewrite (IH fuel fp1 (i + 1) (acc ++ [a]) l fp' Hrd) by lia.
    f_equal; [lia|]. by rewrite <- app_assoc.
Qed.

(** Conversely every run of the loop is a run of [read_entries]
    followed by the iteration that leaves the loop. *)
Lemma load_loop_decompose fuel :
  forall fp i acc o,
    load_loop P format fuel fp i acc = Some o ->
    i <= cap P ->
    exists n rs fp',
      read_entries P format n fp = Some (rs, fp')
      /\ i + Z.of_nat n <= cap P
      /\ load_loop P format 1 fp' (i + Z.of_nat n) (acc ++ rs) = Some o.
Proof.
  induction fuel as [|fuel IH]; intros fp i acc o H Hi; [done|].
  assert (load_loop P format 1 fp i acc = Some o ->
          exists n rs fp',
            read_entries P format n fp = Some (rs, fp')
            /\ i + Z.of_nat n <= cap P
            /\ load_loop P format 1 fp' (i + Z.of_nat n) (acc ++ rs) = Some o)
    as Hlast.
  { intros Hl. exists O, [], fp. change (Z.of_nat 0) with 0.
    rewrite Z.add_0_r, app_nil_r. simpl read_entries. auto. }
  simpl in H.
  destruct (feof fp) eqn:Hf.
  { apply Hlast. simpl. by rewrite Hf. }
  destruct (cap P <=? i) eqn:Hc.
  { apply Hlast. simpl. by rewrite Hf, Hc. }
  destruct (fscanf fp format) as [[r vals] fp1] eqn:Hs.
  destruct (negb (r =? nconv P)) eqn:Hr.
  { apply Hlast. simpl. by rewrite Hf, Hc, Hs, Hr. }
  destruct (body P vals) as [a|d] eqn:Hb.
  - apply Z.leb_gt in Hc.
    apply IH in H; [|lia]. destruct H as (n & rs & fp' & Hrd & Hle & Hfin).
    exists (S n), (a :: rs), fp'. simpl read_entries.
    rewrite Hf, Hs, Hr, Hb, Hrd.
    split; [done|]. split; [lia|].
    replace (i + Z.of_nat (S n)) with (i + 1 + Z.of_nat n) by lia.
    by rewrite <- app_assoc in Hfin.
  - apply Hlast. simpl. by rewrite Hf, Hc, Hs, Hr, Hb.
Qed.

(** The stream after at least one entry is the stream a full call of
    [fscanf] has left. *)
Lemma read_entries_last n :
  forall fp rs fp',
    read_entries P format (S n) fp = Some (rs, fp') ->
    exists fp0 vals,
      fscanf fp0 format = (nconv P, vals, fp')
      /\ Z.of_nat (length vals) = nconv P.
Proof.
  induction n as [|n IH]; intros fp rs fp' H.
  - simpl in H. destruct (feof fp); [done|].
    destruct (fscanf fp format) as [[r vals] fp1] eqn:Hs.
    destruct (r =? nconv P) eqn:Hr; simpl in H; [|done].
    destruct (body P vals) as [a|d]; [|done].
    inversion H; subst.
    pose proof (fscanf_full _ _ _ _ Hs Hr) as (_ & _ & Hlen).
    apply Z.eqb_eq in Hr. subst r. by exists fp, vals.
  - change (read_entries P format (S (S n)) fp) with
      (if feof fp then None
       else let '(k, vals, fp1) := fscanf fp format in
            if negb (k =? nconv P) then None
            else match body P vals with
                 | Fatal _ => None
                 | Loaded a =>
                     match read_entries P format (S n) fp1 with
                     | Some (l, fp2) => Some (a :: l, fp2)
                     | None => None
                     end
                 end) in H.
    destruct (feof fp); [done|].
    destruct (fscanf fp format) as [[r vals] fp1].
    destruct (negb (r =? nconv P)); [done|].
    destruct (body P vals) as [a|d]; [|done].
    destruct (read_entries P format (S n) fp1) as [[l fp2]|] eqn:Hrd; [|done].
    inversion H; subst. by apply IH in Hrd.
Qed.

(** The whole file: enough fuel is given. *)
Lemma load_total contents : is_Some (load P format contents).
Proof. apply load_loop_total. simpl. lia. Qed.

Lemma load_read contents n rs fp' o :
  read_entries P format n (fopen contents) = Some (rs, fp') ->
  Z.of_nat n <= cap P ->
  load_loop P format 1 fp' (Z.of_nat n) rs = Some o ->
  load P format contents = Some o.
Proof.
  intros Hrd Hcap Hlast.
  pose proof (load_loop_read n 1 (fopen contents) 0 [] rs fp' Hrd) as Hstep.
  rewrite Z.add_0_l in Hstep. change ([] ++ rs) with rs in Hstep.
  rewrite Hlast in Hstep.
  apply load_loop_fuel_mono with (fuel := (n + 1)%nat); [apply Hstep; lia|].
  apply read_entries_consumes in Hrd. simpl in Hrd. lia.
Qed.

Lemma load_decompose contents o :
  load P format contents = Some o ->
  0 <= cap P ->
  exists n rs fp',
    read_entries P format n (fopen contents) = Some (rs, fp')
    /\ Z.of_nat n <= cap P
    /\ load_loop P format 1 fp' (Z.of_nat n) rs = Some o.
Proof.
  intros H Hcap. apply load_loop_decompose in H; [|done].
  destruct H as (n & rs & fp' & H1 & H2 & H3).
  rewrite Z.add_0_l in H2, H3. change ([] ++ rs) with rs in H3.
  exists n, rs, fp'. auto.
Qed.

End LoopFacts.

(** ** Arithmetic of the address and port fields *)

Section BitFacts.

Lemma wrap_range w x : 0 <= w -> 0 <= wrap w x < 2 ^ w.
Proof. intros Hw. unfold wrap. apply Z.mod_pos_bound. lia. Qed.

Lemma wrap_small w x : 0 <= x < 2 ^ w -> wrap w x = x.
Proof. intros H. unfold wrap. by apply Z.mod_small. Qed.

Lemma land_255_range x : 0 <= Z.land x 255 < 256.
Proof.
  change 255 with (Z.ones 8). rewrite Z.land_ones by lia.
  apply Z.mod_pos_bound. lia.
Qed.

Lemma land_65535_range x : 0 <= Z.land x 65535 < 65536.
Proof.
  change 65535 with (Z.ones 16). rewrite Z.land_ones by lia.
  apply Z.mod_pos_bound. lia.
Qed.

Lemma lor_u32 a b : is_u32 a -> is_u32 b -> is_u32 (Z.lor a b).
Proof.
  unfold is_u32. intros Ha Hb.
  assert (Z.lor a b = Z.lor a b mod 2 ^ 32) as ->.
  { rewrite <- Z.land_ones by lia. rewrite Z.land_lor_distr_l.
    rewrite !Z.land_ones by lia. rewrite !Z.mod_small; auto. }
  apply Z.mod_pos_bound. lia.
Qed.

Lemma ip_of_bytes_u32 a b c d : is_u32 (ip_of_bytes a b c d).
Proof.
  unfold ip_of_bytes. repeat apply lor_u32; try (apply wrap_range; lia).
  pose proof (land_255_range d). unfold is_u32. lia.
Qed.

Lemma clamp_mask_min m : clamp_mask m = Z.min m 32.
Proof. unfold clamp_mask. destruct (Z.gtb_spec m 32); lia. Qed.

(** The mask of a prefix of [m] bits has its [32 - m] low bits clear. *)
Lemma ip_netmask_eq m : 0 <= m <= 32 -> ip_netmask m = 2 ^ 32 - 2 ^ (32 - m).
Proof.
  intros Hm. unfold ip_netmask, bnot, u32, u64, wrap.
  rewrite (Z.mod_small (32 - m)) by lia.
  rewrite Z.shiftl_1_l, Z.lnot_eq_pred_opp.
  assert (1 <= 2 ^ (32 - m) <= 2 ^ 32) as Hp.
  { split; [apply (Z.pow_le_mono_r 2 0 (32 - m)); lia
           |apply Z.pow_le_mono_r; lia]. }
  revert Hp. generalize (2 ^ (32 - m)). intros p Hp.
  change (2 ^ 32) with 4294967296 in *.
  change (2 ^ 64) with 18446744073709551616.
  Z.div_mod_to_equations. lia.
Qed.

Lemma bnot_netmask m :
  0 <= m <= 32 -> bnot 32 (ip_netmask m) = 2 ^ (32 - m) - 1.
Proof.
  intros Hm. rewrite ip_netmask_eq by done. unfold bnot, wrap.
  rewrite Z.lnot_eq_pred_opp.
  assert (1 <= 2 ^ (32 - m) <= 2 ^ 32) as Hp.
  { split; [apply (Z.pow_le_mono_r 2 0 (32 - m)); lia
           |apply Z.pow_le_mono_r; lia]. }
  revert Hp. generalize (2 ^ (32 - m)). intros p Hp.
  change (2 ^ 32) with 4294967296 in *.
  Z.div_mod_to_equations. lia.
Qed.

Lemma land_netmask ip m :
  is_u32 ip -> 0 <= m <= 32 ->
  Z.land ip (ip_netmask m) = Z.land ip (Z.lnot (2 ^ (32 - m) - 1)).
Proof.
  intros Hip Hm. rewrite ip_netmask_eq by done.
  assert (2 ^ 32 - 2 ^ (32 - m)
          = Z.land (Z.lnot (2 ^ (32 - m) - 1)) (Z.ones 32)) as ->.
  { rewrite Z.land_ones by lia. rewrite Z.lnot_eq_pred_opp.
    assert (1 <= 2 ^ (32 - m) <= 2 ^ 32) as Hp.
    { split; [apply (Z.pow_le_mono_r 2 0 (32 - m)); lia
             |apply Z.pow_le_mono_r; lia]. }
    revert Hp. generalize (2 ^ (32 - m)). intros p Hp.
    change (2 ^ 32) with 4294967296 in *.
    Z.div_mod_to_equations. lia. }
  rewrite (Z.land_comm (Z.lnot _)), Z.land_assoc.
  rewrite (Z.land_ones ip) by lia. by rewrite Z.mod_small.
Qed.

(** In arithmetic: the low end clears the host bits of the address,
    the high end sets them. *)
Lemma land_lnot_ones ip k :
  0 <= k -> Z.land ip (Z.lnot (2 ^ k - 1)) = ip - ip mod 2 ^ k.
Proof.
  intros Hk. rewrite <- Z.sub_land_same_l.
  replace (2 ^ k - 1) with (Z.ones k) by (rewrite Z.ones_equiv; lia).
  by rewrite Z.land_ones.
Qed.

Lemma lor_ones ip k :
  0 <= k -> Z.lor ip (2 ^ k - 1) = ip - ip mod 2 ^ k + (2 ^ k - 1).
Proof.
  intros Hk. pose proof (Z.add_lor_land ip (2 ^ k - 1)) as H.
  replace (2 ^ k - 1) with (Z.ones k) in * by (rewrite Z.ones_equiv; lia).
  rewrite Z.land_ones in H by done. lia.
Qed.

Lemma ip_range_eq ip m :
  is_u32 ip -> 0 <= m ->
  ip_range ip m
  = (Z.land ip (Z.lnot (Z.shiftl 1 (32 - Z.min m 32) - 1)),
     Z.lor ip (Z.shiftl 1 (32 - Z.min m 32) - 1)).
Proof.
  intros Hip Hm. unfold ip_range. rewrite clamp_mask_min.
  rewrite land_netmask, bnot_netmask, Z.shiftl_1_l by (done || lia). done.
Qed.

Lemma ip_range_ordered ip m :
  is_u32 ip -> 0 <= m ->
  0 <= fst (ip_range ip m) <= snd (ip_range ip m)
  /\ snd (ip_range ip m) < 2 ^ 32.
Proof.
  intros Hip Hm. rewrite ip_range_eq by done. simpl.
  rewrite Z.shiftl_1_l.
  assert (0 <= 32 - Z.min m 32 <= 32) as Hk by lia.
  revert Hk. generalize (32 - Z.min m 32). intros k Hk.
  rewrite land_lnot_ones, lor_ones by lia.
  assert (0 < 2 ^ k) by (apply Z.pow_pos_nonneg; lia).
  pose proof (Z.mod_pos_bound ip (2 ^ k)).
  assert (ip mod 2 ^ k <= ip) by (apply Z.mod_le; unfold is_u32 in Hip; lia).
  assert (ip - ip mod 2 ^ k + (2 ^ k - 1) < 2 ^ 32); [|lia].
  (* the block of 2^k addresses that holds ip lies below 2^32 *)
  assert (2 ^ 32 = 2 ^ k * 2 ^ (32 - k)) as Hsplit.
  { rewrite <- Z.pow_add_r by lia. f_equal. lia. }
  assert (ip - ip mod 2 ^ k = 2 ^ k * (ip / 2 ^ k)) as Hq.
  { pose proof (Z.div_mod ip (2 ^ k)). lia. }
  assert (ip / 2 ^ k < 2 ^ (32 - k)).
  { apply Z.div_lt_upper_bound; [lia|]. unfold is_u32 in Hip. lia. }
  rewrite Hq, Hsplit. nia.
Qed.

Lemma port_range_ordered b e :
  0 <= fst (port_range b e) <= snd (port_range b e)
  /\ snd (port_range b e) < 2 ^ 16.
Proof.
  unfold port_range.
  pose proof (wrap_range 16 (Z.land b 65535)).
  pose proof (wrap_range 16 (Z.land e 65535)).
  unfold u16.
  destruct (Z.gtb_spec (wrap 16 (Z.land b 65535)) (wrap 16 (Z.land e 65535)));
    simpl; lia.
Qed.

Lemma port_range_eq b e :
  port_range b e = (Z.min (b mod 2 ^ 16) (e mod 2 ^ 16),
                    Z.max (b mod 2 ^ 16) (e mod 2 ^ 16)).
Proof.
  unfold port_range, u16.
  change 65535 with (Z.ones 16). rewrite !Z.land_ones by lia.
  rewrite !wrap_small by (apply Z.mod_pos_bound; lia).
  destruct (Z.gtb_spec (b mod 2 ^ 16) (e mod 2 ^ 16)); f_equal; lia.
Qed.



End BitFacts.

(** ** From the loop to its body *)

Section LoaderFacts.

Context {A : Type}.
Variable P : loader A.
Variable format : list directive.
Hypothesis nconv_pos : 0 < nconv P.
Hypothesis cap_nonneg : 0 <= cap P.

Lemma last_iteration_loaded fp i acc rs :
  load_loop P format 1 fp i acc = Some (Loaded rs) ->
  feof fp = true /\ rs = acc.
Proof.
  simpl. destruct (feof fp); [intros H; by inversion H|].
  destruct (cap P <=? i); [done|].
  destruct (fscanf fp format) as [[r vals] fp1].
  destruct (negb (r =? nconv P)); [done|].
  by destruct (body P vals).
Qed.

(** A file is loaded when the loop has read its entries one after the
    other and then found the stream at its end. *)
Lemma load_loaded contents rs :
  load P format contents = Some (Loaded rs) ->
  exists fp',
    read_entries P format (length rs) (fopen contents) = Some (rs, fp')
    /\ feof fp' = true
    /\ Z.of_nat (length rs) <= cap P.
Proof.
  intros H. apply load_decompose in H; try done.
  destruct H as (n & rs' & fp' & Hrd & Hcap & Hlast).
  apply last_iteration_loaded in Hlast. destruct Hlast as [Hf ->].
  pose proof (read_entries_consumes P format nconv_pos n _ _ _ Hrd) as [_ Hlen].
  rewrite Hlen. eauto.
Qed.

Lemma load_loaded_body contents rs :
  load P format contents = Some (Loaded rs) ->
  Forall (fun a => exists vals,
              Forall is_u32 vals /\ Z.of_nat (length vals) = nconv P
              /\ body P vals = Loaded a) rs.
Proof.
  intros H. apply load_loaded in H. destruct H as (fp' & Hrd & _).
  by apply (read_entries_body P format nconv_pos) in Hrd.
Qed.


End LoaderFacts.

Lemma cb_line_of_ok vals f :
  cb_line_of vals = Some f -> Forall is_u32 vals -> cb_line_ok f.
Proof.
  unfold cb_line_of. intros H Hv.
  do 18 (destruct vals as [|? vals]; try discriminate).
  inversion H; subst. exact Hv.
Qed.

Lemma prfx_line_of_ok vals f :
  prfx_line_of vals = Some f -> Forall is_u32 vals -> prfx_line_ok f.
Proof.
  unfold prfx_line_of. intros H Hv.
  do 18 (destruct vals as [|? vals]; try discriminate).
  inversion H; subst. exact Hv.
Qed.

Lemma pkt_line_of_ok vals f :
  pkt_line_of vals = Some f -> Forall is_u32 vals -> pkt_line_ok f.
Proof.
  unfold pkt_line_of. intros H Hv.
  do 7 (destruct vals as [|? vals]; try discriminate).
  inversion H; subst. exact Hv.
Qed.

(** Every rule [load_cb_rules] returns is the body of its loop run on a
    line of seventeen 32-bit items. *)
Lemma load_cb_rules_lines format rf rs :
  load_cb_rules format rf = Some (Loaded rs) ->
  Forall (fun r => exists f, cb_line_ok f /\ cb_rule f = Loaded r) rs.
Proof.
  intros H. apply load_loaded_body in H; [|done|done].
  eapply Forall_impl; [exact H|]. simpl.
  intros r (vals & Hv & _ & Hb).
  destruct (cb_line_of vals) as [f|] eqn:Hf; [|done].
  exists f. split; [by eapply cb_line_of_ok|done].
Qed.

Lemma load_prfx_rules_lines format rf rs :
  load_prfx_rules format rf = Some (Loaded rs) ->
  Forall (fun r => exists f, prfx_line_ok f /\ prfx_rule f = Loaded r) rs.
Proof.
  intros H. apply load_loaded_body in H; [|done|done].
  eapply Forall_impl; [exact H|]. simpl.
  intros r (vals & Hv & _ & Hb).
  destruct (prfx_line_of vals) as [f|] eqn:Hf; [|done].
  exists f. split; [by eapply prfx_line_of_ok|done].
Qed.

Lemma load_trace_lines format tf pkts :
  load_trace format tf = Some (Loaded pkts) ->
  Forall (fun p => exists f, pkt_line_ok f /\ p = trace_packet f) pkts.
Proof.
  intros H. apply load_loaded_body in H; [|done|done].
  eapply Forall_impl; [exact H|]. simpl.
  intros r (vals & Hv & _ & Hb).
  destruct (pkt_line_of vals) as [f|] eqn:Hf; [|done].
  exists f. split; [by eapply pkt_line_of_ok|congruence].
Qed.

(** What the body of [load_cb_rules] stores, when it stores a rule. *)
Lemma cb_rule_loaded f r :
  cb_rule f = Loaded r ->
  dget (r_dim r) DIM_SIP
  = ip_range (ip_of_bytes (src_ip_0 f) (src_ip_1 f) (src_ip_2 f) (src_ip_3 f))
             (src_ip_mask f)
  /\ dget (r_dim r) DIM_DIP
     = ip_range (ip_of_bytes (dst_ip_0 f) (dst_ip_1 f) (dst_ip_2 f) (dst_ip_3 f))
                (dst_ip_mask f)
  /\ dget (r_dim r) DIM_SPORT = port_range (src_port_begin f) (src_port_end f)
  /\ dget (r_dim r) DIM_DPORT = port_range (dst_port_begin f) (dst_port_end f)
  /\ (proto_mask f = 255
      /\ dget (r_dim r) DIM_PROTO = (proto f mod 2 ^ 8, proto f mod 2 ^ 8)
      \/ proto_mask f = 0 /\ dget (r_dim r) DIM_PROTO = (0, 255))
  /\ r_pri r = pri_of_id (rule_id f).
Proof.
  unfold cb_rule.
  destruct (Z.eqb_spec (proto_mask f) 255) as [Hm|Hm].
  - intros H; inversion H; subst; simpl. repeat split; auto. left. split; [done|].
    unfold u8. change 255 with (Z.ones 8). rewrite Z.land_ones by lia.
    rewrite wrap_small by (apply Z.mod_pos_bound; lia). done.
  - destruct (Z.eqb_spec (proto_mask f) 0) as [Hz|Hz]; [|done].
    intros H; inversion H; subst; simpl. repeat split; auto.
Qed.

Lemma cb_line_ok_fields f :
  cb_line_ok f ->
  0 <= src_ip_mask f /\ 0 <= dst_ip_mask f /\ is_u32 (rule_id f).
Proof.
  unfold cb_line_ok. intros H.
  repeat (apply Forall_cons in H; destruct H as [? H]).
  unfold is_u32 in *. repeat split; lia.
Qed.

(** ** The lines a loader reads *)

Section LinesFacts.

Context {A L : Type}.
Variable P : loader A.
Variable line_of : list Z -> option L.
Variable rule : L -> outcome A.
Variable format : list directive.
Hypothesis nconv_pos : 0 < nconv P.
Hypothesis cap_nonneg : 0 <= cap P.
Hypothesis body_rule :
  forall vals,
    body P vals = match line_of vals with
                  | Some f => rule f
                  | None => Fatal (illegal P)
                  end.

Lemma read_entries_lines n :
  forall fp rs fp',
    read_entries P format n fp = Some (rs, fp') ->
    exists lines,
      read_entries (lines_loader P line_of) format n fp = Some (lines, fp')
      /\ Forall2 (fun f r =>
                    rule f = Loaded r
                    /\ exists vals, Forall is_u32 vals /\ line_of vals = Some f)
           lines rs.
Proof.
  induction n as [|n IH]; simpl; intros fp rs fp' H.
  - inversion H; subst. exists []. split; [done|constructor].
  - destruct (feof fp); [done|].
    destruct (fscanf fp format) as [[r vals] fp1] eqn:Hs.
    destruct (r =? nconv P) eqn:Hr; simpl in *; [|done].
    rewrite body_rule in H.
    destruct (line_of vals) as [f|] eqn:Hf; [|done].
    destruct (rule f) as [a|d] eqn:Hb; [|done].
    destruct (read_entries P format n fp1) as [[l fp2]|] eqn:Hrd; [|done].
    inversion H; subst. destruct (IH _ _ _ Hrd) as (lines & Hl & H2).
    exists (f :: lines). rewrite Hl. split; [done|].
    constructor; [|done]. split; [done|]. exists vals. split; [|done].
    by apply (fscanf_full P format nconv_pos _ _ _ _ Hs) in Hr as (_ & Hv & _).
Qed.

Lemma read_lines_entries n :
  (forall f, exists a, rule f = Loaded a) ->
  forall fp lines fp',
    read_entries (lines_loader P line_of) format n fp = Some (lines, fp') ->
    exists rs,
      read_entries P format n fp = Some (rs, fp')
      /\ Forall2 (fun f r => rule f = Loaded r) lines rs.
Proof.
  intros Htotal.
  induction n as [|n IH]; simpl; intros fp lines fp' H.
  - inversion H; subst. exists []. split; [done|constructor].
  - destruct (feof fp); [done|].
    destruct (fscanf fp format) as [[r vals] fp1] eqn:Hs.
    destruct (r =? nconv P) eqn:Hr; simpl in *; [|done].
    rewrite body_rule.
    destruct (line_of vals) as [f|] eqn:Hf; [|done].
    destruct (read_entries (lines_loader P line_of) format n fp1)
      as [[l fp2]|] eqn:Hrd; [|done].
    inversion H; subst. destruct (IH _ _ _ Hrd) as (rs & Hl & H2).
    destruct (Htotal f) as [a Ha]. rewrite Ha, Hl.
    exists (a :: rs). split; [done|]. by constructor.
Qed.

(** The entries loaded are the bodies of the lines read, in order. *)
Lemma load_lines contents rs :
  load P format contents = Some (Loaded rs) ->
  exists lines,
    load (lines_loader P line_of) format contents = Some (Loaded lines)
    /\ Forall2 (fun f r =>
                  rule f = Loaded r
                  /\ exists vals, Forall is_u32 vals /\ line_of vals = Some f)
         lines rs.
Proof.
  intros H. apply load_loaded in H; try done.
  destruct H as (fp' & Hrd & Hf & Hcap).
  destruct (read_entries_lines _ _ _ _ Hrd) as (lines & Hl & H2).
  exists lines. split; [|done].
  apply (load_read (lines_loader P line_of) format nconv_pos contents
           (length rs) lines fp'); [done|done|].
  simpl. by rewrite Hf.
Qed.

(** When the body turns no line down, the lines read are all loaded. *)
Lemma lines_load contents lines :
  (forall f, exists a, rule f = Loaded a) ->
  load (lines_loader P line_of) format contents = Some (Loaded lines) ->
  exists rs,
    load P format contents = Some (Loaded rs)
    /\ Forall2 (fun f r => rule f = Loaded r) lines rs.
Proof.
  intros Htotal H.
  apply (load_loaded (lines_loader P line_of) format nconv_pos cap_nonneg) in H.
  destruct H as (fp' & Hrd & Hf & Hcap).
  destruct (read_lines_entries _ Htotal _ _ _ Hrd) as (rs & Hl & H2).
  exists rs. split; [|done].
  apply (load_read P format nconv_pos contents (length lines) rs fp');
    [done|done|].
  simpl. by rewrite Hf.
Qed.

End LinesFacts.

Lemma load_cb_rules_read format rf rs :
  load_cb_rules format rf = Some (Loaded rs) ->
  exists lines,
    cb_lines format rf = Some (Loaded lines)
    /\ Forall2 (fun f r => cb_line_ok f /\ cb_rule f = Loaded r) lines rs.
Proof.
  intros H.
  apply (load_lines cb_loader cb_line_of cb_rule) in H; try done.
  destruct H as (lines & Hl & H2). exists lines. split; [done|].
  eapply Forall2_impl; [exact H2|]. cbv beta.
  intros f r (Hr & vals & Hv & Hf). split; [|done]. by eapply cb_line_of_ok.
Qed.

Lemma load_prfx_rules_read format rf rs :
  load_prfx_rules format rf = Some (Loaded rs) ->
  exists lines,
    prfx_lines format rf = Some (Loaded lines)
    /\ Forall2 (fun f r => prfx_line_ok f /\ prfx_rule f = Loaded r) lines rs.
Proof.
  intros H.
  apply (load_lines prfx_loader prfx_line_of prfx_rule) in H; try done.
  destruct H as (lines & Hl & H2). exists lines. split; [done|].
  eapply Forall2_impl; [exact H2|]. cbv beta.
  intros f r (Hr & vals & Hv & Hf). split; [|done]. by eapply prfx_line_of_ok.
Qed.

Lemma load_trace_read format tf pkts :
  load_trace format tf = Some (Loaded pkts) ->
  exists lines,
    pkt_lines format tf = Some (Loaded lines)
    /\ Forall2 (fun f p => pkt_line_ok f /\ p = trace_packet f) lines pkts.
Proof.
  intros H.
  apply (load_lines trace_loader pkt_line_of (fun f => Loaded (trace_packet f)))
    in H; try done.
  destruct H as (lines & Hl & H2). exists lines. split; [done|].
  eapply Forall2_impl; [exact H2|]. cbv beta.
  intros f p (Hr & vals & Hv & Hf). split; [by eapply pkt_line_of_ok|].
  by inversion Hr.
Qed.

(** ** Claims on the rule loaders *)



(** C3. After [load_cb_rules] returns, every rule it loaded has
    [low <= high] in each of the five dimensions, with both ends within
    the width of the dimension.  Line by line of the file, the port
    range stored is the smaller and the larger of the two 16-bit bounds
    of the line, so that bounds given out of order are swapped, and the
    protocol range is [p, p] for the mask 0xFF and [0, 255] for the
    mask 0. *)
Theorem load_cb_rules_ranges format rf rs :
  load_cb_rules format rf = Some (Loaded rs) ->
  Forall (fun r =>
    forall d, 0 <= r_low r d <= r_high r d /\ r_high r d < 2 ^ W d) rs
  /\ exists lines,
      cb_lines format rf = Some (Loaded lines)
      /\ Forall2 (fun f r =>
           dget (r_dim r) DIM_SPORT
           = (Z.min (src_port_begin f mod 2 ^ 16) (src_port_end f mod 2 ^ 16),
              Z.max (src_port_begin f mod 2 ^ 16) (src_port_end f mod 2 ^ 16))
           /\ dget (r_dim r) DIM_DPORT
              = (Z.min (dst_port_begin f mod 2 ^ 16)
                       (dst_port_end f mod 2 ^ 16),
                 Z.max (dst_port_begin f mod 2 ^ 16)
                       (dst_port_end f mod 2 ^ 16))
           /\ (proto_mask f = 255
               /\ dget (r_dim r) DIM_PROTO
                  = (proto f mod 2 ^ 8, proto f mod 2 ^ 8)
               \/ proto_mask f = 0 /\ dget (r_dim r) DIM_PROTO = (0, 255)))
         lines rs.
Proof.
  intros H. split.
  - apply load_cb_rules_lines in H.
    eapply Forall_impl; [exact H|]. cbv beta. clear H.
    intros r (f & Hok & Hr).
    pose proof (cb_line_ok_fields f Hok) as (Hsm & Hdm & _).
    pose proof (cb_rule_loaded f r Hr) as (Hs & Hd & Hsp & Hdp & Hp & _).
    intros d. unfold r_low, r_high. destruct d.
    + rewrite Hs. apply ip_range_ordered; [apply ip_of_bytes_u32|done].
    + rewrite Hd. apply ip_range_ordered; [apply ip_of_bytes_u32|done].
    + rewrite Hsp. apply port_range_ordered.
    + rewrite Hdp. apply port_range_ordered.
    + destruct Hp as [[_ ->]|[_ ->]]; simpl.
      * pose proof (Z.mod_pos_bound (proto f) (2 ^ 8)). lia.
      * lia.
  - apply load_cb_rules_read in H. destruct H as (lines & Hl & H2).
    exists lines. split; [done|].
    eapply Forall2_impl; [exact H2|]. cbv beta.
    intros f r (Hok & Hr).
    pose proof (cb_rule_loaded f r Hr) as (_ & _ & Hsp & Hdp & Hp & _).
    by rewrite Hsp, Hdp, !port_range_eq.
Qed.

Lemma load_cb_rules_ranges_witness :
  dget (r_dim rule_10_second) DIM_SPORT = (5, 1024)
  /\ Forall (fun r =>
       forall d, 0 <= r_low r d <= r_high r d /\ r_high r d < 2 ^ W d)
     [rule_10_1_first; rule_10_second]
  /\ exists lines,
      cb_lines spec_cb_fmt two_rules = Some (Loaded lines)
      /\ Forall2 (fun f r =>
           dget (r_dim r) DIM_SPORT
           = (Z.min (src_port_begin f mod 2 ^ 16) (src_port_end f mod 2 ^ 16),
              Z.max (src_port_begin f mod 2 ^ 16) (src_port_end f mod 2 ^ 16))
           /\ dget (r_dim r) DIM_DPORT
              = (Z.min (dst_port_begin f mod 2 ^ 16)
                       (dst_port_end f mod 2 ^ 16),
                 Z.max (dst_port_begin f mod 2 ^ 16)
                       (dst_port_end f mod 2 ^ 16))
           /\ (proto_mask f = 255
               /\ dget (r_dim r) DIM_PROTO
                  = (proto f mod 2 ^ 8, proto f mod 2 ^ 8)
               \/ proto_mask f = 0 /\ dget (r_dim r) DIM_PROTO = (0, 255)))
         lines [rule_10_1_first; rule_10_second].
Proof.
  split; [reflexivity|].
  apply (load_cb_rules_ranges spec_cb_fmt two_rules). vm_compute. reflexivity.
Defined.





(** C9. After [load_prfx_rules] returns, line by line of the file, the
    prefix length stored for an address is the mask length of the line
    clamped to 32, that of a port is the mask length of the line as
    read, and that of the protocol is 8 for the mask 0xFF and 0 for the
    mask 0.  So when the port mask lengths read from the file lie
    within 0..16, every length of every rule loaded is between 0 and
    the width of its dimension. *)
Theorem load_prfx_rules_lengths format rf rs :
  load_prfx_rules format rf = Some (Loaded rs) ->
  exists lines,
    prfx_lines format rf = Some (Loaded lines)
    /\ Forall2 (fun f r =>
         dget (p_len r) DIM_SIP = Z.min (Prfx.src_ip_mask f) 32
         /\ dget (p_len r) DIM_DIP = Z.min (Prfx.dst_ip_mask f) 32
         /\ dget (p_len r) DIM_SPORT = Prfx.src_port_mask f
         /\ dget (p_len r) DIM_DPORT = Prfx.dst_port_mask f
         /\ (Prfx.proto_mask f = 255 /\ dget (p_len r) DIM_PROTO = 8
             \/ Prfx.proto_mask f = 0 /\ dget (p_len r) DIM_PROTO = 0))
       lines rs
    /\ (Forall (fun f => Prfx.src_port_mask f <= 16
                         /\ Prfx.dst_port_mask f <= 16) lines ->
        Forall (fun r => forall d, 0 <= dget (p_len r) d <= W d) rs).
Proof.
  intros H. apply load_prfx_rules_read in H. destruct H as (lines & Hl & H2).
  exists lines. split; [done|].
  assert (Forall2 (fun f r =>
            (0 <= Prfx.src_ip_mask f /\ 0 <= Prfx.dst_ip_mask f
             /\ 0 <= Prfx.src_port_mask f /\ 0 <= Prfx.dst_port_mask f)
            /\ dget (p_len r) DIM_SIP = Z.min (Prfx.src_ip_mask f) 32
            /\ dget (p_len r) DIM_DIP = Z.min (Prfx.dst_ip_mask f) 32
            /\ dget (p_len r) DIM_SPORT = Prfx.src_port_mask f
            /\ dget (p_len r) DIM_DPORT = Prfx.dst_port_mask f
            /\ (Prfx.proto_mask f = 255 /\ dget (p_len r) DIM_PROTO = 8
                \/ Prfx.proto_mask f = 0 /\ dget (p_len r) DIM_PROTO = 0))
          lines rs) as H3.
  { eapply Forall2_impl; [exact H2|]. cbv beta. intros f r (Hok & Hr). split.
    - unfold prfx_line_ok in Hok.
      repeat (apply Forall_cons in Hok; destruct Hok as [? Hok]).
      unfold is_u32 in *. repeat split; lia.
    - revert Hr. unfold prfx_rule.
      destruct (Z.eqb_spec (Prfx.proto_mask f) 255) as [Hm|Hm];
        [|destruct (Z.eqb_spec (Prfx.proto_mask f) 0) as [Hz|Hz]; [|done]];
        intros Hr; inversion Hr; subst; simpl; rewrite !clamp_mask_min;
        auto 10. }
  split.
  - eapply Forall2_impl; [exact H3|]. cbv beta. by intros f r [_ H].
  - clear H2 Hl. induction H3 as [|f r lines rs Hfr _ IH]; intros Hports.
    + constructor.
    + apply Forall_cons in Hports. destruct Hports as [[Hsp Hdp] Hports].
      constructor; [|by apply IH].
      destruct Hfr as ((H1 & H2 & H3 & H4) & Hs & Hd & Hps & Hpd & Hp).
      intros d. destruct d; simpl W; rewrite ?Hs, ?Hd, ?Hps, ?Hpd;
        first [lia | destruct Hp as [[_ ->]|[_ ->]]; lia].
Qed.

Lemma load_prfx_rules_lengths_witness :
  exists rs,
    load_prfx_rules spec_prfx_fmt long_ip_rules = Some (Loaded rs)
    /\ p_len <$> rs = [mk_dims 32 0 0 16 8; mk_dims 8 32 6 16 0]
    /\ Forall (fun r => forall d, 0 <= dget (p_len r) d <= W d) rs.
Proof.
  eexists. split; [vm_compute; reflexivity|]. split; [reflexivity|].
  destruct (load_prfx_rules_lengths spec_prfx_fmt long_ip_rules _
              ltac:(vm_compute; reflexivity)) as (lines & Hl & _ & Hw).
  apply Hw. vm_compute in Hl. injection Hl as <-.
  repeat constructor; vm_compute; congruence.
Defined.

(** The port lengths are not checked by the loader: a mask length of
    20 in the file is stored as it is. *)
Lemma load_prfx_rules_port_len_unchecked :
  load_prfx_rules spec_prfx_fmt long_port_rules = Some (Loaded [rule_len_20])
  /\ dget (p_len rule_len_20) DIM_SPORT = 20.
Proof. split; [vm_compute; reflexivity|]. reflexivity. Qed.

(** ** Capacity and the end of the file *)

Section CapacityFacts.

Context {A : Type}.
Variable P : loader A.
Variable format : list directive.
Hypothesis nconv_pos : 0 < nconv P.
Hypothesis cap_nonneg : 0 <= cap P.
Hypothesis illegal_other : illegal P <> too_many P.
Hypothesis body_other : forall vals, body P vals <> Fatal (too_many P).

Lemma last_iteration_too_many fp i acc :
  load_loop P format 1 fp i acc = Some (Fatal (too_many P)) ->
  feof fp = false /\ cap P <= i.
Proof.
  simpl. destruct (feof fp); [done|].
  destruct (Z.leb_spec (cap P) i); [done|].
  destruct (fscanf fp format) as [[r vals] fp1].
  destruct (negb (r =? nconv P)); [congruence|].
  pose proof (body_other vals). destruct (body P vals); [done|congruence].
Qed.

Lemma load_capacity contents :
  0 < cap P -> capacity_checked P format contents.
Proof.
  intros cap_pos.
  assert (load P format contents = Some (Fatal (too_many P)) ->
          exists rs fp',
            read_entries P format (Z.to_nat (cap P)) (fopen contents)
            = Some (rs, fp') /\ feof fp' = false) as Hmany.
  { intros H. apply load_decompose in H; try done.
    destruct H as (n & rs & fp' & Hrd & Hle & Hlast).
    apply last_iteration_too_many in Hlast. destruct Hlast as [Hf Hge].
    exists rs, fp'. split; [|done].
    replace (Z.to_nat (cap P)) with n by lia. done. }
  split; [|split; [|split]].
  - intros rs H. apply load_loaded in H; try done.
    by destruct H as (fp' & _ & _ & H).
  - split; [exact Hmany|].
    intros (rs & fp' & Hrd & Hf).
    apply (load_read P format nconv_pos contents (Z.to_nat (cap P)) rs fp');
      [done|lia|].
    simpl. rewrite Hf.
    destruct (Z.leb_spec (cap P) (Z.of_nat (Z.to_nat (cap P)))); [done|lia].
  - intros n rs fp' Hrd Hle Hf.
    apply (load_read P format nconv_pos contents n rs fp'); [done|done|].
    simpl. by rewrite Hf.
  - intros pre base Hfmt Hconvs H. apply Hmany in H.
    destruct H as (rs & fp' & Hrd & Hf). exists rs, fp'.
    destruct (Z.to_nat (cap P)) as [|k] eqn:Hk; [lia|].
    pose proof (read_entries_last P format nconv_pos k _ _ _ Hrd)
      as (fp0 & vals & Hs & Hlen).
    unfold fscanf in Hs. rewrite Hfmt in Hs.
    apply scan_to_the_end in Hs;
      [|rewrite <- Hfmt; simpl; lia].
    destruct Hs as [[_ Heof]|(c & t & Hu & Hc)].
    + unfold feof in Hf. congruence.
    + by exists c, t.
Qed.

(** An iteration that finds only white space left, the end of the file
    not yet seen, stops the loader on the format diagnostic. *)
Lemma load_blank_fatal contents n rs fp' :
  read_entries P format n (fopen contents) = Some (rs, fp') ->
  Z.of_nat n < cap P ->
  feof fp' = false ->
  Forall (fun c => isspace c = true) (unread fp') ->
  load P format contents = Some (Fatal (illegal P)).
Proof.
  intros Hrd Hcap Hf Hblank.
  apply (load_read P format nconv_pos contents n rs fp'); [done|lia|].
  simpl. rewrite Hf. destruct (Z.leb_spec (cap P) (Z.of_nat n)); [lia|].
  destruct (fscanf fp' format) as [[r vals] fp1] eqn:Hs.
  unfold fscanf in Hs. apply scan_blank in Hs; [|done].
  destruct (Z.eqb_spec r (nconv P)); [lia|done].
Qed.

Lemma load_after_the_last_line :
  0 < cap P -> after_the_last_line P format.
Proof.
  intros cap_pos contents n rs fp' Hrd Hcap Hblank.
  split; [|split].
  - intros Hf Hn. by apply (load_blank_fatal contents n rs fp').
  - intros ->. simpl in Hrd. injection Hrd as <- <-.
    apply (load_blank_fatal contents O [] (fopen contents)); try done.
  - intros pre base Hfmt Hconvs Hn.
    destruct n as [|k]; [lia|].
    pose proof (read_entries_last P format nconv_pos k _ _ _ Hrd)
      as (fp0 & vals & Hs & Hlen).
    unfold fscanf in Hs. rewrite Hfmt in Hs.
    apply scan_to_the_end in Hs; [|rewrite <- Hfmt; simpl; lia].
    destruct Hs as [[_ Heof]|(c & t & Hu & Hc)].
    + split; [done|].
      apply (load_read P format nconv_pos contents (S k) rs fp');
        [done|done|].
      simpl. unfold feof. by rewrite Heof.
    + rewrite Hu in Hblank. apply Forall_cons in Hblank.
      destruct Hblank as [Hc' _]. congruence.
Qed.

End CapacityFacts.

Lemma cb_loader_capacity format contents :
  capacity_checked cb_loader format contents.
Proof.
  apply load_capacity; try done.
  intros vals. simpl. destruct (cb_line_of vals) as [f|]; [|done].
  unfold cb_rule. destruct (proto_mask f =? 255); [done|].
  by destruct (proto_mask f =? 0).
Qed.

Lemma prfx_loader_capacity format contents :
  capacity_checked prfx_loader format contents.
Proof.
  apply load_capacity; try done.
  intros vals. simpl. destruct (prfx_line_of vals) as [f|]; [|done].
  unfold prfx_rule. destruct (Prfx.proto_mask f =? 255); [done|].
  by destruct (Prfx.proto_mask f =? 0).
Qed.

Lemma trace_loader_capacity format contents :
  capacity_checked trace_loader format contents.
Proof.
  apply load_capacity; try done.
  intros vals. simpl. by destruct (pkt_line_of vals).
Qed.

(** C6. A loader never returns more than [RULE_MAX] rules, or
    [PKT_MAX] packets; it ends the process on the capacity diagnostic
    exactly when that many entries have been loaded and the end of the
    file has not been seen; and a file holding at most that many
    entries and then ending is loaded. *)
Theorem capacity_is_checked (CB_RULE_FMT PRFX_RULE_FMT PKT_FMT : list directive)
    (contents : list ascii) :
  (cap cb_loader = 1048576 /\ too_many cb_loader = Too_many_rules
   /\ capacity_checked cb_loader CB_RULE_FMT contents)
  /\ (cap prfx_loader = 1048576 /\ too_many prfx_loader = Too_many_rules
      /\ capacity_checked prfx_loader PRFX_RULE_FMT contents)
  /\ (cap trace_loader = 1048576 /\ too_many trace_loader = Too_many_packets
      /\ capacity_checked trace_loader PKT_FMT contents).
Proof.
  split; [|split]; (split; [reflexivity|split; [reflexivity|]]).
  - apply cb_loader_capacity.
  - apply prfx_loader_capacity.
  - apply trace_loader_capacity.
Qed.

Lemma capacity_is_checked_witness :
  load_cb_rules spec_cb_fmt two_rules
  = Some (Loaded [rule_10_1_first; rule_10_second])
  /\ Z.of_nat (length [rule_10_1_first; rule_10_second]) <= 1048576.
Proof.
  pose proof (capacity_is_checked spec_cb_fmt spec_prfx_fmt spec_pkt_fmt two_rules)
    as ((Hcap & _ & Hle & _ & Hload & _) & _).
  assert (load_cb_rules spec_cb_fmt two_rules
          = Some (Loaded [rule_10_1_first; rule_10_second])) as Hl.
  { apply (Hload 2%nat _ (mk_FILE [] true)).
    - vm_compute. reflexivity.
    - rewrite Hcap. vm_compute. congruence.
    - reflexivity. }
  split; [exact Hl|]. rewrite <- Hcap. exact (Hle _ Hl).
Defined.

Lemma read_entries_step {A} (P : loader A) format n fp vals fp1 a :
  feof fp = false ->
  fscanf fp format = (nconv P, vals, fp1) ->
  body P vals = Loaded a ->
  read_entries P format (S n) fp
  = match read_entries P format n fp1 with
    | Some (l, fp2) => Some (a :: l, fp2)
    | None => None
    end.
Proof.
  intros Hf Hs Hb. simpl. by rewrite Hf, Hs, Z.eqb_refl, Hb.
Qed.

(** A trace of [k] lines, and what follows them. *)
Lemma scan_pkt_text_more rest :
  fscanf (mk_FILE (pkt_text ++ "0"%char :: rest) false) spec_pkt_fmt
  = (6, [0; 0; 0; 0; 0; 1], mk_FILE ("0"%char :: rest) false).
Proof. reflexivity. Qed.

Lemma scan_pkt_text_last :
  fscanf (mk_FILE (pkt_text ++ []) false) spec_pkt_fmt
  = (6, [0; 0; 0; 0; 0; 1], mk_FILE [] true).
Proof. reflexivity. Qed.

Lemma trace_of_head k tail :
  (tail = [] \/ exists t, tail = "0"%char :: t) ->
  (k = O /\ tail = [] /\ trace_of k tail = [])
  \/ exists t, trace_of k tail = "0"%char :: t.
Proof.
  intros Htail. destruct k as [|k].
  - destruct Htail as [->|[t ->]]; [by left|right; by exists t].
  - right. unfold trace_of. simpl. eexists. reflexivity.
Qed.

Lemma read_trace_of k :
  forall tail,
    (tail = [] \/ exists t, tail = "0"%char :: t) ->
    read_entries trace_loader spec_pkt_fmt k (mk_FILE (trace_of k tail) false)
    = Some (repeat pkt_zero k,
            mk_FILE tail (match k with O => false | S _ => is_nil tail end)).
Proof.
  induction k as [|k IH]; intros tail Htail; [reflexivity|].
  change (trace_of (S k) tail) with (pkt_text ++ trace_of k tail).
  destruct (trace_of_head k tail Htail) as [(-> & -> & Hnil)|[t Ht]].
  - rewrite Hnil. reflexivity.
  - specialize (IH tail Htail). rewrite Ht in *.
    rewrite (read_entries_step trace_loader spec_pkt_fmt k
               (mk_FILE (pkt_text ++ "0"%char :: t) false) [0; 0; 0; 0; 0; 1]
               (mk_FILE ("0"%char :: t) false) pkt_zero
               eq_refl (scan_pkt_text_more t) eq_refl).
    rewrite IH. destruct k; [|reflexivity].
    simpl in Ht. subst tail. reflexivity.
Qed.

(** A trace of exactly [PKT_MAX] lines is loaded; one more line and it
    is turned down for capacity. *)
Lemma full_trace_loaded :
  load_trace spec_pkt_fmt (trace_of (Z.to_nat PKT_MAX) [])
  = Some (Loaded (repeat pkt_zero (Z.to_nat PKT_MAX))).
Proof.
  pose proof (trace_loader_capacity spec_pkt_fmt
                (trace_of (Z.to_nat PKT_MAX) [])) as (_ & _ & Hok & _).
  apply (Hok (Z.to_nat PKT_MAX) _ (mk_FILE [] true)).
  - unfold fopen. rewrite (read_trace_of (Z.to_nat PKT_MAX) []) by (by left).
    assert (Z.to_nat PKT_MAX <> O) as Hne by (unfold PKT_MAX; lia).
    destruct (Z.to_nat PKT_MAX); [done|reflexivity].
  - change (cap trace_loader) with PKT_MAX. unfold PKT_MAX. lia.
  - reflexivity.
Qed.

Lemma overfull_trace_fatal :
  load_trace spec_pkt_fmt (trace_of (Z.to_nat PKT_MAX) pkt_text)
  = Some (Fatal Too_many_packets).
Proof.
  pose proof (trace_loader_capacity spec_pkt_fmt
                (trace_of (Z.to_nat PKT_MAX) pkt_text)) as (_ & Hiff & _ & _).
  apply Hiff. exists (repeat pkt_zero (Z.to_nat PKT_MAX)), (mk_FILE pkt_text false).
  split; [|reflexivity].
  change (cap trace_loader) with PKT_MAX. unfold fopen.
  rewrite (read_trace_of (Z.to_nat PKT_MAX) pkt_text) by (right; by eexists).
  destruct (Z.to_nat PKT_MAX) eqn:E; reflexivity.
Qed.

(** C10. What happens after the last line depends on the format.  When
    the lines of a file have been loaded and white space at most is
    left, the loader calls [fscanf] once more, and ends on its format
    diagnostic, only if the end of the file has not been seen by then;
    so it does on an empty file and on a file of white space alone.
    With a format that ends in an item followed by white space the
    call that reads the last line reads the white space after it too
    and runs into the end of the file: a file of well-formed lines
    that ends in a newline is loaded. *)
Theorem extra_fscanf_and_format (CB_RULE_FMT PRFX_RULE_FMT PKT_FMT : list directive) :
  (illegal cb_loader = Illegal_rule_format
   /\ after_the_last_line cb_loader CB_RULE_FMT)
  /\ (illegal prfx_loader = Illegal_rule_format
      /\ after_the_last_line prfx_loader PRFX_RULE_FMT)
  /\ (illegal trace_loader = Illegal_packet_format
      /\ after_the_last_line trace_loader PKT_FMT).
Proof.
  split; [|split]; (split; [reflexivity|]);
    by apply load_after_the_last_line.
Qed.

Lemma extra_fscanf_and_format_witness :
  load_cb_rules spec_cb_fmt two_rules
  = Some (Loaded [rule_10_1_first; rule_10_second])
  /\ load_trace bare_pkt_fmt one_packet = Some (Fatal Illegal_packet_format)
  /\ load_prfx_rules spec_prfx_fmt [] = Some (Fatal Illegal_rule_format).
Proof.
  pose proof (extra_fscanf_and_format spec_cb_fmt spec_prfx_fmt bare_pkt_fmt)
    as ((_ & Hcb) & (_ & Hprfx) & (_ & Hpkt)).
  split; [|split].
  - refine (proj2 (proj2 (proj2 (Hcb two_rules 2%nat
              [rule_10_1_first; rule_10_second] (mk_FILE [] true) _ _ _))
              (removelast (removelast spec_cb_fmt)) 10 _ _ _)).
    + vm_compute. reflexivity.
    + vm_compute. congruence.
    + constructor.
    + reflexivity.
    + reflexivity.
    + lia.
  - refine (proj1 (Hpkt one_packet 1%nat [mk_packet (mk_dims 1 2 3 4 6) 0]
              (mk_FILE [ "010"%char ] false) _ _ _) _ _).
    + vm_compute. reflexivity.
    + vm_compute. congruence.
    + repeat constructor.
    + reflexivity.
    + reflexivity.
  - refine (proj1 (proj2 (Hprfx [] O [] (fopen []) _ _ _)) _).
    + reflexivity.
    + vm_compute. congruence.
    + constructor.
    + reflexivity.
Defined.

(** C10 as stated fails with the formats of the specification, which
    end in a newline: files of well-formed lines that end in a newline
    are loaded, no format diagnostic is given. *)
Lemma final_newline_is_loaded :
  (last two_rules = Some "010"%char
   /\ load_cb_rules spec_cb_fmt two_rules
      = Some (Loaded [rule_10_1_first; rule_10_second]))
  /\ (last long_ip_rules = Some "010"%char
      /\ exists rs, load_prfx_rules spec_prfx_fmt long_ip_rules
                    = Some (Loaded rs) /\ length rs = 2%nat)
  /\ (last one_packet = Some "010"%char
      /\ load_trace spec_pkt_fmt one_packet
         = Some (Loaded [mk_packet (mk_dims 1 2 3 4 6) 0])).
Proof.
  repeat split; try (vm_compute; reflexivity).
  eexists. split; vm_compute; reflexivity.
Qed.

(** An empty file is turned down by every loader whatever the format,
    and the newline that ends the last line is harmless exactly when
    the format ends in white space. *)
Lemma empty_file_fatal format :
  load_cb_rules format [] = Some (Fatal Illegal_rule_format)
  /\ load_prfx_rules format [] = Some (Fatal Illegal_rule_format)
  /\ load_trace format [] = Some (Fatal Illegal_packet_format).
Proof.
  split; [|split].
  - apply (load_blank_fatal cb_loader format)
      with (n := O) (rs := []) (fp' := fopen []); try done; constructor.
  - apply (load_blank_fatal prfx_loader format)
      with (n := O) (rs := []) (fp' := fopen []); try done; constructor.
  - apply (load_blank_fatal trace_loader format)
      with (n := O) (rs := []) (fp' := fopen []); try done; constructor.
Qed.

(** ** The driver's arithmetic *)

Lemma u64_mod x : u64 x = x mod 2 ^ 64.
Proof. reflexivity. Qed.

Lemma make_timediff_mod start stop :
  make_timediff start stop = (usec_of stop - usec_of start) mod 2 ^ 64.
Proof.
  unfold make_timediff, usec_of. rewrite !u64_mod.
  rewrite !Zmult_mod_idemp_r.
  rewrite <- !Zplus_mod.
  rewrite <- Zminus_mod. done.
Qed.

(** For a positive interval [make_timediff] returns the interval, and
    the division of the searching speed is that of the integers. *)
Lemma speed_of_interval (num : Z) (start stop : timeval) :
  0 <= num <= PKT_MAX ->
  let elapsed :=
    (1000000 * tv_sec stop + tv_usec stop)
    - (1000000 * tv_sec start + tv_usec start) in
  0 < elapsed < 2 ^ 64 ->
  make_timediff start stop = elapsed
  /\ searching_speed num (make_timediff start stop)
     = Some (num * 1000000 / elapsed).
Proof.
  intros Hnum elapsed He.
  assert (make_timediff start stop = elapsed) as Hd.
  { rewrite make_timediff_mod. unfold usec_of. fold elapsed.
    by apply Z.mod_small; lia. }
  split; [done|]. rewrite Hd. unfold searching_speed.
  destruct (Z.eqb_spec elapsed 0); [lia|].
  unfold PKT_MAX in Hnum. rewrite !u64_mod.
  change (2 ^ 64) with 18446744073709551616.
  rewrite (Z.mod_small num) by lia. rewrite Z.mod_small by lia. done.
Qed.

(** Two readings of the clock in the same microsecond: the division is
    by zero and no speed is printed. *)
Lemma searching_speed_zero_interval num t :
  searching_speed num (make_timediff t t) = None.
Proof.
  rewrite make_timediff_mod, Z.sub_diag. reflexivity.
Qed.

(** The number of packets of a loaded trace is within the bound the
    formula asks for. *)
Lemma load_trace_num format tf pkts :
  load_trace format tf = Some (Loaded pkts) ->
  0 <= Z.of_nat (length pkts) <= PKT_MAX.
Proof.
  intros H. pose proof (trace_loader_capacity format tf) as (Hle & _ & _ & _).
  apply Hle in H. change (cap trace_loader) with PKT_MAX in H. lia.
Qed.

(** ** Lists in priority order *)

Section ByPriorityFacts.

Context {A : Type}.
Variable pri : A -> Z.

Lemma insert_by_pri_elem x y l :
  y ∈ insert_by_pri pri x l <-> y = x \/ y ∈ l.
Proof.
  induction l as [|z t IH]; simpl.
  - rewrite list_elem_of_singleton, elem_of_nil. tauto.
  - destruct (pri x <? pri z).
    + by rewrite elem_of_cons.
    + rewrite !elem_of_cons, IH. tauto.
Qed.

Lemma insert_by_pri_sorted x l :
  sorted_by_pri pri l -> sorted_by_pri pri (insert_by_pri pri x l).
Proof.
  unfold sorted_by_pri. induction 1 as [|z t Ht IH Hz]; simpl.
  - constructor; [constructor|constructor].
  - destruct (Z.ltb_spec (pri x) (pri z)) as [Hlt|Hge].
    + constructor; [by constructor|].
      constructor; [lia|]. eapply Forall_impl; [exact Hz|].
      simpl. intros. lia.
    + constructor; [done|].
      apply Forall_forall. intros y Hy.
      apply insert_by_pri_elem in Hy. destruct Hy as [->|Hy]; [lia|].
      by eapply Forall_forall in Hz.
Qed.

Lemma foldl_insert_elem l :
  forall acc y,
    y ∈ foldl (fun a x => insert_by_pri pri x a) acc l <-> y ∈ acc \/ y ∈ l.
Proof.
  induction l as [|x t IH]; simpl; intros acc y.
  - rewrite elem_of_nil. tauto.
  - rewrite IH, insert_by_pri_elem, elem_of_cons. tauto.
Qed.

Lemma foldl_insert_sorted l :
  forall acc,
    sorted_by_pri pri acc ->
    sorted_by_pri pri (foldl (fun a x => insert_by_pri pri x a) acc l).
Proof.
  induction l as [|x t IH]; simpl; intros acc Hacc; [done|].
  apply IH. by apply insert_by_pri_sorted.
Qed.

Lemma sort_by_pri_elem l y : y ∈ sort_by_pri pri l <-> y ∈ l.
Proof.
  unfold sort_by_pri. rewrite foldl_insert_elem, elem_of_nil. tauto.
Qed.

Lemma sort_by_pri_sorted l : sorted_by_pri pri (sort_by_pri pri l).
Proof. apply foldl_insert_sorted. constructor. Qed.

(** The first entry of a sorted list that passes a test is one of
    smallest priority value among those that pass. *)
Lemma find_sorted f l x :
  sorted_by_pri pri l ->
  List.find f l = Some x ->
  x ∈ l /\ f x = true /\ forall y, y ∈ l -> f y = true -> pri x <= pri y.
Proof.
  unfold sorted_by_pri. induction 1 as [|z t Ht IH Hz]; simpl; [done|].
  destruct (f z) eqn:Hfz.
  - intros H; inversion H; subst. split; [by left|]. split; [done|].
    intros y Hy _. apply elem_of_cons in Hy. destruct Hy as [->|Hy]; [lia|].
    by eapply Forall_forall in Hz.
  - intros H. apply IH in H. destruct H as (Hx & Hfx & Hmin).
    split; [by right|]. split; [done|].
    intros y Hy Hfy. apply elem_of_cons in Hy. destruct Hy as [->|Hy]; [congruence|].
    by apply Hmin.
Qed.

Lemma find_nothing (f : A -> bool) l :
  List.find f l = None -> forall y, y ∈ l -> f y = false.
Proof.
  induction l as [|z t IH]; simpl; intros H y Hy.
  - by apply elem_of_nil in Hy.
  - destruct (f z) eqn:Hfz; [done|].
    apply elem_of_cons in Hy. destruct Hy as [->|Hy]; [done|]. by apply IH.
Qed.

End ByPriorityFacts.

(** ** HyperSplit: the tree and its search *)

Module HyperSplitFacts.
Import HyperSplit.

Lemma build_node_built fuel :
  forall depth S C, built_from S (build_node fuel depth S C).
Proof.
  induction fuel as [|fuel IH]; intros depth S C; simpl; [constructor|].
  destruct (Z.of_nat (length S) <=? BINTH); [constructor|].
  destruct (best_split S C) as [[d t]|]; [|constructor].
  destruct (_ || _); [constructor|].
  constructor; apply IH.
Qed.

Lemma in_range_dim r p d :
  in_range r p = true -> r_low r d <= dget p d <= r_high r d.
Proof.
  unfold in_range. rewrite forallb_forall. intros H.
  assert (In d all_dims) as Hd by (destruct d; simpl; tauto).
  apply H in Hd. apply andb_true_iff in Hd. rewrite !Z.leb_le in Hd. done.
Qed.

(** Coverage: a rule that holds the packet is among the rules of the
    child the search descends to. *)
Lemma descent_keeps S d t r p :
  r ∈ S -> in_range r p = true ->
  if dget p d <=? t then r ∈ left_rules S d t else r ∈ right_rules S d t.
Proof.
  intros Hr Hin. pose proof (in_range_dim r p d Hin) as Hd.
  unfold left_rules, right_rules.
  destruct (Z.leb_spec (dget p d) t).
  - apply list_elem_of_In, filter_In. split; [by apply list_elem_of_In|].
    apply Z.leb_le. lia.
  - apply list_elem_of_In, filter_In. split; [by apply list_elem_of_In|].
    apply Z.ltb_lt. lia.
Qed.

Lemma filter_elem (f : range_rule -> bool) S r :
  r ∈ List.filter f S -> r ∈ S.
Proof.
  rewrite !list_elem_of_In, filter_In. tauto.
Qed.

Lemma lookup_built S n p :
  built_from S n ->
  best_match r_pri (fun r => in_range r p) (fun r => r ∈ S) (hs_lookup n p).
Proof.
  induction 1 as [S|S d depth t c0 c1 H0 IH0 H1 IH1]; simpl.
  - destruct (List.find _ _) as [r|] eqn:Hf; simpl.
    + apply (find_sorted r_pri) in Hf; [|apply sort_by_pri_sorted].
      destruct Hf as (Hr & Hin & Hmin). rewrite sort_by_pri_elem in Hr.
      repeat split; try done. intros r' Hr' Hin'.
      apply Hmin; [|done]. by apply sort_by_pri_elem.
    + intros r Hr. eapply find_nothing in Hf; [exact Hf|].
      by apply sort_by_pri_elem.
  - pose proof (fun r Hr Hin => descent_keeps S d t r p Hr Hin) as Hkeep.
    destruct (dget p d <=? t).
    + destruct (hs_lookup c0 p) as [r|]; simpl in *.
      * destruct IH0 as (Hr & Hin & Hmin).
        split; [by eapply filter_elem|]. split; [done|].
        intros r' Hr' Hin'. apply Hmin; [|done]. by apply Hkeep.
      * intros r Hr. destruct (in_range r p) eqn:Hin; [|done].
        rewrite <- Hin. apply IH0. by apply Hkeep.
    + destruct (hs_lookup c1 p) as [r|]; simpl in *.
      * destruct IH1 as (Hr & Hin & Hmin).
        split; [by eapply filter_elem|]. split; [done|].
        intros r' Hr' Hin'. apply Hmin; [|done]. by apply Hkeep.
      * intros r Hr. destruct (in_range r p) eqn:Hin; [|done].
        rewrite <- Hin. apply IH1. by apply Hkeep.
Qed.

Lemma hs_lookup_best max_depth rs p :
  best_match r_pri (fun r => in_range r p) (fun r => r ∈ rs)
             (hs_lookup (hs_build max_depth rs) p).
Proof. apply lookup_built, build_node_built. Qed.

End HyperSplitFacts.

(** ** Tuple space search: the index and its search *)

Section BestMatch.

Context {A : Type}.
Variable pri : A -> Z.
Variable test : A -> bool.

Lemma best_match_ext (R1 R2 : A -> Prop) found :
  (forall r, R1 r <-> R2 r) ->
  best_match pri test R1 found -> best_match pri test R2 found.
Proof.
  intros Hext. destruct found as [r|]; simpl.
  - intros (Hr & Ht & Hmin). split; [by apply Hext|]. split; [done|].
    intros r' Hr'. apply Hmin. by apply Hext.
  - intros H r Hr. apply H. by apply Hext.
Qed.

Lemma best_match_better (R1 R2 : A -> Prop) a b :
  best_match pri test R1 a -> best_match pri test R2 b ->
  best_match pri test (fun r => R1 r \/ R2 r) (better pri a b).
Proof.
  destruct a as [x|], b as [y|]; simpl.
  - intros (Hx & Htx & Hminx) (Hy & Hty & Hminy).
    destruct (Z.ltb_spec (pri y) (pri x)); simpl.
    + split; [by right|]. split; [done|].
      intros r' [Hr'|Hr'] Ht'; [specialize (Hminx r' Hr' Ht'); lia|by apply Hminy].
    + split; [by left|]. split; [done|].
      intros r' [Hr'|Hr'] Ht'; [by apply Hminx|specialize (Hminy r' Hr' Ht'); lia].
  - intros (Hx & Htx & Hminx) Hnone.
    split; [by left|]. split; [done|].
    intros r' [Hr'|Hr'] Ht'; [by apply Hminx|].
    rewrite (Hnone r' Hr') in Ht'. done.
  - intros Hnone (Hy & Hty & Hminy).
    split; [by right|]. split; [done|].
    intros r' [Hr'|Hr'] Ht'; [|by apply Hminy].
    rewrite (Hnone r' Hr') in Ht'. done.
  - intros H1 H2 r [Hr|Hr]; auto.
Qed.

(** The best match over a list of sources is the best of the best
    matches of the sources. *)
Lemma best_match_foldr {B} (rules_of : B -> A -> Prop) (look : B -> option A) l :
  (forall x, x ∈ l -> best_match pri test (rules_of x) (look x)) ->
  best_match pri test (fun r => exists x, x ∈ l /\ rules_of x r)
             (foldr (fun x best => better pri (look x) best) None l).
Proof.
  induction l as [|x t IH]; intros Hall; simpl.
  - intros r (x & Hx & _). by apply elem_of_nil in Hx.
  - eapply best_match_ext;
      [|apply (best_match_better (rules_of x)
                 (fun r => exists y, y ∈ t /\ rules_of y r))].
    + intros r. split.
      * intros [Hr|(y & Hy & Hr)]; [exists x|exists y];
          (split; [|done]); [by left|by right].
      * intros (y & Hy & Hr). apply elem_of_cons in Hy.
        destruct Hy as [->|Hy]; [by left|right; by exists y].
    + apply Hall. by left.
    + apply IH. intros y Hy. apply Hall. by right.
Qed.

(** Two best matches among the same rules have the same priority. *)
Lemma best_match_pri (R : A -> Prop) a b :
  best_match pri test R a -> best_match pri test R b ->
  pri <$> a = pri <$> b.
Proof.
  destruct a as [x|], b as [y|]; simpl; try done.
  - intros (Hx & Htx & Hminx) (Hy & Hty & Hminy). f_equal.
    specialize (Hminx y Hy Hty). specialize (Hminy x Hx Htx). lia.
  - intros (Hx & Htx & _) Hnone. rewrite (Hnone x Hx) in Htx. done.
  - intros Hnone (Hy & Hty & _). rewrite (Hnone y Hy) in Hty. done.
Qed.

End BestMatch.

Module TSSFacts.
Import TSS.

Section EngineFacts.

Variable hash : dims Z -> Z.

Lemma tss_ok_empty : tss_ok hash ∅.
Proof. intros L T h chain H. by rewrite lookup_empty in H. Qed.

(** The chains of an index after an insertion: the chain of the rule
    inserted has gained the rule, every other chain is as it was. *)
Lemma tss_insert_chain r (idx : gmap (dims Z) (gmap Z (list prefix_rule))) L h :
  (tss_insert hash r idx !! L) ≫= (fun T => T !! h)
  = if decide (L = p_len r /\ h = hash (masked_key (p_dim r) (p_len r)))
    then Some (insert_by_pri p_pri r (default [] ((idx !! L) ≫= (fun T => T !! h))))
    else (idx !! L) ≫= (fun T => T !! h).
Proof.
  unfold tss_insert.
  destruct (decide (L = p_len r)) as [->|HL].
  - rewrite lookup_insert_eq. simpl.
    destruct (decide (h = hash (masked_key (p_dim r) (p_len r)))) as [->|Hh].
    + rewrite lookup_insert_eq. rewrite decide_True by done.
      by destruct (idx !! p_len r).
    + rewrite lookup_insert_ne by done.
      rewrite decide_False by tauto.
      destruct (idx !! p_len r); simpl; [done|]. by rewrite lookup_empty.
  - rewrite lookup_insert_ne by done. rewrite decide_False by tauto. done.
Qed.

Lemma chain_lookup (idx : gmap (dims Z) (gmap Z (list prefix_rule))) L h chain :
  (idx !! L) ≫= (fun T => T !! h) = Some chain <->
  exists T, idx !! L = Some T /\ T !! h = Some chain.
Proof.
  destruct (idx !! L) as [T|]; simpl.
  - split; [by exists T|]. by intros (T' & [= <-] & H).
  - split; [done|]. by intros (T' & ? & _).
Qed.

Lemma in_index_chain (idx : gmap (dims Z) (gmap Z (list prefix_rule))) e :
  in_index idx e <->
  exists L h chain, (idx !! L) ≫= (fun T => T !! h) = Some chain /\ e ∈ chain.
Proof.
  unfold in_index. split.
  - intros (L & T & h & chain & HL & Hh & He). exists L, h, chain.
    split; [|done]. apply chain_lookup. by exists T.
  - intros (L & h & chain & Hc & He). apply chain_lookup in Hc.
    destruct Hc as (T & HL & Hh). by exists L, T, h, chain.
Qed.

Lemma tss_ok_chain (idx : gmap (dims Z) (gmap Z (list prefix_rule))) :
  tss_ok hash idx <->
  forall L h chain,
    (idx !! L) ≫= (fun T => T !! h) = Some chain ->
    sorted_by_pri p_pri chain
    /\ forall e, e ∈ chain -> p_len e = L /\ hash (masked_key (p_dim e) L) = h.
Proof.
  unfold tss_ok. split.
  - intros H L h chain Hc. apply chain_lookup in Hc.
    destruct Hc as (T & HL & Hh). by apply (H L T h chain).
  - intros H L T h chain HL Hh. apply (H L h chain).
    apply chain_lookup. by exists T.
Qed.

Lemma tss_insert_ok r idx : tss_ok hash idx -> tss_ok hash (tss_insert hash r idx).
Proof.
  rewrite !tss_ok_chain. intros Hok L h chain. rewrite tss_insert_chain.
  case_decide as Hd; [|by apply Hok].
  destruct Hd as [-> ->]. intros [= <-].
  destruct ((idx !! p_len r) ≫= _) as [c|] eqn:Hc; simpl.
  - apply Hok in Hc. destruct Hc as [Hs Hall]. split.
    + by apply insert_by_pri_sorted.
    + intros e He. apply insert_by_pri_elem in He.
      destruct He as [->|He]; [done|by apply Hall].
  - split; [repeat constructor|].
    intros e He. apply list_elem_of_singleton in He. by subst.
Qed.

Lemma tss_insert_in r idx e :
  in_index (tss_insert hash r idx) e <-> e = r \/ in_index idx e.
Proof.
  rewrite !in_index_chain. split.
  - intros (L & h & chain & Hc & He). rewrite tss_insert_chain in Hc.
    case_decide as Hd.
    + inversion Hc; subst. apply insert_by_pri_elem in He.
      destruct He as [->|He]; [by left|right].
      destruct ((idx !! L) ≫= _) as [c|] eqn:Hc'; simpl in He.
      * by exists L, h, c.
      * by apply elem_of_nil in He.
    + right. by exists L, h, chain.
  - intros [->|(L & h & chain & Hc & He)].
    + eexists (p_len r), (hash (masked_key (p_dim r) (p_len r))), _.
      rewrite tss_insert_chain. rewrite decide_True by done.
      split; [reflexivity|]. apply insert_by_pri_elem. by left.
    + destruct (decide (L = p_len r
                        /\ h = hash (masked_key (p_dim r) (p_len r)))) as [Hd|Hd].
      * eexists L, h, _. rewrite tss_insert_chain. rewrite decide_True by done.
        split; [reflexivity|]. apply insert_by_pri_elem. right.
        by rewrite Hc.
      * exists L, h, chain. rewrite tss_insert_chain. by rewrite decide_False.
Qed.

Lemma tss_insert_update_ok delta :
  forall idx, tss_ok hash idx -> tss_ok hash (tss_insert_update hash delta idx).
Proof.
  induction delta as [|r t IH]; intros idx Hok; [done|].
  change (tss_insert_update hash (r :: t) idx)
    with (tss_insert_update hash t (tss_insert hash r idx)).
  apply IH. by apply tss_insert_ok.
Qed.

Lemma tss_insert_update_in delta :
  forall idx e,
    in_index (tss_insert_update hash delta idx) e <-> e ∈ delta \/ in_index idx e.
Proof.
  induction delta as [|r t IH]; intros idx e.
  - simpl. rewrite elem_of_nil. tauto.
  - change (tss_insert_update hash (r :: t) idx)
      with (tss_insert_update hash t (tss_insert hash r idx)).
    rewrite IH, tss_insert_in, elem_of_cons. tauto.
Qed.

Lemma tss_build_ok rs : tss_ok hash (tss_build hash rs).
Proof. apply tss_insert_update_ok, tss_ok_empty. Qed.

Lemma tss_build_in rs e : in_index (tss_build hash rs) e <-> e ∈ rs.
Proof.
  unfold tss_build. rewrite tss_insert_update_in. unfold in_index. split.
  - intros [H|(L & T & h & chain & H & _)]; [done|]. by rewrite lookup_empty in H.
  - by left.
Qed.

(** The probe of one table finds the best match among the rules of the
    table. *)
Lemma probe_best idx L T p :
  tss_ok hash idx -> idx !! L = Some T ->
  best_match p_pri (fun e => prefix_match e p)
    (fun e => exists h chain, T !! h = Some chain /\ e ∈ chain)
    (probe hash L T p).
Proof.
  intros Hok HL. unfold probe.
  destruct (T !! hash (masked_key p L)) as [chain|] eqn:Hc.
  - destruct (Hok L T _ chain HL Hc) as [Hsorted Hall].
    assert (forall e, (exists h c, T !! h = Some c /\ e ∈ c) ->
                      prefix_match e p = true -> e ∈ chain) as Hsame.
    { intros e (h & c & Hh & He) Hm.
      destruct (Hok L T h c HL Hh) as [_ Hall'].
      destruct (Hall' e He) as [Hlen Hhash].
      unfold prefix_match in Hm. apply bool_decide_eq_true in Hm.
      rewrite Hlen in Hm. rewrite Hm in Hhash. rewrite Hhash in Hc.
      rewrite Hh in Hc. by inversion Hc; subst. }
    destruct (List.find _ chain) as [e|] eqn:Hf; simpl.
    + apply (find_sorted p_pri) in Hf; [|done].
      destruct Hf as (He & Hm & Hmin). split; [by eauto|]. split; [done|].
      intros e' He' Hm'. apply Hmin; [by apply Hsame|done].
    + intros e He. destruct (prefix_match e p) eqn:Hm; [|done].
      rewrite <- Hm.
      apply (find_nothing (fun e => prefix_match e p) chain Hf e).
      by apply Hsame.
  - simpl. intros e (h & c & Hh & He).
    destruct (prefix_match e p) eqn:Hm; [|done]. exfalso.
    destruct (Hok L T h c HL Hh) as [_ Hall'].
    destruct (Hall' e He) as [Hlen Hhash].
    unfold prefix_match in Hm. apply bool_decide_eq_true in Hm.
    rewrite Hlen in Hm. rewrite Hm in Hhash. rewrite Hhash in Hc. congruence.
Qed.

(** The search finds the best match among the rules of the index. *)
Lemma tss_lookup_best idx p :
  tss_ok hash idx ->
  best_match p_pri (fun e => prefix_match e p) (in_index idx)
             (tss_lookup hash idx p).
Proof.
  intros Hok. unfold tss_lookup.
  eapply best_match_ext;
    [|apply (best_match_foldr p_pri (fun e => prefix_match e p)
               (fun LT e => exists h chain, LT.2 !! h = Some chain /\ e ∈ chain)
               (fun LT => probe hash LT.1 LT.2 p))].
  - intros e. unfold in_index. split.
    + intros ([L T] & HLT & h & chain & Hh & He).
      apply elem_of_map_to_list in HLT. by exists L, T, h, chain.
    + intros (L & T & h & chain & HL & Hh & He).
      exists (L, T). split; [by apply elem_of_map_to_list|]. by exists h, chain.
  - intros [L T] HLT. apply elem_of_map_to_list in HLT. simpl.
    by apply (probe_best idx).
Qed.

End EngineFacts.

End TSSFacts.

(** ** Claims on the engines *)

Section EngineClaims.
Import HyperSplit TSS HyperSplitFacts TSSFacts.

(** The two tests say what the glossary calls a match. *)
Lemma in_range_iff r p :
  in_range r p = true <-> forall d, r_low r d <= dget p d <= r_high r d.
Proof.
  split; [intros H d; by apply in_range_dim|].
  intros H. unfold in_range. apply forallb_forall. intros d _.
  apply andb_true_iff. rewrite !Z.leb_le. apply H.
Qed.

Lemma prefix_match_iff r p :
  prefix_match r p = true <->
  forall d, Z.land (dget (p_dim r) d) (prefix_mask d (dget (p_len r) d))
            = Z.land (dget p d) (prefix_mask d (dget (p_len r) d)).
Proof.
  unfold prefix_match. rewrite bool_decide_eq_true. unfold masked_key, dmap2.
  split.
  - intros H d. inversion H. by destruct d.
  - intros H. f_equal.
    + apply (H DIM_SIP).
    + apply (H DIM_DIP).
    + apply (H DIM_SPORT).
    + apply (H DIM_DPORT).
    + apply (H DIM_PROTO).
Qed.

(** C1. For every packet and for both engines, the search on the index
    built from a rule set returns a rule of the set that holds the
    packet and whose priority value is the smallest among the rules of
    the set that hold it, and returns no match when no rule of the set
    holds the packet. *)
Theorem search_returns_best_match (max_depth : nat) (hash : dims Z -> Z)
    (rs : list range_rule) (ps : list prefix_rule) (p : dims Z) :
  match hs_lookup (hs_build max_depth rs) p with
  | Some r =>
      r ∈ rs /\ in_range r p = true
      /\ forall r', r' ∈ rs -> in_range r' p = true -> r_pri r <= r_pri r'
  | None => forall r, r ∈ rs -> in_range r p = false
  end
  /\ match tss_lookup hash (tss_build hash ps) p with
     | Some r =>
         r ∈ ps /\ prefix_match r p = true
         /\ forall r', r' ∈ ps -> prefix_match r' p = true -> p_pri r <= p_pri r'
     | None => forall r, r ∈ ps -> prefix_match r p = false
     end.
Proof.
  split.
  - exact (hs_lookup_best max_depth rs p).
  - pose proof (tss_lookup_best hash (tss_build hash ps) p (tss_build_ok hash ps)) as H.
    apply (best_match_ext p_pri _ _ (fun r => r ∈ ps)) in H;
      [exact H|apply tss_build_in].
Qed.

(** The search of an index after an update, for a packet that matched
    before. *)
Lemma insert_update_lookup hash idx delta p r :
  tss_ok hash idx ->
  tss_lookup hash idx p = Some r ->
  exists r',
    tss_lookup hash (tss_insert_update hash delta idx) p = Some r'
    /\ prefix_match r' p = true
    /\ p_pri r' <= p_pri r
    /\ (r' ∈ delta \/ p_pri r' = p_pri r)
    /\ forall d, d ∈ delta -> prefix_match d p = true -> p_pri r' <= p_pri d.
Proof.
  intros Hok Hr.
  pose proof (tss_lookup_best hash idx p Hok) as Hold. rewrite Hr in Hold.
  destruct Hold as (Hin & Hm & Hmin).
  pose proof (tss_lookup_best hash _ p (tss_insert_update_ok hash delta idx Hok))
    as Hnew.
  destruct (tss_lookup hash (tss_insert_update hash delta idx) p) as [r'|];
    simpl in Hnew.
  - destruct Hnew as (Hin' & Hm' & Hmin'). exists r'.
    split; [done|]. split; [done|].
    assert (p_pri r' <= p_pri r) as Hle.
    { apply Hmin'; [|done]. apply tss_insert_update_in. by right. }
    split; [done|]. split.
    + apply tss_insert_update_in in Hin'. destruct Hin' as [Hd|Hi]; [by left|].
      right. specialize (Hmin r' Hi Hm'). lia.
    + intros d Hd Hmd. apply Hmin'; [|done]. apply tss_insert_update_in. by left.
  - exfalso. specialize (Hnew r). rewrite Hm in Hnew.
    discriminate Hnew. apply tss_insert_update_in. by right.
Qed.

(** C7. After [insert_update] of a delta set into an index built from a
    rule set, no rule of the set is lost, and a packet that matched the
    rule [r] is still answered with the priority of [r], unless a rule
    of the delta set holds the packet with a strictly smaller priority
    value, in which case a rule of the delta set is returned. *)
Theorem insert_update_monotone (hash : dims Z -> Z)
    (rs delta : list prefix_rule) (p : dims Z) (r : prefix_rule) :
  tss_lookup hash (tss_build hash rs) p = Some r ->
  (forall e, e ∈ rs ->
     in_index (tss_insert_update hash delta (tss_build hash rs)) e)
  /\ ((forall d, d ∈ delta -> prefix_match d p = true -> p_pri r <= p_pri d) ->
      tss_search_pkt hash (tss_insert_update hash delta (tss_build hash rs)) p
      = Some (p_pri r))
  /\ ((exists d, d ∈ delta /\ prefix_match d p = true /\ p_pri d < p_pri r) ->
      exists d',
        tss_lookup hash (tss_insert_update hash delta (tss_build hash rs)) p
        = Some d'
        /\ d' ∈ delta /\ prefix_match d' p = true /\ p_pri d' < p_pri r
        /\ forall d, d ∈ delta -> prefix_match d p = true -> p_pri d' <= p_pri d).
Proof.
  intros Hr.
  destruct (insert_update_lookup hash _ delta p r (tss_build_ok hash rs) Hr)
    as (r' & Hl & Hm & Hle & Hwho & Hmin).
  split; [|split].
  - intros e He. apply tss_insert_update_in. right. by apply tss_build_in.
  - intros Hall. unfold tss_search_pkt. rewrite Hl. simpl. f_equal.
    destruct Hwho as [Hd|Heq]; [|done]. specialize (Hall r' Hd Hm). lia.
  - intros (d & Hd & Hmd & Hlt). exists r'.
    pose proof (Hmin d Hd Hmd) as Hmind.
    split; [done|]. split; [|split; [done|split; [lia|done]]].
    destruct Hwho as [Hd'|Heq]; [done|lia].
Qed.

End EngineClaims.

Section Scenarios.
Import HyperSplit TSS Scenario.

Lemma insert_update_monotone_witness :
  tss_lookup fold_hash (tss_build fold_hash R2p) (pkt 1 2 3 4 6)
  = Some r_tcp
  /\ tss_search_pkt fold_hash
       (tss_insert_update fold_hash [r_udp]
          (tss_build fold_hash R2p)) (pkt 1 2 3 4 6)
     = Some 0
  /\ exists d',
       tss_lookup fold_hash
         (tss_insert_update fold_hash [r_new] (tss_build fold_hash R2p))
         (pkt 1 2 3 4 6) = Some d'
       /\ p_pri d' < 0.
Proof.
  assert (tss_lookup fold_hash (tss_build fold_hash R2p) (pkt 1 2 3 4 6)
          = Some r_tcp) as Hl.
  { vm_compute. reflexivity. }
  split; [exact Hl|]. split.
  - apply (insert_update_monotone fold_hash R2p
             [r_udp]
             (pkt 1 2 3 4 6) _ Hl).
    intros d Hd. apply list_elem_of_singleton in Hd. subst d.
    vm_compute. discriminate.
  - destruct (insert_update_monotone fold_hash R2p [r_new] (pkt 1 2 3 4 6) _ Hl)
      as (_ & _ & Hwin).
    destruct Hwin as (d' & Hd' & _ & _ & Hlt & _).
    + exists r_new. split; [by apply list_elem_of_singleton|].
      split; vm_compute; reflexivity.
    + exists d'. split; [exact Hd'|exact Hlt].
Defined.

(** The scenarios of section 8 of the specification. *)
Example scenario_1 :
  hs_search_pkt (hs_build 16 R1) (pkt 3232235777 167772161 1234 80 6) = Some 0.
Proof. vm_compute. reflexivity. Qed.

Example scenario_2 :
  hs_search_pkt (hs_build 16 R2) (pkt 1 2 3 4 6) = Some 0
  /\ hs_search_pkt (hs_build 16 R2) (pkt 1 2 3 4 17) = Some 1.
Proof. split; vm_compute; reflexivity. Qed.

Example scenario_3 :
  hs_search_pkt (hs_build 16 R3) (pkt 167838211 2 3 4 6) = Some 0.
Proof. vm_compute. reflexivity. Qed.

Example scenario_4 :
  hs_search_pkt (hs_build 16 R4) (pkt 1 2 1750 4 6) = Some 0
  /\ hs_search_pkt (hs_build 16 R4) (pkt 1 2 2100 4 6) = Some 1
  /\ hs_search_pkt (hs_build 16 R4) (pkt 1 2 500 4 6) = None.
Proof. repeat split; vm_compute; reflexivity. Qed.

Example scenario_5 :
  tss_search_pkt fold_hash (tss_build fold_hash R5) (pkt 167838211 2 3 4 6)
  = Some 0.
Proof. vm_compute. reflexivity. Qed.

Example scenario_6 :
  tss_search_pkt fold_hash (tss_build fold_hash R2p) (pkt 1 2 3 4 6) = Some 0
  /\ tss_search_pkt fold_hash
       (tss_insert_update fold_hash [r_new] (tss_build fold_hash R2p))
       (pkt 1 2 3 4 6) = Some (-1).
Proof. split; vm_compute; reflexivity. Qed.

(** A rule set larger than a leaf: the tree has internal nodes. *)
Example scenario_split :
  (exists d depth t c0 c1, hs_build 16 R12 = hs_split d depth t c0 c1)
  /\ hs_search_pkt (hs_build 16 R12) (pkt 3200 2 320 4 6) = Some 9
  /\ hs_search_pkt (hs_build 16 R12) (pkt 3600 2 50 4 6) = None.
Proof.
  split; [|split]; [|vm_compute; reflexivity..].
  vm_compute. do 5 eexists. reflexivity.
Qed.

End Scenarios.

(** ** Further properties of the loaders *)

Section AddressFacts.

Lemma land_shiftl_small hi lo k :
  0 <= k -> 0 <= lo < 2 ^ k -> Z.land (Z.shiftl hi k) lo = 0.
Proof.
  intros Hk Hlo. apply Z.bits_inj'. intros i Hi.
  rewrite Z.land_spec, Z.bits_0.
  destruct (Z.lt_ge_cases i k).
  - by rewrite Z.shiftl_spec_low.
  - rewrite <- (Z.mod_small lo (2 ^ k)) by done.
    rewrite Z.mod_pow2_bits_high by lia. apply andb_false_r.
Qed.

Lemma lor_shiftl_small hi lo k :
  0 <= k -> 0 <= lo < 2 ^ k -> Z.lor (Z.shiftl hi k) lo = hi * 2 ^ k + lo.
Proof.
  intros Hk Hlo. pose proof (Z.add_lor_land (Z.shiftl hi k) lo) as H.
  rewrite land_shiftl_small in H by done.
  rewrite Z.shiftl_mul_pow2 in * by done. lia.
Qed.

Lemma lor_mul_small hi lo k :
  0 <= k -> 0 <= lo < 2 ^ k -> Z.lor (hi * 2 ^ k) lo = hi * 2 ^ k + lo.
Proof.
  intros Hk Hlo. rewrite <- (lor_shiftl_small hi lo k) by done.
  by rewrite Z.shiftl_mul_pow2.
Qed.

(** The address of a dotted quad, each number taken modulo 256. *)
Lemma ip_of_bytes_sum a b c d :
  ip_of_bytes a b c d
  = (a mod 256) * 2 ^ 24 + (b mod 256) * 2 ^ 16 + (c mod 256) * 2 ^ 8
    + d mod 256.
Proof.
  unfold ip_of_bytes, u32. change 255 with (Z.ones 8).
  rewrite !Z.land_ones by lia. change (2 ^ 8) with 256.
  pose proof (Z.mod_pos_bound a 256 ltac:(lia)) as Ha.
  pose proof (Z.mod_pos_bound b 256 ltac:(lia)) as Hb.
  pose proof (Z.mod_pos_bound c 256 ltac:(lia)) as Hc.
  pose proof (Z.mod_pos_bound d 256 ltac:(lia)) as Hd.
  revert Ha Hb Hc Hd.
  generalize (a mod 256) (b mod 256) (c mod 256) (d mod 256).
  intros a' b' c' d' Ha Hb Hc Hd.
  rewrite !Z.shiftl_mul_pow2 by lia.
  assert (2 ^ 32 = 4294967296 /\ 2 ^ 24 = 16777216 /\ 2 ^ 16 = 65536)
    as (E32 & E24 & E16) by done.
  rewrite !wrap_small by lia.
  rewrite (lor_mul_small a' (b' * 2 ^ 16) 24) by lia.
  replace (a' * 2 ^ 24 + b' * 2 ^ 16) with ((a' * 256 + b') * 2 ^ 16) by lia.
  rewrite (lor_mul_small _ (c' * 256) 16) by lia.
  replace ((a' * 256 + b') * 2 ^ 16 + c' * 256)
    with (((a' * 256 + b') * 256 + c') * 2 ^ 8) by lia.
  rewrite (lor_mul_small _ d' 8) by (change (2 ^ 8) with 256; lia).
  change (2 ^ 8) with 256. lia.
Qed.


Lemma land_netmask_block x m :
  is_u32 x -> 0 <= m ->
  Z.land x (ip_netmask (clamp_mask m)) = x - x mod 2 ^ (32 - Z.min m 32).
Proof.
  intros Hx Hm. rewrite clamp_mask_min.
  rewrite land_netmask by (done || lia). apply land_lnot_ones. lia.
Qed.


End AddressFacts.

Lemma prfx_rule_loaded f r :
  prfx_rule f = Loaded r ->
  dget (p_dim r) DIM_SIP
  = Z.land (ip_of_bytes (Prfx.src_ip_0 f) (Prfx.src_ip_1 f)
                        (Prfx.src_ip_2 f) (Prfx.src_ip_3 f))
           (ip_netmask (clamp_mask (Prfx.src_ip_mask f)))
  /\ dget (p_dim r) DIM_DIP
     = Z.land (ip_of_bytes (Prfx.dst_ip_0 f) (Prfx.dst_ip_1 f)
                           (Prfx.dst_ip_2 f) (Prfx.dst_ip_3 f))
              (ip_netmask (clamp_mask (Prfx.dst_ip_mask f)))
  /\ dget (p_dim r) DIM_SPORT = Prfx.src_port f mod 2 ^ 16
  /\ dget (p_dim r) DIM_DPORT = Prfx.dst_port f mod 2 ^ 16
  /\ (dget (p_dim r) DIM_PROTO = Prfx.proto f mod 2 ^ 8
      \/ dget (p_dim r) DIM_PROTO = 0)
  /\ dget (p_len r) DIM_SIP = clamp_mask (Prfx.src_ip_mask f)
  /\ dget (p_len r) DIM_DIP = clamp_mask (Prfx.dst_ip_mask f)
  /\ dget (p_len r) DIM_SPORT = Prfx.src_port_mask f
  /\ dget (p_len r) DIM_DPORT = Prfx.dst_port_mask f.
Proof.
  assert (forall x, u16 (Z.land x 65535) = x mod 2 ^ 16) as H16.
  { intros x. unfold u16. change 65535 with (Z.ones 16).
    rewrite Z.land_ones by lia. apply wrap_small, Z.mod_pos_bound. lia. }
  assert (forall x, u8 (Z.land x 255) = x mod 2 ^ 8) as H8.
  { intros x. unfold u8. change 255 with (Z.ones 8).
    rewrite Z.land_ones by lia. apply wrap_small, Z.mod_pos_bound. lia. }
  unfold prfx_rule.
  destruct (Prfx.proto_mask f =? 255);
    [|destruct (Prfx.proto_mask f =? 0); [|done]];
    intros H; inversion H; subst; simpl; rewrite !H16, ?H8; auto 12.
Qed.

Lemma prfx_line_ok_fields f :
  prfx_line_ok f -> 0 <= Prfx.src_ip_mask f /\ 0 <= Prfx.dst_ip_mask f.
Proof.
  unfold prfx_line_ok. intros H.
  repeat (apply Forall_cons in H; destruct H as [? H]).
  unfold is_u32 in *. lia.
Qed.







(** X3. After [load_prfx_rules] returns, every value of every rule is
    within the width of its dimension, and an address has the bits
    below its prefix length cleared.  Line by line of the file, the
    address stored is the address of the line without the bits below
    its mask length, a port is the port of the line in 16 bits, stored
    whole whatever its mask length, and the protocol is that of the
    line in 8 bits for the mask 0xFF and 0 for the mask 0. *)
Theorem load_prfx_rules_values format rf rs :
  load_prfx_rules format rf = Some (Loaded rs) ->
  Forall (fun r =>
    (forall d, 0 <= dget (p_dim r) d < 2 ^ W d)
    /\ dget (p_dim r) DIM_SIP mod 2 ^ (32 - dget (p_len r) DIM_SIP) = 0
    /\ dget (p_dim r) DIM_DIP mod 2 ^ (32 - dget (p_len r) DIM_DIP) = 0) rs
  /\ exists lines,
      prfx_lines format rf = Some (Loaded lines)
      /\ Forall2 (fun f r =>
           let sip := quad (Prfx.src_ip_0 f) (Prfx.src_ip_1 f)
                           (Prfx.src_ip_2 f) (Prfx.src_ip_3 f) in
           let dip := quad (Prfx.dst_ip_0 f) (Prfx.dst_ip_1 f)
                           (Prfx.dst_ip_2 f) (Prfx.dst_ip_3 f) in
           dget (p_dim r) DIM_SIP
           = sip - sip mod 2 ^ (32 - Z.min (Prfx.src_ip_mask f) 32)
           /\ dget (p_dim r) DIM_DIP
              = dip - dip mod 2 ^ (32 - Z.min (Prfx.dst_ip_mask f) 32)
           /\ dget (p_dim r) DIM_SPORT = Prfx.src_port f mod 2 ^ 16
           /\ dget (p_dim r) DIM_DPORT = Prfx.dst_port f mod 2 ^ 16
           /\ (Prfx.proto_mask f = 255
               /\ dget (p_dim r) DIM_PROTO = Prfx.proto f mod 2 ^ 8
               \/ Prfx.proto_mask f = 0 /\ dget (p_dim r) DIM_PROTO = 0))
         lines rs.
Proof.
  intros H.
  assert (forall ip m, is_u32 ip -> 0 <= m ->
            0 <= Z.land ip (ip_netmask (clamp_mask m)) < 2 ^ 32
            /\ Z.land ip (ip_netmask (clamp_mask m))
               mod 2 ^ (32 - clamp_mask m) = 0) as Hmask.
  { intros ip m Hip Hm. rewrite land_netmask_block by done.
    rewrite clamp_mask_min.
    assert (0 < 2 ^ (32 - Z.min m 32)) as Hpos by (apply Z.pow_pos_nonneg; lia).
    pose proof (Z.mod_pos_bound ip _ Hpos).
    pose proof (Z.mod_le ip _ ltac:(unfold is_u32 in Hip; lia) Hpos).
    split; [unfold is_u32 in Hip; lia|].
    rewrite Zminus_mod, Z.mod_mod, Z.sub_diag by lia. by rewrite Z.mod_0_l by lia. }
  split.
  - apply load_prfx_rules_lines in H.
    eapply Forall_impl; [exact H|]. cbv beta. clear H.
    intros r (f & Hok & Hr).
    pose proof (prfx_line_ok_fields f Hok) as (Hs & Hd).
    pose proof (prfx_rule_loaded f r Hr)
      as (Hsip & Hdip & Hsp & Hdp & Hp & Hls & Hld & _).
    destruct (Hmask _ _ (ip_of_bytes_u32 (Prfx.src_ip_0 f) (Prfx.src_ip_1 f)
                           (Prfx.src_ip_2 f) (Prfx.src_ip_3 f)) Hs)
      as [Hs1 Hs2].
    destruct (Hmask _ _ (ip_of_bytes_u32 (Prfx.dst_ip_0 f) (Prfx.dst_ip_1 f)
                           (Prfx.dst_ip_2 f) (Prfx.dst_ip_3 f)) Hd)
      as [Hd1 Hd2].
    split; [|split].
    + intros d. destruct d; simpl W.
      * by rewrite Hsip.
      * by rewrite Hdip.
      * rewrite Hsp. apply Z.mod_pos_bound. lia.
      * rewrite Hdp. apply Z.mod_pos_bound. lia.
      * destruct Hp as [-> | ->]; [apply Z.mod_pos_bound|]; lia.
    + by rewrite Hsip, Hls.
    + by rewrite Hdip, Hld.
  - apply load_prfx_rules_read in H. destruct H as (lines & Hl & H2).
    exists lines. split; [done|].
    eapply Forall2_impl; [exact H2|]. cbv beta zeta.
    intros f r (Hok & Hr).
    pose proof (prfx_line_ok_fields f Hok) as (Hs & Hd).
    pose proof (prfx_rule_loaded f r Hr)
      as (Hsip & Hdip & Hsp & Hdp & _).
    rewrite Hsip, Hdip, Hsp, Hdp.
    rewrite !land_netmask_block by (apply ip_of_bytes_u32 || done).
    rewrite !ip_of_bytes_sum. unfold quad.
    repeat split; try done.
    revert Hr. unfold prfx_rule.
    assert (forall x, u8 (Z.land x 255) = x mod 2 ^ 8) as H8.
    { intros x. unfold u8. change 255 with (Z.ones 8).
      rewrite Z.land_ones by lia. apply wrap_small, Z.mod_pos_bound. lia. }
    destruct (Z.eqb_spec (Prfx.proto_mask f) 255) as [Hm|Hm];
      [|destruct (Z.eqb_spec (Prfx.proto_mask f) 0) as [Hz|Hz]; [|done]];
      intros Hr; inversion Hr; subst; simpl; rewrite ?H8; auto.
Qed.

Lemma load_prfx_rules_values_witness :
  exists rs,
    load_prfx_rules spec_prfx_fmt long_port_rules = Some (Loaded rs)
    /\ p_dim <$> rs = [mk_dims 167837696 0 0 80 6]
    /\ exists lines,
        prfx_lines spec_prfx_fmt long_port_rules = Some (Loaded lines)
        /\ Forall2 (fun f r =>
             dget (p_dim r) DIM_SPORT = Prfx.src_port f mod 2 ^ 16
             /\ dget (p_dim r) DIM_DPORT = Prfx.dst_port f mod 2 ^ 16)
           lines rs.
Proof.
  eexists. split; [vm_compute; reflexivity|]. split; [reflexivity|].
  destruct (load_prfx_rules_values spec_prfx_fmt long_port_rules _
              ltac:(vm_compute; reflexivity)) as (_ & lines & Hl & H2).
  exists lines. split; [exact Hl|].
  eapply Forall2_impl; [exact H2|]. cbv beta zeta.
  intros f r (_ & _ & Hsp & Hdp & _). by split.
Defined.

(** X4. [load_trace] turns no line down for the numbers it holds: the
    lines read are all loaded.  Line by line of the trace, the
    addresses of a packet are those of the line, its ports are the
    numbers of the line modulo 2^16 and its protocol is the number of
    the line modulo 2^8; so every field is within the width of its
    dimension. *)
Theorem load_trace_fields format tf :
  (forall pkts,
     load_trace format tf = Some (Loaded pkts) ->
     Forall (fun p => forall d, 0 <= dget (val p) d < 2 ^ W d) pkts
     /\ exists lines,
         pkt_lines format tf = Some (Loaded lines)
         /\ Forall2 (fun f p =>
              val p = mk_dims (t_sip f) (t_dip f) (t_sport f mod 2 ^ 16)
                        (t_dport f mod 2 ^ 16) (t_proto f mod 2 ^ 8))
            lines pkts)
  /\ (forall lines,
      pkt_lines format tf = Some (Loaded lines) ->
      exists pkts,
        load_trace format tf = Some (Loaded pkts)
        /\ Forall2 (fun f p =>
             val p = mk_dims (t_sip f) (t_dip f) (t_sport f mod 2 ^ 16)
                       (t_dport f mod 2 ^ 16) (t_proto f mod 2 ^ 8))
           lines pkts).
Proof.
  assert (forall x, u16 (Z.land x 65535) = x mod 2 ^ 16) as H16.
  { intros x. unfold u16. change 65535 with (Z.ones 16).
    rewrite Z.land_ones by lia. apply wrap_small, Z.mod_pos_bound. lia. }
  assert (forall x, u8 (Z.land x 255) = x mod 2 ^ 8) as H8.
  { intros x. unfold u8. change 255 with (Z.ones 8).
    rewrite Z.land_ones by lia. apply wrap_small, Z.mod_pos_bound. lia. }
  assert (forall f, val (trace_packet f)
                    = mk_dims (t_sip f) (t_dip f) (t_sport f mod 2 ^ 16)
                        (t_dport f mod 2 ^ 16) (t_proto f mod 2 ^ 8)) as Hval.
  { intros f. simpl. by rewrite !H16, H8. }
  split.
  - intros pkts H. split.
    + apply load_trace_lines in H.
      eapply Forall_impl; [exact H|]. cbv beta. clear H.
      intros p (f & Hok & ->).
      assert (is_u32 (t_sip f) /\ is_u32 (t_dip f)) as [Hs Hd].
      { unfold pkt_line_ok in Hok.
        repeat (apply Forall_cons in Hok; destruct Hok as [? Hok]). done. }
      intros d. rewrite Hval. destruct d; simpl;
        try apply Z.mod_pos_bound; try lia; done.
    + apply load_trace_read in H. destruct H as (lines & Hl & H2).
      exists lines. split; [done|].
      eapply Forall2_impl; [exact H2|]. cbv beta. by intros f p (_ & ->).
  - intros lines H.
    apply (lines_load trace_loader pkt_line_of
             (fun f => Loaded (trace_packet f))) in H; try done.
    + destruct H as (pkts & Hl & H2). exists pkts. split; [done|].
      eapply Forall2_impl; [exact H2|]. cbv beta.
      intros f p Hp. inversion Hp. apply Hval.
    + intros f. by eexists.
Qed.

Lemma load_trace_fields_witness :
  exists pkts,
    load_trace spec_pkt_fmt two_packets = Some (Loaded pkts)
    /\ val <$> pkts
       = [mk_dims 167838211 3232235777 4464 443 6; mk_dims 1 2 3 4 6]
    /\ Forall (fun p => forall d, 0 <= dget (val p) d < 2 ^ W d) pkts.
Proof.
  eexists. split; [vm_compute; reflexivity|]. split; [reflexivity|].
  apply (proj1 (load_trace_fields spec_pkt_fmt two_packets)).
  vm_compute. reflexivity.
Defined.

(** ** The ways a load can end *)

Section Endings.

Context {A : Type}.
Variable P : loader A.
Variable format : list directive.
Hypothesis nconv_pos : 0 < nconv P.
Hypothesis cap_nonneg : 0 <= cap P.

(** The iteration that leaves the loop. *)
Lemma last_iteration fp i acc o :
  load_loop P format 1 fp i acc = Some o ->
  (feof fp = true /\ o = Loaded acc)
  \/ (feof fp = false /\ cap P <= i /\ o = Fatal (too_many P))
  \/ (feof fp = false /\ i < cap P
      /\ exists k vals fp',
           fscanf fp format = (k, vals, fp')
           /\ (k <> nconv P /\ o = Fatal (illegal P)
               \/ k = nconv P /\ Forall is_u32 vals
                  /\ Z.of_nat (length vals) = nconv P
                  /\ exists d, body P vals = Fatal d /\ o = Fatal d)).
Proof.
  simpl. destruct (feof fp); [intros [= <-]; by left|].
  destruct (Z.leb_spec (cap P) i); [intros [= <-]; right; by left|].
  destruct (fscanf fp format) as [[k vals] fp'] eqn:Hs.
  right. right. split; [done|]. split; [done|]. exists k, vals, fp'.
  split; [done|].
  destruct (Z.eqb_spec k (nconv P)) as [->|Hk]; simpl in *.
  - right. pose proof (fscanf_full P format nconv_pos _ _ _ _ Hs (Z.eqb_refl _))
      as (_ & Hv & Hlen).
    destruct (body P vals) as [a|d]; [done|].
    inversion H0; subst. split; [done|]. split; [done|]. split; [done|]. by exists d.
  - left. by inversion H0.
Qed.

Lemma load_endings contents o :
  load P format contents = Some o ->
  exists n rs fp',
    read_entries P format n (fopen contents) = Some (rs, fp')
    /\ Z.of_nat n <= cap P
    /\ ((feof fp' = true /\ o = Loaded rs)
        \/ (feof fp' = false /\ cap P <= Z.of_nat n /\ o = Fatal (too_many P))
        \/ (feof fp' = false /\ Z.of_nat n < cap P
            /\ exists k vals fp'',
                 fscanf fp' format = (k, vals, fp'')
                 /\ (k <> nconv P /\ o = Fatal (illegal P)
                     \/ k = nconv P /\ Forall is_u32 vals
                        /\ Z.of_nat (length vals) = nconv P
                        /\ exists d, body P vals = Fatal d /\ o = Fatal d))).
Proof.
  intros H. apply load_decompose in H; try done.
  destruct H as (n & rs & fp' & Hrd & Hle & Hlast).
  exists n, rs, fp'. split; [done|]. split; [done|]. by apply last_iteration.
Qed.

Lemma load_stops_short contents :
  stops_short P format contents ->
  load P format contents = Some (Fatal (illegal P)).
Proof.
  intros (n & rs & fp' & k & vals & fp'' & Hrd & Hn & Hf & Hs & Hk).
  apply (load_read P format nconv_pos contents n rs fp'); [done|lia|].
  simpl. rewrite Hf. destruct (Z.leb_spec (cap P) (Z.of_nat n)); [lia|].
  rewrite Hs. by destruct (Z.eqb_spec k (nconv P)).
Qed.

End Endings.

Lemma cb_line_of_full vals :
  length vals = 17%nat -> is_Some (cb_line_of vals).
Proof.
  intros H. do 18 (destruct vals as [|? vals]; try discriminate H).
  by eexists.
Qed.

Lemma prfx_line_of_full vals :
  length vals = 17%nat -> is_Some (prfx_line_of vals).
Proof.
  intros H. do 18 (destruct vals as [|? vals]; try discriminate H).
  by eexists.
Qed.

Lemma cb_body_fatal vals d :
  Forall is_u32 vals -> Z.of_nat (length vals) = 17 ->
  body cb_loader vals = Fatal d ->
  exists m, d = Protocol_mask_error m /\ is_u32 m /\ m <> 255 /\ m <> 0.
Proof.
  intros Hv Hlen. simpl.
  destruct (cb_line_of_full vals ltac:(lia)) as [f Hf]. rewrite Hf.
  pose proof (cb_line_of_ok vals f Hf Hv) as Hok.
  unfold cb_rule.
  destruct (Z.eqb_spec (proto_mask f) 255); [done|].
  destruct (Z.eqb_spec (proto_mask f) 0); [done|].
  intros [= <-]. exists (proto_mask f).
  assert (is_u32 (proto_mask f)) as Hm.
  { unfold cb_line_ok in Hok. rewrite Forall_forall in Hok. apply Hok.
    do 15 right. by left. }
  done.
Qed.

Lemma prfx_body_fatal vals d :
  Forall is_u32 vals -> Z.of_nat (length vals) = 17 ->
  body prfx_loader vals = Fatal d ->
  exists m, d = Protocol_mask_error m /\ is_u32 m /\ m <> 255 /\ m <> 0.
Proof.
  intros Hv Hlen. simpl.
  destruct (prfx_line_of_full vals ltac:(lia)) as [f Hf]. rewrite Hf.
  pose proof (prfx_line_of_ok vals f Hf Hv) as Hok.
  unfold prfx_rule.
  destruct (Z.eqb_spec (Prfx.proto_mask f) 255); [done|].
  destruct (Z.eqb_spec (Prfx.proto_mask f) 0); [done|].
  intros [= <-]. exists (Prfx.proto_mask f).
  assert (is_u32 (Prfx.proto_mask f)) as Hm.
  { unfold prfx_line_ok in Hok. rewrite Forall_forall in Hok. apply Hok.
    do 15 right. by left. }
  done.
Qed.

Lemma trace_body_loaded vals :
  Z.of_nat (length vals) = 6 -> exists p, body trace_loader vals = Loaded p.
Proof.
  intros H. do 7 (destruct vals as [|? vals]; try (simpl in H; lia)).
  by eexists.
Qed.

(** X5. The format diagnostic of a loader arises exactly when a call of
    [fscanf], made with room left in the array and before the end of the
    file has been seen, does not assign a full line; nothing of what was
    loaded before is returned. *)
Theorem format_error_is_fatal (format : list directive) (contents : list ascii) :
  (stops_short cb_loader format contents
   <-> load_cb_rules format contents = Some (Fatal Illegal_rule_format))
  /\ (stops_short prfx_loader format contents
      <-> load_prfx_rules format contents = Some (Fatal Illegal_rule_format))
  /\ (stops_short trace_loader format contents
      <-> load_trace format contents = Some (Fatal Illegal_packet_format)).
Proof.
  split; [|split]; (split; [by apply load_stops_short|]); intros H;
    apply load_endings in H; try done;
    destruct H as (n & rs & fp' & Hrd & Hle & Hend);
    (destruct Hend as [[_ ?]|[(_ & _ & ?)|(Hf & Hn & k & vals & fp'' & Hs & Hk)]];
     [done|done|]).
  - destruct Hk as [[Hk _]|(-> & Hv & Hlen & d & Hb & Hd)].
    + by exists n, rs, fp', k, vals, fp''.
    + apply cb_body_fatal in Hb; try done. destruct Hb as (m & -> & _). done.
  - destruct Hk as [[Hk _]|(-> & Hv & Hlen & d & Hb & Hd)].
    + by exists n, rs, fp', k, vals, fp''.
    + apply prfx_body_fatal in Hb; try done. destruct Hb as (m & -> & _). done.
  - destruct Hk as [[Hk _]|(-> & Hv & Hlen & d & Hb & Hd)].
    + by exists n, rs, fp', k, vals, fp''.
    + destruct (trace_body_loaded vals Hlen) as [p Hp]. congruence.
Qed.

Lemma format_error_is_fatal_witness :
  stops_short cb_loader spec_cb_fmt junk_rules
  /\ load_cb_rules spec_cb_fmt junk_rules = Some (Fatal Illegal_rule_format).
Proof.
  assert (stops_short cb_loader spec_cb_fmt junk_rules) as Hs.
  { exists 1%nat. do 5 eexists. split; [vm_compute; reflexivity|].
    split; [reflexivity|]. split; [reflexivity|].
    split; [vm_compute; reflexivity|]. vm_compute. congruence. }
  split; [exact Hs|].
  by apply (proj1 (format_error_is_fatal spec_cb_fmt junk_rules)).
Defined.

(** X6. Every load ends, whatever the file: a rule loader returns at
    most [RULE_MAX] rules or ends on the capacity diagnostic, the
    format diagnostic, or the protocol-mask diagnostic with a mask that
    is neither 0xFF nor 0; [load_trace] returns at most [PKT_MAX]
    packets or ends on its capacity or its format diagnostic, never on
    another one. *)
Theorem loaders_always_end (format : list directive) (contents : list ascii) :
  (exists o, load_cb_rules format contents = Some o
     /\ match o with
        | Loaded rs => Z.of_nat (length rs) <= RULE_MAX
        | Fatal d =>
            d = Too_many_rules \/ d = Illegal_rule_format
            \/ exists m, d = Protocol_mask_error m
                         /\ is_u32 m /\ m <> 255 /\ m <> 0
        end)
  /\ (exists o, load_prfx_rules format contents = Some o
     /\ match o with
        | Loaded rs => Z.of_nat (length rs) <= RULE_MAX
        | Fatal d =>
            d = Too_many_rules \/ d = Illegal_rule_format
            \/ exists m, d = Protocol_mask_error m
                         /\ is_u32 m /\ m <> 255 /\ m <> 0
        end)
  /\ (exists o, load_trace format contents = Some o
     /\ match o with
        | Loaded pkts => Z.of_nat (length pkts) <= PKT_MAX
        | Fatal d => d = Too_many_packets \/ d = Illegal_packet_format
        end).
Proof.
  split; [|split].
  - destruct (load_total cb_loader format ltac:(done) contents) as [o Ho].
    exists o. split; [exact Ho|].
    apply load_endings in Ho; try done.
    destruct Ho as (n & rs & fp' & Hrd & Hle & Hend).
    pose proof (read_entries_consumes cb_loader format ltac:(done) n _ _ _ Hrd)
      as [_ Hlen].
    destruct Hend as [[_ ->]|[(_ & _ & ->)|(_ & _ & k & vals & fp'' & _ & Hk)]].
    + rewrite Hlen. exact Hle.
    + by left.
    + destruct Hk as [[_ ->]|(_ & Hv & Hl & d & Hb & ->)]; [right; by left|].
      right. right. by apply (cb_body_fatal vals).
  - destruct (load_total prfx_loader format ltac:(done) contents) as [o Ho].
    exists o. split; [exact Ho|].
    apply load_endings in Ho; try done.
    destruct Ho as (n & rs & fp' & Hrd & Hle & Hend).
    pose proof (read_entries_consumes prfx_loader format ltac:(done) n _ _ _ Hrd)
      as [_ Hlen].
    destruct Hend as [[_ ->]|[(_ & _ & ->)|(_ & _ & k & vals & fp'' & _ & Hk)]].
    + rewrite Hlen. exact Hle.
    + by left.
    + destruct Hk as [[_ ->]|(_ & Hv & Hl & d & Hb & ->)]; [right; by left|].
      right. right. by apply (prfx_body_fatal vals).
  - destruct (load_total trace_loader format ltac:(done) contents) as [o Ho].
    exists o. split; [exact Ho|].
    apply load_endings in Ho; try done.
    destruct Ho as (n & rs & fp' & Hrd & Hle & Hend).
    pose proof (read_entries_consumes trace_loader format ltac:(done) n _ _ _ Hrd)
      as [_ Hlen].
    destruct Hend as [[_ ->]|[(_ & _ & ->)|(_ & _ & k & vals & fp'' & _ & Hk)]].
    + rewrite Hlen. exact Hle.
    + by left.
    + destruct Hk as [[_ ->]|(_ & Hv & Hl & d & Hb & ->)]; [by right|].
      destruct (trace_body_loaded vals Hl) as [p Hp]. congruence.
Qed.

(** ** Further properties of the timing *)

(** X7. When the clock is set back between the two readings, by [gap]
    microseconds, [make_timediff] returns [2^64 - gap], and the
    searching speed computed from it is 0 whatever the number of
    packets of the trace. *)
Theorem clock_set_back (num : Z) (start stop : timeval) :
  0 <= num <= PKT_MAX ->
  let gap := usec_of start - usec_of stop in
  0 < gap <= 2 ^ 63 ->
  make_timediff start stop = 2 ^ 64 - gap
  /\ searching_speed num (make_timediff start stop) = Some 0.
Proof.
  intros Hnum gap Hgap.
  assert (make_timediff start stop = 2 ^ 64 - gap) as Hd.
  { rewrite make_timediff_mod.
    replace (usec_of stop - usec_of start) with (- gap) by (unfold gap; lia).
    symmetry. apply (Z.mod_unique_pos _ _ (-1)); lia. }
  split; [done|]. rewrite Hd. unfold searching_speed, PKT_MAX in *.
  destruct (Z.eqb_spec (2 ^ 64 - gap) 0) as [H0|_]; [lia|].
  f_equal. rewrite !u64_mod.
  rewrite (Z.mod_small num) by lia.
  rewrite (Z.mod_small (num * 1000000)) by lia.
  apply Z.div_small. lia.
Qed.

Lemma clock_set_back_witness :
  make_timediff (mk_timeval 10 500000) (mk_timeval 10 499999) = 2 ^ 64 - 1
  /\ searching_speed 1048576
       (make_timediff (mk_timeval 10 500000) (mk_timeval 10 499999)) = Some 0.
Proof.
  apply (clock_set_back 1048576 (mk_timeval 10 500000) (mk_timeval 10 499999)).
  - unfold PKT_MAX. lia.
  - vm_compute. split; [reflexivity | discriminate].
Defined.

(** ** The driver *)

Section DriverFacts.

Import Driver.

Variable RT : Type.
Variable rt_NULL : RT.
Variable run_build : build_fn -> rule_set -> RT -> Z * RT.
Variable run_search : search_fn -> trace -> RT -> Z.
Variable run_cleanup : cleanup_fn -> RT -> RT.
Variable ALGO_NUM : Z.
Variables CB_RULE_FMT PRFX_RULE_FMT PKT_FMT : list directive.
Variable E : env.

Local Abbreviation parse_option := (Driver.parse_option ALGO_NUM E).
Local Abbreviation parse_args_from := (Driver.parse_args_from ALGO_NUM E).
Local Abbreviation parse_args := (Driver.parse_args ALGO_NUM E).
Local Abbreviation accepted := (Driver.accepted ALGO_NUM E).
Local Abbreviation main :=
  (Driver.main RT rt_NULL run_build run_search run_cleanup ALGO_NUM
     CB_RULE_FMT PRFX_RULE_FMT PKT_FMT E).
Local Abbreviation phases :=
  (Driver.phases RT rt_NULL run_build run_search run_cleanup
     CB_RULE_FMT PRFX_RULE_FMT PKT_FMT E).
Local Abbreviation run :=
  (Driver.run RT rt_NULL run_build run_search run_cleanup ALGO_NUM
     CB_RULE_FMT PRFX_RULE_FMT PKT_FMT E).

Lemma getopt_long_accepted o w :
  accepted o = true -> getopt_long o w = (Next tt, w).
Proof.
  unfold Driver.accepted, Driver.getopt_long.
  destruct o as [ch a]. simpl.
  destruct (Ascii.eqb_spec ch "?") as [->|Hq]; [|done]. simpl. done.
Qed.

Lemma parse_option_accepted c o w :
  accepted o = true ->
  exists c',
    parse_option c o w = (Next c', w)
    /\ rule_file c'
       = (if Ascii.eqb (option_char o) "r" then Some (optarg o)
          else rule_file c)
    /\ u_rule_file c'
       = (if Ascii.eqb (option_char o) "u" then Some (optarg o)
          else u_rule_file c)
    /\ trace_file c'
       = (if Ascii.eqb (option_char o) "t" then Some (optarg o)
          else trace_file c)
    /\ algrthm_id c'
       = (if Ascii.eqb (option_char o) "a" then atoi (optarg o)
          else algrthm_id c).
Proof.
  unfold Driver.accepted, Driver.parse_option.
  destruct o as [ch a]. simpl.
  destruct (Ascii.eqb_spec ch "h") as [->|Hh]; simpl.
  { done. }
  destruct (Ascii.eqb_spec ch "a") as [->|Ha]; simpl.
  { intros ->. by eexists. }
  intros [Hc Hacc]%andb_true_iff. rewrite Hc, Hacc.
  destruct (Ascii.eqb_spec ch "r") as [->|Hr]; simpl; [by eexists|].
  destruct (Ascii.eqb_spec ch "t") as [->|Ht]; simpl; [by eexists|].
  destruct (Ascii.eqb_spec ch "u") as [->|Hu]; simpl; [by eexists|].
  discriminate Hc.
Qed.

(** A call of [getopt_long] that yields an option which is not
    accepted, and the turn of the loop on it. *)
Lemma turn_rejected c o w :
  accepted o = false ->
  exists w',
    getopt_long o w = (Next tt, w')
    /\ parse_option c o w'
       = (End (fst (rejection o)),
          mk_world (log w ++ snd (rejection o)) (clock_reads w) (callocs w)).
Proof.
  unfold Driver.accepted, Driver.parse_option, Driver.getopt_long, rejection.
  destruct o as [ch a]. simpl.
  destruct (Ascii.eqb_spec ch "?") as [->|Hq].
  { intros _. eexists. split; [reflexivity|]. destruct w as [l k m].
    simpl. unfold mbind, M_bind, print_help, Driver.printf, emit. simpl.
    by rewrite <- app_assoc. }
  intros Hacc. exists w. split; [done|].
  destruct (Ascii.eqb ch "h"); [done|].
  destruct (Ascii.eqb ch "a").
  { rewrite Hacc. destruct w. simpl. by rewrite app_nil_r. }
  destruct (Ascii.eqb ch "r" || Ascii.eqb ch "t" || Ascii.eqb ch "u");
    [|done].
  simpl in Hacc. by rewrite Hacc.
Qed.

Lemma last_optarg_cons ch o opts :
  last_optarg ch (o :: opts)
  = match last_optarg ch opts with
    | Some s => Some s
    | None => if Ascii.eqb (option_char o) ch then Some (optarg o) else None
    end.
Proof.
  unfold last_optarg. simpl rev.
  induction (rev opts) as [|x l IH]; simpl.
  - by destruct (Ascii.eqb (option_char o) ch).
  - by destruct (Ascii.eqb (option_char x) ch).
Qed.

(** The loop of [parse_args] gets through a command line when each of
    its options is accepted; the last occurrence of an option then
    decides, and nothing is printed. *)
Lemma parse_args_from_accepted opts :
  forall c w,
    forallb accepted opts = true ->
    exists c',
      parse_args_from c opts w = (Next c', w)
      /\ rule_file c' = from_option Some (rule_file c) (last_optarg "r" opts)
      /\ u_rule_file c'
         = from_option Some (u_rule_file c) (last_optarg "u" opts)
      /\ trace_file c'
         = from_option Some (trace_file c) (last_optarg "t" opts)
      /\ algrthm_id c'
         = match last_optarg "a" opts with
           | Some s => atoi s
           | None => algrthm_id c
           end.
Proof.
  induction opts as [|o opts IH]; intros c w Hacc.
  - exists c. by repeat split.
  - simpl in Hacc. apply andb_true_iff in Hacc. destruct Hacc as [Ho Hacc].
    destruct (parse_option_accepted c o w Ho) as (c1 & H1 & Hr & Hu & Ht & Ha).
    destruct (IH c1 w Hacc) as (c' & H2 & Hr' & Hu' & Ht' & Ha').
    exists c'. split.
    { simpl. unfold mbind, M_bind.
      by rewrite (getopt_long_accepted o w Ho), H1. }
    rewrite !last_optarg_cons, Hr', Hu', Ht', Ha', Hr, Hu, Ht, Ha.
    repeat split.
    + by destruct (last_optarg "r" opts), (Ascii.eqb (option_char o) "r").
    + by destruct (last_optarg "u" opts), (Ascii.eqb (option_char o) "u").
    + by destruct (last_optarg "t" opts), (Ascii.eqb (option_char o) "t").
    + by destruct (last_optarg "a" opts), (Ascii.eqb (option_char o) "a").
Qed.

(** The first option that is not accepted ends the loop. *)
Lemma parse_args_from_rejected pre o post :
  forall c w,
    forallb accepted pre = true ->
    accepted o = false ->
    parse_args_from c (pre ++ o :: post) w
    = (End (fst (rejection o)),
       mk_world (log w ++ snd (rejection o)) (clock_reads w) (callocs w)).
Proof.
  induction pre as [|p pre IH]; intros c w Hacc Ho.
  - destruct (turn_rejected c o w Ho) as (w' & Hg & Hp).
    simpl. unfold mbind, M_bind. by rewrite Hg, Hp.
  - simpl in Hacc. apply andb_true_iff in Hacc. destruct Hacc as [Hp Hacc].
    destruct (parse_option_accepted c p w Hp) as (c1 & H1 & _).
    simpl. unfold mbind, M_bind.
    rewrite (getopt_long_accepted p w Hp), H1. by apply IH.
Qed.

Lemma forallb_split {A} (f : A -> bool) (l : list A) :
  forallb f l = true
  \/ exists pre o post,
       l = pre ++ o :: post /\ forallb f pre = true /\ f o = false.
Proof.
  induction l as [|x l IH]; [by left|]. simpl.
  destruct (f x) eqn:Hx.
  - destruct IH as [IH|(pre & o & post & -> & Hpre & Ho)]; [by left|].
    right. exists (x :: pre), o, post. simpl. by rewrite Hx.
  - right. by exists [], x, l.
Qed.

Lemma config_eq (c c' : config) :
  rule_file c = rule_file c' -> u_rule_file c = u_rule_file c' ->
  trace_file c = trace_file c' -> algrthm_id c = algrthm_id c' -> c = c'.
Proof. destruct c, c'; simpl; congruence. Qed.

Lemma parse_args_returns opts w :
  forallb accepted opts = true ->
  parse_args opts w = (Next (config_of opts), w).
Proof.
  intros Hacc.
  destruct (parse_args_from_accepted opts cfg0 w Hacc)
    as (c & H & Hr & Hu & Ht & Ha).
  unfold Driver.parse_args. rewrite H. do 2 f_equal.
  apply config_eq; simpl; rewrite ?Hr, ?Hu, ?Ht, ?Ha; simpl.
  - by destruct (last_optarg "r" opts).
  - by destruct (last_optarg "u" opts).
  - by destruct (last_optarg "t" opts).
  - done.
Qed.

Lemma run_too_few_arguments argc opts :
  argc < 2 ->
  run argc opts = (Exited (-1), mk_world [Printf "%s" [Str help]] 0 0).
Proof.
  intros Hlt. unfold Driver.run, Driver.main.
  by destruct (Z.ltb_spec argc 2); [|lia].
Qed.

Lemma run_rejected argc pre o post :
  2 <= argc -> forallb accepted pre = true -> accepted o = false ->
  run argc (pre ++ o :: post)
  = (fst (rejection o), mk_world (snd (rejection o)) 0 0).
Proof.
  intros Hge Hpre Ho. unfold Driver.run, Driver.main.
  destruct (Z.ltb_spec argc 2) as [Hlt|_]; [lia|].
  unfold mbind, M_bind, mret, M_ret, Driver.parse_args.
  by rewrite (parse_args_from_rejected pre o post cfg0 world0 Hpre Ho).
Qed.

Lemma run_accepted argc opts :
  2 <= argc -> forallb accepted opts = true ->
  run argc opts = finish (phases (config_of opts) world0).
Proof.
  intros Hge Hacc. unfold Driver.run, Driver.main.
  destruct (Z.ltb_spec argc 2) as [Hlt|_]; [lia|].
  unfold mbind, M_bind, mret, M_ret.
  by rewrite (parse_args_returns opts world0 Hacc).
Qed.

(** The three ways of a run: too few arguments, an option that is not
    accepted, and the phases under the configuration asked for. *)
Lemma run_cases argc opts :
  (argc < 2
   /\ run argc opts = (Exited (-1), mk_world [Printf "%s" [Str help]] 0 0))
  \/ (2 <= argc
      /\ exists pre o post,
           opts = pre ++ o :: post
           /\ forallb accepted pre = true /\ accepted o = false
           /\ run argc opts
              = (fst (rejection o), mk_world (snd (rejection o)) 0 0))
  \/ (2 <= argc
      /\ forallb accepted opts = true
      /\ run argc opts = finish (phases (config_of opts) world0)).
Proof.
  destruct (Z.lt_ge_cases argc 2) as [Hlt|Hge].
  { left. split; [done|]. by apply run_too_few_arguments. }
  right.
  destruct (forallb_split accepted opts)
    as [Hacc|(pre & o & post & -> & Hpre & Ho)].
  - right. split; [done|]. split; [done|]. by apply run_accepted.
  - left. split; [done|]. exists pre, o, post. repeat split; try done.
    by apply run_rejected.
Qed.

(** What a rejection leaves behind. *)
Lemma rejection_cases o :
  (rejection o = (Exited 0, [Printf "%s" [Str help]]))
  \/ (rejection o = (Exited (-1), [Printf "%s" [Str help]]))
  \/ (rejection o = (Exited (-1), [Getopt_error; Printf "%s" [Str help]]))
  \/ (rejection o = (Exited (-1), [Perror (optarg o)]))
  \/ (rejection o = (Assert_failed, [])).
Proof.
  unfold rejection.
  destruct (Ascii.eqb (option_char o) "h"); [by left|].
  destruct (Ascii.eqb (option_char o) "a"); [by do 4 right|].
  destruct (Ascii.eqb (option_char o) "r" || Ascii.eqb (option_char o) "t"
            || Ascii.eqb (option_char o) "u"); [by do 3 right; left|].
  destruct (Ascii.eqb (option_char o) "?");
    [by do 2 right; left|by right; left].
Qed.

Lemma last_optarg_in ch opts s :
  last_optarg ch opts = Some s ->
  exists o, In o opts /\ option_char o = ch /\ optarg o = s.
Proof.
  unfold last_optarg. intros H.
  destruct (List.find _ (rev opts)) as [o|] eqn:Hf; [|done].
  apply find_some in Hf. destruct Hf as [Hin Hch].
  exists o. split; [by apply in_rev|]. split.
  - by apply Ascii.eqb_eq.
  - simpl in H. congruence.
Qed.

(** The identifier parse_args leaves is that of an entry of the table
    or lies from 2 below [ALGO_NUM]. *)
Lemma accepted_id opts :
  forallb accepted opts = true ->
  algrthm_id (config_of opts) = 0
  \/ 0 <= algrthm_id (config_of opts) < ALGO_NUM.
Proof.
  intros Hacc. unfold config_of. simpl.
  destruct (last_optarg "a" opts) as [s|] eqn:Hl; [|by left].
  apply last_optarg_in in Hl. destruct Hl as (o & Hin & Hch & <-).
  rewrite forallb_forall in Hacc. specialize (Hacc o Hin).
  unfold Driver.accepted in Hacc. rewrite Hch in Hacc. simpl in Hacc.
  right. lia.
Qed.

Lemma algrthm_at_undefined id w :
  Driver.algrthm_at id w = (End Undefined_behaviour, w) ->
  id < 0 \/ 2 <= id.
Proof.
  unfold Driver.algrthm_at. destruct (Z.ltb_spec id 0) as [|Hid]; [by left|].
  intros Hat. right.
  destruct (Z.lt_ge_cases id 2) as [Hlt|]; [|done].
  assert (id = 0 \/ id = 1) as [-> | ->] by lia; discriminate Hat.
Qed.

Lemma algrthm_at_cases id w :
  Driver.algrthm_at id w = (End Undefined_behaviour, w)
  \/ exists a, Driver.algrthm_at id w = (Next a, w).
Proof.
  unfold Driver.algrthm_at. destruct (id <? 0); [by left|].
  destruct (algrthms !! Z.to_nat id); [right; by eexists|by left].
Qed.

(** The paths of [phases]: each test on the way is decided in turn. *)
Ltac expand_phases :=
  cbv beta iota zeta delta
    [Driver.updating Driver.searching Driver.call_load_rules
     Driver.call_load_trace Driver.load_file Driver.call_build
     Driver.call_search Driver.call_cleanup Driver.unload_rules
     Driver.unload_trace Driver.gettimeofday Driver.calloc Driver.printf
     Driver.eprintf Driver.perror Driver.emit Driver.exit Driver.stop
     Driver.finish mbind M_bind mret M_ret world0 log clock_reads callocs
     app].

Ltac decide_test :=
  match goal with
  | |- context [match ?x with _ => _ end] =>
      lazymatch x with
      | context [match _ with _ => _ end] => fail
      | _ => destruct x eqn:?
      end
  end; expand_phases.

Ltac paths_of_phases cfg a Ha :=
  match goal with
  | |- _ = (?e, ?w) -> ?G =>
      let Q := fresh "Q" in
      pose (Q := fun (e0 : ending) (w0 : world) =>
                   ltac:(let g := eval pattern e, w in G in
                         match g with ?f _ _ => exact (f e0 w0) end));
      change (finish (phases cfg world0) = (e, w) -> Q e w)
  end;
  unfold Driver.phases;
  destruct (rule_file cfg) as [?rf|];
  [ unfold mbind at 1, M_bind at 1;
    destruct (algrthm_at_cases (algrthm_id cfg) world0) as [Ha|[a Ha]];
    rewrite Ha;
    [ expand_phases | expand_phases; repeat decide_test ]
  | expand_phases ].

(** An event that differs from another one, by its kind or by its
    text. *)
Ltac other_event H :=
  first [ discriminate H
        | exfalso; injection H; intros; simplify_eq
        | exfalso; vm_compute in H; discriminate H ].

Ltac not_in_log H :=
  simpl in H;
  repeat (destruct H as [H|H]; [other_event H|]);
  try (exfalso; exact H).

Ltac in_log := simpl; repeat (first [left; reflexivity | right]).

Lemma phases_cleanup cfg e w :
  finish (phases cfg world0) = (e, w) ->
  (length (cleanups (log w)) <= 1)%nat
  /\ (cleanups (log w) <> []
      <-> e = Returned 0 \/ In (Eprintf Searching_failed []) (log w)).
Proof.
  paths_of_phases cfg a Ha.
  all: intros [= <- <-]; subst Q; cbv beta.
  all: split; [simpl; lia|].
  all: split;
    [ simpl; intros Hc; first [done | by left | right; in_log ]
    | intros [Hr|Hin]; [try discriminate Hr; try done | not_in_log Hin]; try done ].
Qed.

(** The loop of a loader is not cut short. *)
Ltac loader_ends :=
  exfalso;
  match goal with
  | H : load_cb_rules ?f ?c = None |- _ =>
      destruct (load_total cb_loader f ltac:(done) c) as [? Ht];
      unfold load_cb_rules in H; congruence
  | H : load_prfx_rules ?f ?c = None |- _ =>
      destruct (load_total prfx_loader f ltac:(done) c) as [? Ht];
      unfold load_prfx_rules in H; congruence
  | H : load_trace ?f ?c = None |- _ =>
      destruct (load_total trace_loader f ltac:(done) c) as [? Ht];
      unfold load_trace in H; congruence
  end.

Lemma phases_endings cfg e w :
  finish (phases cfg world0) = (e, w) ->
  e <> Out_of_fuel /\ e <> Assert_failed
  /\ (forall s, e = Returned s ->
        s = 0 /\ existsb to_stderr (log w) = false
        /\ In (Printf Building_pass []) (log w))
  /\ (forall s, e = Exited s -> s = -1)
  /\ (e = Undefined_behaviour ->
      Driver.algrthm_at (algrthm_id cfg) world0
      = (End Undefined_behaviour, world0)).
Proof.
  paths_of_phases cfg a Ha.
  all: intros [= <- <-]; subst Q; cbv beta.
  all: split; [first [discriminate | intros _; loader_ends]|].
  all: split; [discriminate|].
  all: split;
    [intros st Hs;
     first [discriminate Hs
           | injection Hs as <-; split; [done|]; split; [reflexivity|in_log]]|].
  all: split;
    [intros st Hs; first [discriminate Hs | by injection Hs as <-]|].
  all: intros He; try discriminate He; done.
Qed.

Lemma searching_speed_none n d : searching_speed n d = None -> d = 0.
Proof.
  unfold searching_speed. by destruct (Z.eqb_spec d 0).
Qed.

Lemma phases_zero_time cfg e w :
  finish (phases cfg world0) = (e, w) ->
  (e = Division_by_zero
   <-> last (log w) = Some (Printf Time_searching [Num 0]))
  /\ (e = Division_by_zero ->
      In (Printf Searching_pass []) (log w)
      /\ cleanups (log w) = [] /\ unloaded_traces (log w) = []).
Proof.
  paths_of_phases cfg a Ha.
  all: intros [= <- <-]; subst Q; cbv beta.
  all: split;
    [|intros He; first [discriminate He | split; [in_log|by split]]].
  all: split;
    [ intros He; try discriminate He; simpl;
      match goal with
      | H : searching_speed _ _ = None |- _ =>
          apply searching_speed_none in H; by rewrite H
      end
    | simpl; intros Hl; first [done | exfalso; other_event Hl | idtac] ].
Qed.

(** The place of an event in a log of which every event is known. *)
Ltac place_in_log H l1 :=
  repeat (destruct l1 as [|? l1];
          [ try discriminate H
          | simpl in H; injection H as ? H; subst ]);
  try (destruct l1; discriminate H).

Lemma phases_search_after_release cfg e w l1 f t l2 :
  finish (phases cfg world0) = (e, w) ->
  log w = l1 ++ Call_search f t :: l2 ->
  In (Printf Building_pass []) l1
  /\ (forall g rs, In (Call_build g rs) l1 -> In (Unload_rules rs) l1)
  /\ (forall g rs, ~ In (Call_build g rs) l2).
Proof.
  paths_of_phases cfg a Ha.
  all: intros [= <- <-]; subst Q; cbv beta; simpl; intros Hlog.
  all: place_in_log Hlog l1.
  all: simpl in Hlog; injection Hlog as <- <- <-.
  all: split; [in_log|].
  all: split; [|intros g rs Hin; not_in_log Hin].
  all: intros g rs Hin; simpl in Hin.
  all: repeat (destruct Hin as [Hin|Hin];
               [first [discriminate Hin | injection Hin as <- <-; in_log]|]).
  all: done.
Qed.

(** The value of the searching speed that is printed. *)
Lemma speed_value num start stop z :
  searching_speed num (make_timediff start stop) = Some z ->
  0 <= num <= PKT_MAX ->
  make_timediff start stop <> 0
  /\ z = (num * 1000000) mod 2 ^ 64 / make_timediff start stop
  /\ (let elapsed :=
        (1000000 * tv_sec stop + tv_usec stop)
        - (1000000 * tv_sec start + tv_usec start) in
      0 < elapsed < 2 ^ 64 -> z = num * 1000000 / elapsed).
Proof.
  intros Hz Hnum. split; [|split].
  - intros H0. rewrite H0 in Hz. discriminate Hz.
  - revert Hz. unfold searching_speed.
    destruct (Z.eqb_spec (make_timediff start stop) 0); [done|].
    intros [= <-]. rewrite !u64_mod.
    unfold PKT_MAX in Hnum. by rewrite (Z.mod_small num) by lia.
  - intros elapsed He.
    destruct (speed_of_interval num start stop Hnum He) as [_ Hs].
    rewrite Hs in Hz. by injection Hz.
Qed.

Lemma phases_speed cfg e w :
  finish (phases cfg world0) = (e, w) ->
  (forall args,
     In (Printf Searching_speed args) (log w) ->
     exists tf contents pkts,
       trace_file cfg = Some tf
       /\ fopen_r E tf = Some contents
       /\ load_trace PKT_FMT contents = Some (Loaded pkts)
       /\ (exists f, In (Call_search f
                          (mk_trace pkts (Z.of_nat (length pkts)))) (log w))
       /\ let num := Z.of_nat (length pkts) in
          let start := clock E (clock_reads w - 2) in
          let stop := clock E (clock_reads w - 1) in
          let elapsed :=
            (1000000 * tv_sec stop + tv_usec stop)
            - (1000000 * tv_sec start + tv_usec start) in
          make_timediff start stop <> 0
          /\ args = [Num ((num * 1000000) mod 2 ^ 64
                          / make_timediff start stop)]
          /\ (0 < elapsed < 2 ^ 64 ->
              args = [Num (num * 1000000 / elapsed)]))
  /\ (e = Returned 0 -> forall tf, trace_file cfg = Some tf ->
      exists args, In (Printf Searching_speed args) (log w)).
Proof.
  paths_of_phases cfg a Ha.
  all: intros [= <- <-]; subst Q; cbv beta.
  all: split;
    [ intros args Hin; simpl in Hin;
      repeat (destruct Hin as [Hin|Hin];
              [try (first [ discriminate Hin
                          | by (injection Hin; intros;
                                match goal with
                                | Hs : @eq string _ _ |- _ =>
                                    vm_compute in Hs; discriminate Hs
                                end) ])|]);
      try (exfalso; exact Hin)
    | intros He tf Htf;
      first [ discriminate He | congruence | eexists; in_log ] ].
  all: injection Hin as <-.
  all: match goal with
       | Htf : trace_file _ = Some ?tf,
         Hop : fopen_r _ ?tf = Some ?c,
         Hld : load_trace _ ?c = Some (Loaded ?p),
         Hsp : searching_speed _ _ = Some ?z |- _ =>
           exists tf, c, p; split; [done|]; split; [done|]; split; [done|];
           split; [eexists; in_log|];
           pose proof (speed_value _ _ _ _ Hsp (load_trace_num _ _ _ Hld))
             as (H1 & H2 & H3);
           cbv zeta; simpl Nat.sub; split; [done|]; split; [by rewrite H2|];
           intros Hel; by rewrite (H3 Hel)
       end.
Qed.

(** The ways of a run, with what a rejection leaves behind. *)
Ltac ways_of_run argc opts Hrun :=
  let Hr := fresh "Hr" in
  let Hj := fresh "Hj" in
  destruct (run_cases argc opts)
    as [[_ Hr]|[(_ & ?pre & ?o & ?post & -> & _ & ?Ho & Hr)|(_ & ?Hacc & Hr)]];
  rewrite Hr in Hrun;
  [ injection Hrun as <- <-
  | match goal with
    | Ho : accepted ?o = false |- _ =>
        destruct (rejection_cases o) as [Hj|[Hj|[Hj|[Hj|Hj]]]];
        rewrite Hj in Hrun; simpl in Hrun; injection Hrun as <- <-
    end
  | ].

(** *** The searching speed *)

(** C8. The searching speed [main] prints is
    [num * 1000000 / elapsed], an integer division: [num] is the number
    of packets [load_trace] loaded from the trace file, which are the
    packets handed to the search function, and [elapsed] is
    [(1000000 * stop.tv_sec + stop.tv_usec)
     - (1000000 * start.tv_sec + start.tv_usec)] for the two readings
    of the clock around the search, the last two of the run, when that
    is a positive interval (in general the 64-bit value
    [make_timediff] returns, which is not 0).  The speed is printed in
    every run with a trace file in which [main] returns. *)
Theorem searching_speed_printed (argc : Z) (opts : list getopt_result)
    (e : ending) (w : world) :
  run argc opts = (e, w) ->
  (forall args,
     In (Printf Searching_speed args) (log w) ->
     exists tf contents pkts,
       last_optarg "t" opts = Some tf
       /\ fopen_r E tf = Some contents
       /\ load_trace PKT_FMT contents = Some (Loaded pkts)
       /\ (exists f, In (Call_search f
                          (mk_trace pkts (Z.of_nat (length pkts)))) (log w))
       /\ let num := Z.of_nat (length pkts) in
          let start := clock E (clock_reads w - 2) in
          let stop := clock E (clock_reads w - 1) in
          let elapsed :=
            (1000000 * tv_sec stop + tv_usec stop)
            - (1000000 * tv_sec start + tv_usec start) in
          make_timediff start stop <> 0
          /\ args = [Num ((num * 1000000) mod 2 ^ 64
                          / make_timediff start stop)]
          /\ (0 < elapsed < 2 ^ 64 ->
              args = [Num (num * 1000000 / elapsed)]))
  /\ (e = Returned 0 -> forall tf, last_optarg "t" opts = Some tf ->
      exists args, In (Printf Searching_speed args) (log w)).
Proof.
  intros Hrun. ways_of_run argc opts Hrun.
  1-6: split; [intros args Hin; not_in_log Hin|discriminate].
  by apply phases_speed in Hrun.
Qed.

(** *** Properties of [parse_args] *)

(** X8. [parse_args] returns exactly when every option of the command
    line is accepted: [-r], [-t] and [-u] with a file that [access]
    finds, [-a] with an argument that [atoi] makes a number from 0
    below [ALGO_NUM].  The configuration then holds, for each option,
    the argument of its last occurrence (no file and algorithm 0 where
    there is none), and nothing has been printed. *)
Theorem parse_args_accepts (opts : list getopt_result) (w w' : world)
    (cfg : config) :
  parse_args opts w = (Next cfg, w')
  <-> forallb accepted opts = true /\ cfg = config_of opts /\ w' = w.
Proof.
  split.
  - intros H.
    destruct (forallb_split accepted opts)
      as [Hacc|(pre & o & post & -> & Hpre & Ho)].
    + rewrite (parse_args_returns opts w Hacc) in H. by injection H as <- <-.
    + unfold Driver.parse_args in H.
      by rewrite (parse_args_from_rejected pre o post cfg0 w Hpre Ho) in H.
  - intros (Hacc & -> & ->). by apply parse_args_returns.
Qed.

(** *** Properties of [main] *)

(** X9. The first option that is not accepted ends the run, whatever
    follows it and whatever was accepted before it: [-h] prints the
    help and exits with 0; [-r], [-t], [-u] with a file that [access]
    does not find call [perror] with the path and exit with -1; [-a]
    with a number that [atoi] does not make an algorithm fails the
    assertion; an option [getopt_long] turns down, after the message
    of [getopt_long], prints the help and exits with -1.  Nothing else
    is printed and no file has been opened by then. *)
Theorem rejected_option_ends_run (argc : Z) (pre post : list getopt_result)
    (o : getopt_result) :
  2 <= argc -> forallb accepted pre = true -> accepted o = false ->
  run argc (pre ++ o :: post)
  = (fst (rejection o), mk_world (snd (rejection o)) 0 0).
Proof. apply run_rejected. Qed.

(** X10. Without a rule file nothing is done: with fewer than two
    arguments the help is printed, and with accepted options none of
    which is [-r] the message [No rules for processing] is; the exit
    status is -1 in both cases, and no file is opened, no engine
    called. *)
Theorem no_rule_file_no_work (argc : Z) (opts : list getopt_result) :
  (argc < 2 ->
   run argc opts = (Exited (-1), mk_world [Printf "%s" [Str help]] 0 0))
  /\ (2 <= argc -> forallb accepted opts = true ->
      last_optarg "r" opts = None ->
      run argc opts = (Exited (-1), mk_world [Eprintf No_rules []] 0 0)).
Proof.
  split; [apply run_too_few_arguments|].
  intros Hge Hacc Hr. rewrite (run_accepted argc opts Hge Hacc).
  unfold Driver.phases, config_of. simpl. by rewrite Hr.
Qed.

(** X11. A run ends.  When [main] returns, it returns 0, the build has
    passed and nothing has been written to the error stream.  [exit] is
    called with -1, or with 0 after the help has been printed for [-h]
    and nothing else.  The behaviour is undefined only when [ALGO_NUM]
    exceeds the two entries of the table. *)
Theorem run_endings (argc : Z) (opts : list getopt_result) (e : ending)
    (w : world) :
  run argc opts = (e, w) ->
  e <> Out_of_fuel
  /\ (forall s, e = Returned s ->
        s = 0 /\ existsb to_stderr (log w) = false
        /\ In (Printf Building_pass []) (log w))
  /\ (forall s, e = Exited s ->
        s = -1 \/ (s = 0 /\ log w = [Printf "%s" [Str help]]))
  /\ (e = Undefined_behaviour -> 2 < ALGO_NUM).
Proof.
  intros Hrun. ways_of_run argc opts Hrun.
  1-6: split; [discriminate|]; split; [discriminate|].
  1-6: split; [intros s [= <-]; auto|]; try discriminate.
  apply phases_endings in Hrun.
  destruct Hrun as (Hf & _ & Hret & Hex & Hun).
  split; [done|]. split; [done|]. split.
  { intros s Hs. left. by apply Hex. }
  intros He. apply Hun, algrthm_at_undefined in He.
  destruct (accepted_id opts Hacc); lia.
Qed.

(** X12. A cleanup function is called at most once in a run, and it is
    called exactly in the runs in which [main] returns and those that
    print [Searching failed].  So the runtime is not cleaned up when
    the build or the update fails, when the update rules or the trace
    cannot be loaded, and when the searching speed cannot be
    computed. *)
Theorem cleanup_discipline (argc : Z) (opts : list getopt_result)
    (e : ending) (w : world) :
  run argc opts = (e, w) ->
  (length (cleanups (log w)) <= 1)%nat
  /\ (cleanups (log w) <> []
      <-> e = Returned 0 \/ In (Eprintf Searching_failed []) (log w)).
Proof.
  intros Hrun. ways_of_run argc opts Hrun.
  1-6: split; [simpl; lia|]; split; [done|];
    intros [Hret|Hin]; [discriminate Hret|not_in_log Hin].
  by apply phases_cleanup in Hrun.
Qed.

(** X13. A run ends on the division by zero exactly when the last
    thing it does is to print a time for searching of 0 microseconds;
    the search has passed then, and neither the trace is released nor
    the runtime cleaned up. *)
Theorem zero_search_time (argc : Z) (opts : list getopt_result)
    (e : ending) (w : world) :
  run argc opts = (e, w) ->
  (e = Division_by_zero
   <-> last (log w) = Some (Printf Time_searching [Num 0]))
  /\ (e = Division_by_zero ->
      In (Printf Searching_pass []) (log w)
      /\ cleanups (log w) = [] /\ unloaded_traces (log w) = []).
Proof.
  intros Hrun. ways_of_run argc opts Hrun.
  1-6: split; [|discriminate]; split; [discriminate|];
    simpl; intros Hl; first [discriminate Hl | exfalso; other_event Hl].
  by apply phases_zero_time in Hrun.
Qed.

(** X14. The search runs on released rules: when a search function is
    called the build has passed, every rule set that was handed to a
    build or update function has been released by [unload_rules], and
    no build or update function is called afterwards. *)
Theorem rules_released_before_search (argc : Z) (opts : list getopt_result)
    (e : ending) (w : world) (l1 l2 : list event) (f : search_fn)
    (t : trace) :
  run argc opts = (e, w) ->
  log w = l1 ++ Call_search f t :: l2 ->
  In (Printf Building_pass []) l1
  /\ (forall g rs, In (Call_build g rs) l1 -> In (Unload_rules rs) l1)
  /\ (forall g rs, ~ In (Call_build g rs) l2).
Proof.
  intros Hrun. ways_of_run argc opts Hrun.
  1-6: simpl; intros Hlog; exfalso; place_in_log Hlog l1.
  by apply (phases_search_after_release _ _ _ _ _ _ _ Hrun).
Qed.

End DriverFacts.

(** *** Runs of the demo *)

Lemma searching_speed_printed_witness :
  let r := Driver.demo_run Driver.ticking
             [Driver.Opt "r" "rules"; Driver.Opt "t" "trace"] in
  In (Driver.Printf Driver.Searching_speed [Driver.Num 1000000])
    (Driver.log (snd r))
  /\ exists tf contents pkts,
      Driver.last_optarg "t"
        [Driver.Opt "r" "rules"; Driver.Opt "t" "trace"] = Some tf
      /\ Driver.fopen_r (Driver.demo_env Driver.ticking) tf = Some contents
      /\ load_trace spec_pkt_fmt contents = Some (Loaded pkts)
      /\ [Driver.Num 1000000]
         = [Driver.Num (Z.of_nat (length pkts) * 1000000
                        / ((1000000 * 0 + 3) - (1000000 * 0 + 2)))].
Proof.
  intros r.
  assert (In (Driver.Printf Driver.Searching_speed [Driver.Num 1000000])
            (Driver.log (snd r))) as Hin.
  { vm_compute. do 13 right. left. reflexivity. }
  split; [exact Hin|].
  destruct (proj1 (searching_speed_printed unit tt Driver.ok_build
                     Driver.ok_search Driver.ok_cleanup 2 spec_cb_fmt
                     spec_prfx_fmt spec_pkt_fmt
                     (Driver.demo_env Driver.ticking) 5
                     [Driver.Opt "r" "rules"; Driver.Opt "t" "trace"]
                     (fst r) (snd r) ltac:(vm_compute; reflexivity))
              [Driver.Num 1000000] Hin)
    as (tf & contents & pkts & Htf & Hop & Hld & _ & _ & _ & Hel).
  exists tf, contents, pkts. split; [exact Htf|]. split; [exact Hop|].
  split; [exact Hld|]. apply Hel. vm_compute. split; reflexivity.
Defined.

Lemma parse_args_accepts_witness :
  Driver.parse_args 2 (Driver.demo_env Driver.ticking)
    [Driver.Opt "r" "trace"; Driver.Opt "a" "0"; Driver.Opt "t" "trace";
     Driver.Opt "a" " 4294967297"; Driver.Opt "r" "rules"]
    Driver.world0
  = (Driver.Next (Driver.mk_config (Some "rules"%string) None (Some "trace"%string) 1),
     Driver.world0).
Proof.
  apply (proj2 (parse_args_accepts 2 (Driver.demo_env Driver.ticking) _ _ _ _)).
  split; [reflexivity|]. split; reflexivity.
Defined.

Lemma rejected_option_ends_run_witness :
  Driver.demo_run Driver.ticking
    [Driver.Opt "r" "rules"; Driver.Opt "t" "nowhere"; Driver.Opt "h" ""]
  = (Driver.Exited (-1),
     Driver.mk_world [Driver.Perror "nowhere"] 0 0)
  /\ Driver.demo_run Driver.ticking
       [Driver.Opt "r" "rules"; Driver.Opt "?" ""; Driver.Opt "h" ""]
     = (Driver.Exited (-1),
        Driver.mk_world
          [Driver.Getopt_error; Driver.Printf "%s" [Driver.Str Driver.help]]
          0 0)
  /\ Driver.demo_run Driver.ticking
       [Driver.Opt "r" "rules"; Driver.Opt "a" "2"; Driver.Opt "t" "trace"]
     = (Driver.Assert_failed, Driver.world0).
Proof.
  split; [|split].
  - apply (rejected_option_ends_run unit tt Driver.ok_build Driver.ok_search
             Driver.ok_cleanup 2 spec_cb_fmt spec_prfx_fmt spec_pkt_fmt
             (Driver.demo_env Driver.ticking) 7
             [Driver.Opt "r" "rules"] [Driver.Opt "h" ""]
             (Driver.Opt "t" "nowhere"));
      [lia | reflexivity | reflexivity].
  - apply (rejected_option_ends_run unit tt Driver.ok_build Driver.ok_search
             Driver.ok_cleanup 2 spec_cb_fmt spec_prfx_fmt spec_pkt_fmt
             (Driver.demo_env Driver.ticking) 7
             [Driver.Opt "r" "rules"] [Driver.Opt "h" ""]
             (Driver.Opt "?" ""));
      [lia | reflexivity | reflexivity].
  - apply (rejected_option_ends_run unit tt Driver.ok_build Driver.ok_search
             Driver.ok_cleanup 2 spec_cb_fmt spec_prfx_fmt spec_pkt_fmt
             (Driver.demo_env Driver.ticking) 7
             [Driver.Opt "r" "rules"] [Driver.Opt "t" "trace"]
             (Driver.Opt "a" "2"));
      [lia | reflexivity | reflexivity].
Defined.

Lemma no_rule_file_no_work_witness :
  Driver.demo_run Driver.ticking
    [Driver.Opt "t" "trace"; Driver.Opt "a" "1"]
  = (Driver.Exited (-1),
     Driver.mk_world [Driver.Eprintf Driver.No_rules []] 0 0).
Proof.
  apply (proj2 (no_rule_file_no_work unit tt Driver.ok_build Driver.ok_search
                  Driver.ok_cleanup 2 spec_cb_fmt spec_prfx_fmt spec_pkt_fmt
                  (Driver.demo_env Driver.ticking) 5
                  [Driver.Opt "t" "trace"; Driver.Opt "a" "1"]));
    [lia | reflexivity | reflexivity].
Defined.

Lemma run_endings_witness :
  let r := Driver.demo_run Driver.ticking
             [Driver.Opt "r" "rules"; Driver.Opt "t" "trace"] in
  fst r = Driver.Returned 0
  /\ existsb Driver.to_stderr (Driver.log (snd r)) = false
  /\ In (Driver.Printf Driver.Building_pass []) (Driver.log (snd r)).
Proof.
  intros r.
  assert (fst r = Driver.Returned 0) as Hret by (vm_compute; reflexivity).
  split; [exact Hret|].
  refine (proj2 (proj1 (proj2 (run_endings unit tt Driver.ok_build
            Driver.ok_search Driver.ok_cleanup 2 spec_cb_fmt spec_prfx_fmt
            spec_pkt_fmt (Driver.demo_env Driver.ticking) 5
            [Driver.Opt "r" "rules"; Driver.Opt "t" "trace"]
            (fst r) (snd r) _)) 0 Hret)).
  vm_compute; reflexivity.
Defined.

Lemma cleanup_discipline_witness :
  let r := Driver.demo_run Driver.ticking
             [Driver.Opt "a" "0"; Driver.Opt "r" "rules"] in
  Driver.cleanups (Driver.log (snd r)) = [Driver.Hs_cleanup]
  /\ (Driver.cleanups (Driver.log (snd r)) <> []
      <-> fst r = Driver.Returned 0
          \/ In (Driver.Eprintf Driver.Searching_failed [])
               (Driver.log (snd r))).
Proof.
  intros r. split; [vm_compute; reflexivity|].
  refine (proj2 (cleanup_discipline unit tt Driver.ok_build Driver.ok_search
            Driver.ok_cleanup 2 spec_cb_fmt spec_prfx_fmt spec_pkt_fmt
            (Driver.demo_env Driver.ticking) 5
            [Driver.Opt "a" "0"; Driver.Opt "r" "rules"]
            (fst r) (snd r) _)).
  vm_compute; reflexivity.
Defined.

Lemma zero_search_time_witness :
  let r := Driver.demo_run Driver.standing
             [Driver.Opt "r" "rules"; Driver.Opt "t" "trace"] in
  fst r = Driver.Division_by_zero
  /\ In (Driver.Printf Driver.Searching_pass []) (Driver.log (snd r))
  /\ Driver.cleanups (Driver.log (snd r)) = []
  /\ Driver.unloaded_traces (Driver.log (snd r)) = [].
Proof.
  intros r.
  assert (fst r = Driver.Division_by_zero) as Hdiv
    by (vm_compute; reflexivity).
  split; [exact Hdiv|].
  refine (proj2 (zero_search_time unit tt Driver.ok_build Driver.ok_search
            Driver.ok_cleanup 2 spec_cb_fmt spec_prfx_fmt spec_pkt_fmt
            (Driver.demo_env Driver.standing) 5
            [Driver.Opt "r" "rules"; Driver.Opt "t" "trace"]
            (fst r) (snd r) _) Hdiv).
  vm_compute; reflexivity.
Defined.

Lemma rules_released_before_search_witness :
  let r := Driver.demo_run Driver.ticking
             [Driver.Opt "r" "rules"; Driver.Opt "t" "trace"] in
  let l1 := take 10 (Driver.log (snd r)) in
  let l2 := drop 11 (Driver.log (snd r)) in
  let t := Driver.mk_trace [mk_packet (mk_dims 1 2 3 4 6) 0] 1 in
  Driver.log (snd r) = l1 ++ Driver.Call_search Driver.Hs_search t :: l2
  /\ In (Driver.Printf Driver.Building_pass []) l1
  /\ (forall g rs,
        In (Driver.Call_build g rs) l1 -> In (Driver.Unload_rules rs) l1)
  /\ (forall g rs, ~ In (Driver.Call_build g rs) l2).
Proof.
  intros r l1 l2 t.
  assert (Driver.log (snd r)
          = l1 ++ Driver.Call_search Driver.Hs_search t :: l2) as Hlog
    by (vm_compute; reflexivity).
  split; [exact Hlog|].
  refine (rules_released_before_search unit tt Driver.ok_build
            Driver.ok_search Driver.ok_cleanup 2 spec_cb_fmt spec_prfx_fmt
            spec_pkt_fmt (Driver.demo_env Driver.ticking) 5
            [Driver.Opt "r" "rules"; Driver.Opt "t" "trace"]
            (fst r) (snd r) l1 l2 Driver.Hs_search t _ Hlog).
  vm_compute; reflexivity.
Defined.
